(** * zip-stream: a streaming ZIP encoder and its growable array

    Shallow embedding of [src/varray.c], [varray.h], [zip.c] and [zip.h],
    and the properties of the encoder's entry life cycle, its record
    serialisation and the growable array stated over that embedding.

    Conventions of the embedding.
    - C integers are values of [Z]; every conversion to a fixed-width type
      is written out as a reduction modulo 2^w ([uint8_t], [uint16_t],
      [uint32_t], [size_t], the last one 64 bits wide as on LP64).
    - A byte buffer handed to a callback is the [list Z] of its bytes.
    - A call either returns ([Done]), has no defined behaviour in C
      because it reads or writes outside an array ([Undefined]), or has
      not left the compression loop within the given number of rounds
      ([OutOfFuel]).
    - [malloc] and [realloc] are taken to succeed, as the source does,
      and to return a buffer of the number of bytes asked for: the
      byte counts are the [size_t] values the source computes. *)

From Stdlib Require Import ZArith Lia List Bool.
From stdpp Require Import base list.

Local Open Scope Z_scope.

(** ** Fixed-width integers *)

Definition uint8_t (x : Z) : Z := x mod 2 ^ 8.
Definition uint16_t (x : Z) : Z := x mod 2 ^ 16.
Definition uint32_t (x : Z) : Z := x mod 2 ^ 32.
Definition size_t (x : Z) : Z := x mod 2 ^ 64.

(** ** Outcome of a call *)

Inductive outcome (A : Type) : Type :=
| Done (a : A)
| Undefined
| OutOfFuel.

Arguments Done {A} a.
Arguments Undefined {A}.
Arguments OutOfFuel {A}.

#[global] Instance outcome_ret : MRet outcome := fun A a => Done a.

#[global] Instance outcome_bind : MBind outcome := fun A B f m =>
  match m with
  | Done a => f a
  | Undefined => Undefined
  | OutOfFuel => OutOfFuel
  end.

(** ** The growable array ([varray.h], [varray.c])

    The header [varray_t] and the buffer that follows it.  A slot of the
    buffer is [None] until something has been stored in it.  [data] is
    the buffer as [malloc] or [realloc] returned it, so its length is the
    number of slots that really exist; [capacity] is what the header
    says. *)

Record varray_t (A : Type) : Type := Build_varray {
  capacity : Z;
  len : Z;
  data : list (option A)
}.

Arguments Build_varray {A} capacity len data.
Arguments capacity {A} v.
Arguments len {A} v.
Arguments data {A} v.

(** [sizeof( *( ptr ) )] as the macros of [varray.h] take it from the
    type of the elements: a [size_t] that is not 0. *)
Class Sizeof (A : Type) : Type := Build_Sizeof {
  sizeof : Z;
  sizeof_range : 0 < sizeof < 2 ^ 64
}.

Arguments sizeof A {_}.
Arguments sizeof_range A {_}.

(** [sizeof( varray_t )]: two [size_t], the flexible array member adds
    nothing. *)
Definition sizeof_varray_t : Z := 16.

Section VarrayDefs.
Context {A : Type} `{Sizeof A}.

(** The buffer [malloc( bytes )] or [realloc( va, bytes )] returns
    ([old] is empty for [malloc]): after the header, as many slots of
    [elem_size] bytes as fit in [bytes]; [realloc] keeps the slots of
    [old] that still fit.  [bytes] is the [size_t] the source computes,
    so a product that wrapped gives a buffer smaller than the capacity
    asked for.  When [bytes] does not even hold the header, the
    assignments to the header that follow lie outside the buffer. *)
Definition alloc (bytes elem_size : Z) (old : list (option A))
  : outcome (list (option A)) :=
  if bytes <? sizeof_varray_t then Undefined
  else Done (resize (Z.to_nat ((bytes - sizeof_varray_t) / elem_size)) None old).

Definition _varray_init (elem_size num_elems : Z) : outcome (varray_t A) :=
  let num_elems := if num_elems =? 0 then 1 else num_elems in
  data ← alloc (size_t (sizeof_varray_t + elem_size * num_elems)) elem_size [];
  Done (Build_varray num_elems 0 data).

Definition _varray_resize (va : varray_t A) (n elem_size : Z) : outcome (varray_t A) :=
  data ← alloc (size_t (sizeof_varray_t + n * elem_size)) elem_size (data va);
  Done (Build_varray n (len va) data).

Definition _va_double_size (va : varray_t A) : outcome (varray_t A) :=
  _varray_resize va (size_t (len va * 2)) (sizeof A).

Definition _resize_if_req (va : varray_t A) : outcome (varray_t A) :=
  if capacity va <=? len va then _va_double_size va else Done va.

(** [ptr[i]] as an rvalue and as the target of an assignment. *)
Definition va_get (va : varray_t A) (i : Z) : outcome A :=
  if (0 <=? i) && (i <? capacity va) then
    match data va !! Z.to_nat i with
    | Some (Some x) => Done x
    | _ => Undefined
    end
  else Undefined.

Definition va_set (va : varray_t A) (i : Z) (x : A) : outcome (varray_t A) :=
  if (0 <=? i) && (i <? capacity va) && (i <? Z.of_nat (length (data va))) then
    Done (Build_varray (capacity va) (len va) (<[Z.to_nat i := Some x]> (data va)))
  else Undefined.

(** [varray_init( ptr, n )] *)
Definition varray_init (n : Z) : outcome (varray_t A) :=
  _varray_init (sizeof A) n.

Definition varray_len (va : varray_t A) : Z := len va.
Definition varray_capacity (va : varray_t A) : Z := capacity va.

(** [varray_resize( ptr, n )] *)
Definition varray_resize (va : varray_t A) (n : Z) : outcome (varray_t A) :=
  _varray_resize va n (sizeof A).

(** [( _resize_if_req( ptr ), ( ptr )[varray_len( ptr )++] = elem )] *)
Definition varray_push (va : varray_t A) (elem : A) : outcome (varray_t A) :=
  va ← _resize_if_req va;
  va' ← va_set va (len va) elem;
  Done (Build_varray (capacity va') (size_t (len va' + 1)) (data va')).

(** [( ptr )[--varray_len( ptr )]] *)
Definition varray_pop (va : varray_t A) : outcome (A * varray_t A) :=
  let va' := Build_varray (capacity va) (size_t (len va - 1)) (data va) in
  x ← va_get va' (len va');
  Done (x, va').

(** [( ptr )[varray_len( ptr ) - 1]] *)
Definition varray_last (va : varray_t A) : outcome A :=
  va_get va (size_t (len va - 1)).

(** [varray_last( ptr ) = x], as in [CUR_ENTRY( z ).crc = ...]. *)
Definition varray_set_last (va : varray_t A) (x : A) : outcome (varray_t A) :=
  va_set va (size_t (len va - 1)) x.

(** The [while( required_cap < va->len + n )] loop of [_varray_append], one
    doubling per unit of fuel; [bound] is [va->len + n]. *)
Fixpoint required_cap_loop (fuel : nat) (required_cap bound : Z) : outcome Z :=
  if required_cap <? bound then
    match fuel with
    | O => OutOfFuel
    | S fuel => required_cap_loop fuel (size_t (required_cap * 2)) bound
    end
  else Done required_cap.

(** The elements stored one after the other in the slots from [i] on. *)
Fixpoint va_copy (va : varray_t A) (i : Z) (elems : list A) : outcome (varray_t A) :=
  match elems with
  | [] => Done va
  | x :: elems => va ← va_set va i x; va_copy va (i + 1) elems
  end.

(** [memcpy( va->data + offset, elems, bytes )], with [offset] and
    [bytes] the [size_t] products the source computes.  The model works
    in whole slots: it follows the copy when both are multiples of the
    element size (they are whenever neither product wrapped) and the
    input array holds the elements read; it has no result for a copy
    that is not aligned with the slots. *)
Definition memcpy_elems (va : varray_t A) (offset : Z) (elems : list A)
           (bytes elem_size : Z) : outcome (varray_t A) :=
  if (offset mod elem_size =? 0) && (bytes mod elem_size =? 0)
     && (bytes / elem_size <=? Z.of_nat (length elems)) then
    va_copy va (offset / elem_size) (take (Z.to_nat (bytes / elem_size)) elems)
  else Undefined.

(** [elems] is the input array, of which the call is told to append the
    first [n] elements. *)
Definition _varray_append (fuel : nat) (va : varray_t A) (elems : list A)
           (n elem_size : Z) : outcome (varray_t A) :=
  required_cap ← required_cap_loop fuel (capacity va) (size_t (len va + n));
  va ← (if capacity va <? required_cap then
          data ← alloc (size_t (sizeof_varray_t + required_cap * elem_size))
                       elem_size (data va);
          Done (Build_varray required_cap (len va) data)
        else Done va);
  va ← memcpy_elems va (size_t (elem_size * len va)) elems
                    (size_t (elem_size * n)) elem_size;
  Done (Build_varray (capacity va) (size_t (len va + n)) (data va)).

(** [varray_append( ptr, elems, n )] *)
Definition varray_append (fuel : nat) (va : varray_t A) (elems : list A) (n : Z)
  : outcome (varray_t A) :=
  _varray_append fuel va elems n (sizeof A).

(** The elements pushed one after the other, from the left. *)
Definition push_all (va : varray_t A) (xs : list A) : outcome (varray_t A) :=
  foldl (fun r x => va ← r; varray_push va x) (Done va) xs.

(** The elements of the array, slots [0 .. len-1]. *)
Definition elems (va : varray_t A) : list (option A) :=
  take (Z.to_nat (len va)) (data va).
End VarrayDefs.

(** ** External collaborators ([zlib.h] and the output callback)

    [z_stream] shows the two input fields the encoder assigns; the rest of
    the compressor lives in an opaque [zstate].  [deflate strm flush]
    returns zlib's return code, the bytes it stored in the output buffer
    (zlib stores at most [avail_out] of them) and the stream after the
    call.  [out_cb] is the user's callback of type [zip_out_cb_t] acting on
    the user's context. *)

Record z_stream (zstate : Type) : Type := Build_z_stream {
  avail_in : Z;
  next_in : list Z;
  state : zstate
}.

Arguments Build_z_stream {zstate} avail_in next_in state.
Arguments avail_in {zstate} _.
Arguments next_in {zstate} _.
Arguments state {zstate} _.

Class Collaborators : Type := {
  Ctx : Type;
  out_cb : Ctx -> list Z -> bool * Ctx;
  zstate : Type;
  deflateInit2 : z_stream zstate -> Z * z_stream zstate;
  deflateReset : z_stream zstate -> Z * z_stream zstate;
  deflate : z_stream zstate -> Z -> Z * list Z * z_stream zstate;
  crc32 : Z -> list Z -> Z
}.

Definition Z_OK : Z := 0.
Definition Z_NO_FLUSH : Z := 0.
Definition Z_FINISH : Z := 4.

(** ** Library definitions and data types ([zip.h]) *)

Definition ZIP_ENTRY_MAX_NAME_LEN : Z := 127.
Definition ZIP_INTERNAL_BUFFER_SIZE : Z := Z.shiftl 4 10.

Record zip_datetime : Type := Build_zip_datetime {
  year : Z;
  month : Z;
  day : Z;
  hours : Z;
  minutes : Z;
  seconds : Z
}.

(** [name] holds the characters of the array up to and including the
    terminating null character. *)
Record zip_entry_t : Type := Build_zip_entry {
  offset : Z;
  crc : Z;
  size : Z;
  size_compressed : Z;
  name : list Z;
  time : Z;
  date : Z
}.

(** [sizeof( zip_entry_t )]: four [uint32_t], the [char] array of the
    name and two [uint16_t]. *)
Definition sizeof_zip_entry_t : Z := 4 * 4 + (ZIP_ENTRY_MAX_NAME_LEN + 1) + 2 * 2.

#[global] Instance zip_entry_sizeof : Sizeof zip_entry_t :=
  Build_Sizeof zip_entry_t sizeof_zip_entry_t (conj eq_refl eq_refl).

Definition set_crc (e : zip_entry_t) (v : Z) : zip_entry_t :=
  Build_zip_entry (offset e) v (size e) (size_compressed e) (name e) (time e) (date e).
Definition set_size (e : zip_entry_t) (v : Z) : zip_entry_t :=
  Build_zip_entry (offset e) (crc e) v (size_compressed e) (name e) (time e) (date e).
Definition set_size_compressed (e : zip_entry_t) (v : Z) : zip_entry_t :=
  Build_zip_entry (offset e) (crc e) (size e) v (name e) (time e) (date e).

(** [strlen]: the characters before the first null character. *)
Fixpoint strlen (s : list Z) : Z :=
  match s with
  | [] => 0
  | c :: s' => if c =? 0 then 0 else 1 + strlen s'
  end.

(** MS-DOS time and date, with the [unsigned] and [uint16_t] arithmetic
    of the source. *)
Definition _get_dos_time (dt : zip_datetime) : Z :=
  let time := uint16_t (Z.land (seconds dt / 2) 0x1f) in
  let time := uint16_t (Z.lor time (uint32_t (Z.shiftl (Z.land (minutes dt) 0x3f) 5))) in
  let time := uint16_t (Z.lor time (uint32_t (Z.shiftl (Z.land (hours dt) 0x1f) 11))) in
  time.

Definition _get_dos_date (dt : zip_datetime) : Z :=
  let date := uint16_t (Z.land (day dt) 0x1f) in
  let date := uint16_t (Z.lor date (uint32_t (Z.shiftl (Z.land (month dt) 0x0f) 5))) in
  let date :=
    uint16_t (Z.lor date (uint32_t (Z.shiftl (Z.land (uint32_t (year dt - 1980)) 0x7f) 9))) in
  date.

(** One call of the output callback as the history records it: the bytes
    passed and whether the callback accepted them. *)
Definition sink_call : Type := list Z * bool.

(** The bytes the callback has accepted so far. *)
Definition accepted_bytes (log : list sink_call) : Z :=
  foldr (fun (c : sink_call) acc =>
           (if snd c then Z.of_nat (length (fst c)) else 0) + acc) 0 log.

Section ZipDefs.
Context `{Collaborators}.

(** The callback context together with the history of the calls made so
    far; the history is not in the C structure, it is what the properties
    of the bytes passed to the callback are stated on. *)
Record sink_t : Type := Build_sink {
  out_cb_ctx : Ctx;
  sink_log : list sink_call
}.

Record zip_t : Type := Build_zip {
  stream : z_stream zstate;
  out : sink_t;
  entries : varray_t zip_entry_t;
  bytes_written : Z;
  central_dir_offset : Z;
  entry_opened : bool
}.

Definition set_stream (z : zip_t) (v : z_stream zstate) : zip_t :=
  Build_zip v (out z) (entries z) (bytes_written z) (central_dir_offset z) (entry_opened z).
Definition set_out (z : zip_t) (v : sink_t) : zip_t :=
  Build_zip (stream z) v (entries z) (bytes_written z) (central_dir_offset z) (entry_opened z).
Definition set_entries (z : zip_t) (v : varray_t zip_entry_t) : zip_t :=
  Build_zip (stream z) (out z) v (bytes_written z) (central_dir_offset z) (entry_opened z).
Definition set_bytes_written (z : zip_t) (v : Z) : zip_t :=
  Build_zip (stream z) (out z) (entries z) v (central_dir_offset z) (entry_opened z).
Definition set_central_dir_offset (z : zip_t) (v : Z) : zip_t :=
  Build_zip (stream z) (out z) (entries z) (bytes_written z) v (entry_opened z).
Definition set_entry_opened (z : zip_t) (v : bool) : zip_t :=
  Build_zip (stream z) (out z) (entries z) (bytes_written z) (central_dir_offset z) v.

(** [out_cb( out_cb_ctx, data, data_len )] *)
Definition call_out_cb (s : sink_t) (d : list Z) : bool * sink_t :=
  let '(ok, c) := out_cb (out_cb_ctx s) d in
  (ok, Build_sink c (sink_log s ++ [(d, ok)])).

Definition _write16_le (s : sink_t) (input : Z) : bool * sink_t :=
  call_out_cb s [uint8_t input; uint8_t (Z.shiftr input 8)].

Definition _write32_le (s : sink_t) (input : Z) : bool * sink_t :=
  call_out_cb s [uint8_t input; uint8_t (Z.shiftr input 8);
                 uint8_t (Z.shiftr input 16); uint8_t (Z.shiftr input 24)].

Definition _write64_le (s : sink_t) (input : Z) : bool * sink_t :=
  call_out_cb s [uint8_t input; uint8_t (Z.shiftr input 8);
                 uint8_t (Z.shiftr input 16); uint8_t (Z.shiftr input 24);
                 uint8_t (Z.shiftr input 32); uint8_t (Z.shiftr input 40);
                 uint8_t (Z.shiftr input 48); uint8_t (Z.shiftr input 56)].

(** [_write_le]: the counter is advanced before the write is tried. *)
Definition _write_le (count : Z) (s : sink_t) (input : Z) (input_size : Z)
  : bool * Z * sink_t :=
  let count := size_t (count + input_size) in
  if input_size =? 2 then
    let '(ok, s) := _write16_le s (uint16_t input) in (ok, count, s)
  else if input_size =? 4 then
    let '(ok, s) := _write32_le s (uint32_t input) in (ok, count, s)
  else if input_size =? 8 then
    let '(ok, s) := _write64_le s (size_t input) in (ok, count, s)
  else (false, count, s).

(** [!WRITE_LE( &count, .., f1 ) || !WRITE_LE( &count, .., f2 ) || ...]:
    the fields, each with its [sizeof], are written from the left until
    one write fails.  The boolean is [true] when none failed. *)
Fixpoint write_fields (count : Z) (s : sink_t) (fields : list (Z * Z))
  : bool * Z * sink_t :=
  match fields with
  | [] => (true, count, s)
  | (n, sz) :: fields =>
    let '(ok, count, s) := _write_le count s n sz in
    if ok then write_fields count s fields else (false, count, s)
  end.

(** [_deflate]: the [do ... while( avail_out == 0 )] loop, one round per
    unit of fuel.  The output buffer is emptied before each call of
    [deflate], so [avail_out] after the call is the buffer size less the
    bytes zlib stored, and the callback is passed exactly those bytes. *)
Fixpoint _deflate_loop (fuel : nat) (z : zip_t) (flush : Z) : outcome (bool * zip_t) :=
  match fuel with
  | O => OutOfFuel
  | S fuel =>
    let '(ret, produced, strm) := deflate (stream z) flush in
    let avail_out := ZIP_INTERNAL_BUFFER_SIZE - Z.of_nat (length produced) in
    let z := set_stream z strm in
    if ret <? 0 then Done (false, z)
    else
      let out_size := ZIP_INTERNAL_BUFFER_SIZE - avail_out in
      let '(ok, s) := call_out_cb (out z) produced in
      let z := set_out z s in
      if negb ok then Done (false, z)
      else
        e ← varray_last (entries z);
        es ← varray_set_last (entries z)
               (set_size_compressed e (uint32_t (size_compressed e + out_size)));
        let z := set_entries z es in
        let z := set_bytes_written z (size_t (bytes_written z + out_size)) in
        if avail_out =? 0 then _deflate_loop fuel z flush else Done (true, z)
  end.

Definition _deflate (fuel : nat) (z : zip_t) (flush : Z) (data : list Z)
  : outcome (bool * zip_t) :=
  let data_len := Z.of_nat (length data) in
  e ← varray_last (entries z);
  es ← varray_set_last (entries z) (set_size e (uint32_t (size e + data_len)));
  let z := set_entries z es in
  let z := set_stream z (Build_z_stream (uint32_t data_len) data (state (stream z))) in
  _deflate_loop fuel z flush.

(** The fields of the central directory record of an entry, each with
    its [sizeof], in the order they are written. *)
Definition central_dir_fields (e : zip_entry_t) (entry_name_len : Z) : list (Z * Z) :=
  [ (0x02014b50, 4);                 (* signature *)
    (0, 2);                          (* made_by *)
    (20, 2);                         (* extract_version *)
    (Z.shiftl 1 3, 2);               (* flags *)
    (8, 2);                          (* method *)
    (time e, 2);                     (* modif_time *)
    (date e, 2);                     (* modif_date *)
    (crc e, 4);                      (* crc *)
    (size_compressed e, 4);          (* compressed_size *)
    (size e, 4);                     (* uncompressed_size *)
    (uint16_t entry_name_len, 2);    (* fname_length *)
    (0, 2);                          (* extra_field_length *)
    (0, 2);                          (* comment_length *)
    (0, 2);                          (* disk_num *)
    (0, 2);                          (* internal_attributes *)
    (0, 4);                          (* external_attributes *)
    (offset e, 4) ].                 (* local_header_offset *)

Definition _write_cd_file_header (z : zip_t) (entry_num : Z) : outcome (bool * zip_t) :=
  e ← va_get (entries z) entry_num;
  let entry_name_len := strlen (name e) in
  let '(ok, cd_bytes_written, s) :=
    write_fields 0 (out z) (central_dir_fields e entry_name_len) in
  let z := set_out z s in
  if negb ok then Done (false, z)
  else
    let '(ok, s) := call_out_cb (out z) (take (Z.to_nat entry_name_len) (name e)) in
    let z := set_out z s in
    if negb ok then Done (false, z)
    else
      let z := set_bytes_written z (size_t (bytes_written z + cd_bytes_written)) in
      let z := set_bytes_written z (size_t (bytes_written z + entry_name_len)) in
      Done (true, z).

Definition eocd_fields (z : zip_t) : list (Z * Z) :=
  [ (0x06054b50, 4);                                                (* signature *)
    (0, 2);                                                         (* disk_num *)
    (0, 2);                                                         (* start_disk_num *)
    (uint16_t (varray_len (entries z)), 2);                         (* num_entries_in_disk *)
    (uint16_t (varray_len (entries z)), 2);                         (* num_entries *)
    (uint32_t (size_t (bytes_written z - central_dir_offset z)), 4); (* central_dir_size *)
    (uint32_t (central_dir_offset z), 4);                           (* offset *)
    (0, 2) ].                                                       (* comment_length *)

(** [_write_eocd] counts into a local variable only. *)
Definition _write_eocd (z : zip_t) : bool * zip_t :=
  let '(ok, bytes_written, s) := write_fields 0 (out z) (eocd_fields z) in
  (ok, set_out z s).

(** [zip_init] for a callback that is not [NULL] (the model has no null
    callback); [strm] is the stream as it lies in the structure before the
    call. *)
Definition zip_init (strm : z_stream zstate) (out_cb_ctx : Ctx) : outcome (bool * zip_t) :=
  let strm := Build_z_stream (avail_in strm) [] (state strm) in
  es ← varray_init 1;
  let z := Build_zip strm (Build_sink out_cb_ctx []) es 0 0 false in
  let '(r, strm) := deflateInit2 (stream z) in
  Done (r =? Z_OK, set_stream z strm).

(** The [for] loop of [zip_end]: [n] headers remain, the next one is
    [i].  The body does not assign the array, so its length is read
    once. *)
Fixpoint zip_end_loop (n : nat) (i : Z) (z : zip_t) : outcome (bool * zip_t) :=
  match n with
  | O => Done (true, z)
  | S n =>
    '(ok, z) ← _write_cd_file_header z i;
    if negb ok then Done (false, z) else zip_end_loop n (size_t (i + 1)) z
  end.

Definition zip_end (z : zip_t) : outcome (bool * zip_t) :=
  if entry_opened z then Done (false, z)
  else
    let z := set_central_dir_offset z (bytes_written z) in
    '(ok, z) ← zip_end_loop (Z.to_nat (varray_len (entries z))) 0 z;
    if negb ok then Done (false, z) else Done (_write_eocd z).

(** The fields of the local file header, each with its [sizeof]. *)
Definition local_header_fields (entry : zip_entry_t) (entry_name_len : Z) : list (Z * Z) :=
  [ (0x04034b50, 4);                 (* signature *)
    (20, 2);                         (* extract_version *)
    (Z.shiftl 1 3, 2);               (* flags *)
    (8, 2);                          (* method *)
    (time entry, 2);                 (* modif_time *)
    (date entry, 2);                 (* modif_date *)
    (0, 4);                          (* crc *)
    (0, 4);                          (* compressed_size *)
    (0, 4);                          (* uncompressed_size *)
    (uint16_t entry_name_len, 2);    (* fname_length *)
    (0, 2) ].                        (* extra_field_length *)

Definition zip_entry_add (z : zip_t) (filename : list Z) (datetime : zip_datetime)
  : outcome (bool * zip_t) :=
  if entry_opened z then Done (false, z)
  else
    let entry_name_len := strlen filename in
    let entry_name_len :=
      if ZIP_ENTRY_MAX_NAME_LEN <? entry_name_len then ZIP_ENTRY_MAX_NAME_LEN
      else entry_name_len in
    let entry :=
      Build_zip_entry
        (uint32_t (bytes_written z))
        (uint32_t (crc32 0 []))
        0
        0
        (take (Z.to_nat entry_name_len) filename ++ [0])
        (_get_dos_time datetime)
        (_get_dos_date datetime) in
    let fname_length := uint16_t entry_name_len in
    let '(ok, bytes_written', s) :=
      write_fields 0 (out z) (local_header_fields entry entry_name_len) in
    let z := set_out z s in
    if negb ok then Done (false, z)
    else
      let '(ok, s) := call_out_cb (out z) (take (Z.to_nat fname_length) (name entry)) in
      let z := set_out z s in
      if negb ok then Done (false, z)
      else
        let z := set_entry_opened z true in
        es ← varray_push (entries z) entry;
        let z := set_entries z es in
        let z := set_bytes_written z
                   (size_t (bytes_written z + size_t (bytes_written' + fname_length))) in
        let '(r, strm) := deflateReset (stream z) in
        Done (r =? Z_OK, set_stream z strm).

Definition zip_entry_update (fuel : nat) (z : zip_t) (data : list Z)
  : outcome (bool * zip_t) :=
  let data_len := Z.of_nat (length data) in
  if negb (entry_opened z) then Done (false, z)
  else if data_len =? 0 then Done (true, z)
  else
    e ← varray_last (entries z);
    es ← varray_set_last (entries z)
           (set_crc e (uint32_t (crc32 (crc e) (take (Z.to_nat (uint32_t data_len)) data))));
    _deflate fuel (set_entries z es) Z_NO_FLUSH data.

Definition data_descriptor_fields (e : zip_entry_t) : list (Z * Z) :=
  [ (0x08074b50, 4);                 (* data_desc_signature *)
    (crc e, 4);
    (size_compressed e, 4);
    (size e, 4) ].

(** The writes of the descriptor do not assign the array, so
    [CUR_ENTRY( z )] is read once, after the flush. *)
Definition zip_entry_end (fuel : nat) (z : zip_t) : outcome (bool * zip_t) :=
  if negb (entry_opened z) then Done (true, z)
  else
    '(ok, z) ← _deflate fuel z Z_FINISH [];
    if negb ok then Done (false, z)
    else
      e ← varray_last (entries z);
      let '(ok, bytes_written', s) :=
        write_fields 0 (out z) (data_descriptor_fields e) in
      let z := set_out z s in
      if negb ok then Done (false, z)
      else
        let z := set_bytes_written z (size_t (bytes_written z + bytes_written')) in
        let z := set_entry_opened z false in
        Done (true, z).

Definition zip_get_num_entries (z : zip_t) : Z := varray_len (entries z).
End ZipDefs.

(** ** The array as the list of its elements

    [represents v xs]: the header is consistent with the buffer (the buffer
    has [capacity] slots, a positive number, [len] of them are in use, and
    its byte count fits a [size_t], as that of every buffer that exists)
    and the slots in use hold [xs], in order. *)
Definition represents {A : Type} `{Sizeof A} (v : varray_t A) (xs : list A) : Prop :=
  len v = Z.of_nat (length xs) /\
  1 <= capacity v < 2 ^ 64 /\
  len v <= capacity v /\
  Z.of_nat (length (data v)) = capacity v /\
  take (length xs) (data v) = Some <$> xs /\
  sizeof_varray_t + capacity v * sizeof A < 2 ^ 64.

(** The capacity of an array of [n] pushed elements that started with
    room for one: the least power of two that holds them. *)
Definition grown {A : Type} (v : varray_t A) (n : Z) : Prop :=
  exists j, 0 <= j /\ capacity v = 2 ^ j /\
            ((n = 0 /\ j = 0) \/ 2 ^ j < 2 * n <= 2 ^ (j + 1)).

(** Bits [p .. p+w-1] of [x], as a number. *)
Definition bit_field (x p w : Z) : Z := Z.shiftr x p mod 2 ^ w.

(** ** Records on the wire

    The little-endian bytes of a field and the chunks the callback is
    passed for a list of fields, stated independently of the writers. *)
Fixpoint le_split (k : nat) (n : Z) : list Z :=
  match k with
  | O => []
  | S k => n mod 256 :: le_split k (n / 256)
  end.

Definition le_bytes (n sz : Z) : list Z :=
  le_split (Z.to_nat sz) (n mod 2 ^ (8 * sz)).

Definition field_chunks (fields : list (Z * Z)) : list (list Z) :=
  (fun f : Z * Z => le_bytes (fst f) (snd f)) <$> fields.

Definition fields_size (fields : list (Z * Z)) : Z :=
  foldr (fun (f : Z * Z) acc => snd f + acc) 0 fields.

Definition le_sizes (fields : list (Z * Z)) : Prop :=
  Forall (fun f : Z * Z => snd f = 2 \/ snd f = 4 \/ snd f = 8) fields.

(** The history entries of chunks that were all accepted. *)
Definition accepted (chunks : list (list Z)) : list sink_call :=
  (fun d => (d, true)) <$> chunks.

Section SinkDefs.
Context `{Collaborators}.

(** The chunks passed to the callback one after the other, until one is
    rejected. *)
Fixpoint sink_write_all (s : sink_t) (chunks : list (list Z)) : bool * sink_t :=
  match chunks with
  | [] => (true, s)
  | d :: chunks =>
    let '(ok, s) := call_out_cb s d in
    if ok then sink_write_all s chunks else (false, s)
  end.

(** The callback accepts these chunks, passed in this order from [s]. *)
Definition accepts (s : sink_t) (chunks : list (list Z)) : Prop :=
  fst (sink_write_all s chunks) = true.
End SinkDefs.

(** ** Entries and records as the specification describes them *)

Section RecordDefs.
Context `{Collaborators}.

(** The length a name is stored with. *)
Definition stored_name_len (filename : list Z) : Z :=
  Z.min (strlen filename) ZIP_ENTRY_MAX_NAME_LEN.

(** The entry record of a freshly opened entry. *)
Definition opened_entry (bytes_written : Z) (filename : list Z) (datetime : zip_datetime)
  : zip_entry_t :=
  Build_zip_entry (uint32_t bytes_written) (uint32_t (crc32 0 [])) 0 0
                  (take (Z.to_nat (stored_name_len filename)) filename ++ [0])
                  (_get_dos_time datetime) (_get_dos_date datetime).

(** Local file header: the eleven fields, then the name bytes. *)
Definition local_header_record (filename : list Z) (datetime : zip_datetime)
  : list (list Z) :=
  [ le_bytes 0x04034b50 4; le_bytes 20 2; le_bytes 8 2; le_bytes 8 2;
    le_bytes (_get_dos_time datetime) 2; le_bytes (_get_dos_date datetime) 2;
    le_bytes 0 4; le_bytes 0 4; le_bytes 0 4;
    le_bytes (stored_name_len filename) 2; le_bytes 0 2;
    take (Z.to_nat (stored_name_len filename)) filename ].

(** Data descriptor. *)
Definition data_descriptor_record (e : zip_entry_t) : list (list Z) :=
  [ le_bytes 0x08074b50 4; le_bytes (crc e) 4;
    le_bytes (size_compressed e) 4; le_bytes (size e) 4 ].

(** Central directory record: the seventeen fields, then the name bytes. *)
Definition central_dir_record (e : zip_entry_t) : list (list Z) :=
  [ le_bytes 0x02014b50 4; le_bytes 0 2; le_bytes 20 2; le_bytes 8 2; le_bytes 8 2;
    le_bytes (time e) 2; le_bytes (date e) 2;
    le_bytes (crc e) 4; le_bytes (size_compressed e) 4; le_bytes (size e) 4;
    le_bytes (strlen (name e)) 2; le_bytes 0 2; le_bytes 0 2; le_bytes 0 2;
    le_bytes 0 2; le_bytes 0 4; le_bytes (offset e) 4;
    take (Z.to_nat (strlen (name e))) (name e) ].

(** End of central directory record for [n] entries and a central
    directory of [cd_size] bytes at [cd_offset]. *)
Definition eocd_record (n cd_size cd_offset : Z) : list (list Z) :=
  [ le_bytes 0x06054b50 4; le_bytes 0 2; le_bytes 0 2;
    le_bytes n 2; le_bytes n 2;
    le_bytes cd_size 4; le_bytes cd_offset 4; le_bytes 0 2 ].

(** The size in bytes of a list of chunks. *)
Definition chunks_size (chunks : list (list Z)) : Z :=
  accepted_bytes (accepted chunks).
End RecordDefs.

(** The fields of an entry that are set when it is opened. *)
Definition same_header (e e' : zip_entry_t) : Prop :=
  offset e' = offset e /\ name e' = name e /\ time e' = time e /\ date e' = date e.

(** ** Complete entry cycles

    One archive member: the name and datetime it is opened with and the
    chunks of data fed to it before it is closed. *)
Record cycle : Type := Build_cycle {
  cycle_name : list Z;
  cycle_datetime : zip_datetime;
  cycle_chunks : list (list Z)
}.

Section CycleDefs.
Context `{Collaborators}.

(** [zip_entry_update] on each chunk in turn, as long as it succeeds. *)
Fixpoint feed (fuel : nat) (z : zip_t) (chunks : list (list Z)) : outcome (bool * zip_t) :=
  match chunks with
  | [] => Done (true, z)
  | d :: chunks =>
    '(ok, z) ← zip_entry_update fuel z d;
    if negb ok then Done (false, z) else feed fuel z chunks
  end.

(** [zip_entry_add], the updates, [zip_entry_end]. *)
Definition run_cycle (fuel : nat) (z : zip_t) (c : cycle) : outcome (bool * zip_t) :=
  '(ok, z) ← zip_entry_add z (cycle_name c) (cycle_datetime c);
  if negb ok then Done (false, z)
  else
    '(ok, z) ← feed fuel z (cycle_chunks c);
    if negb ok then Done (false, z) else zip_entry_end fuel z.

(** The cycles one after the other, as long as they succeed; next to the
    encoder, the values of [bytes_written] at the moments an entry was
    opened. *)
Fixpoint run_cycles (fuel : nat) (z : zip_t) (cs : list cycle)
  : outcome (bool * zip_t * list Z) :=
  match cs with
  | [] => Done (true, z, [])
  | c :: cs =>
    '(ok, z') ← run_cycle fuel z c;
    if negb ok then Done (false, z', [bytes_written z])
    else
      '(ok, z'', starts) ← run_cycles fuel z' cs;
      Done (ok, z'', bytes_written z :: starts)
  end.

(** An encoder between two entries: the entry list holds [es], no entry
    is open, and [bytes_written] is a [size_t]. *)
Definition idle_with (z : zip_t) (es : list zip_entry_t) : Prop :=
  represents (entries z) es /\ entry_opened z = false /\
  size_t (bytes_written z) = bytes_written z.
End CycleDefs.

(** ** A small instance of the collaborators

    A callback that follows a script of answers and accepts every call once
    the script is used up, and a stand-in for zlib that stores its input
    as it is (the inputs used below fit in one buffer) and takes the
    exclusive or of the bytes for a checksum; the state of the stand-in is
    the pair of the code [deflateReset] returns and the code [deflate]
    returns. *)
Module Demo.
Definition demo_out_cb (c : list bool) (d : list Z) : bool * list bool :=
  match c with
  | [] => (true, [])
  | b :: c' => (b, c')
  end.

Definition demo_deflate (strm : z_stream (Z * Z)) (flush : Z)
  : Z * list Z * z_stream (Z * Z) :=
  if snd (state strm) <? 0 then (snd (state strm), [], strm)
  else (snd (state strm), next_in strm, Build_z_stream 0 [] (state strm)).

Definition demo_crc32 (c : Z) (d : list Z) : Z := foldr Z.lxor c d.

Definition demo : Collaborators :=
  {| Ctx := list bool;
     out_cb := demo_out_cb;
     zstate := Z * Z;
     deflateInit2 := fun strm => (Z_OK, strm);
     deflateReset := fun strm => (fst (state strm), strm);
     deflate := demo_deflate;
     crc32 := demo_crc32 |}.

Definition zip_of (r : outcome (bool * @zip_t demo)) (z0 : @zip_t demo) : @zip_t demo :=
  match r with
  | Done (_, z) => z
  | _ => z0
  end.

Definition dt0 : zip_datetime := Build_zip_datetime 2024 1 15 10 30 0.

(** Arrays of [int] for the examples of the growable array. *)
#[global] Instance int_sizeof : Sizeof Z := Build_Sizeof Z 4 (conj eq_refl eq_refl).

(** An encoder just initialised, with the script [script] for the
    callback and the codes [codes] for the stand-in. *)
Definition idle (script : list bool) (codes : Z * Z) : @zip_t demo :=
  zip_of (@zip_init demo (Build_z_stream 0 [] codes) script)
         (@Build_zip demo (Build_z_stream 0 [] codes) (@Build_sink demo script [])
                     (Build_varray 1 0 [None]) 0 0 false).

(** The same encoder after the entry "a.txt" was opened. *)
Definition opened (script : list bool) (codes : Z * Z) : @zip_t demo :=
  zip_of (@zip_entry_add demo (idle script codes) [97; 46; 116; 120; 116] dt0)
         (idle script codes).

(** ... and after the bytes of "hello" were fed to it. *)
Definition fed (script : list bool) (codes : Z * Z) : @zip_t demo :=
  zip_of (@zip_entry_update demo 2 (opened script codes) [104; 101; 108; 108; 111])
         (opened script codes).

(** The encoder as the flush of [zip_entry_end] leaves it. *)
Definition flushed_from (z : @zip_t demo) : @zip_t demo :=
  zip_of (@_deflate demo 2 z Z_FINISH []) z.

Definition flushed (script : list bool) (codes : Z * Z) : @zip_t demo :=
  flushed_from (fed script codes).

(** ... and after the entry was closed. *)
Definition closed (script : list bool) (codes : Z * Z) : @zip_t demo :=
  zip_of (@zip_entry_end demo 2 (fed script codes)) (fed script codes).

(** ... and after its central directory record was written. *)
Definition listed (script : list bool) (codes : Z * Z) : @zip_t demo :=
  zip_of (@_write_cd_file_header demo (closed script codes) 0) (closed script codes).




(** The two members of the scenario of the specification. *)
Definition two_files : list cycle :=
  [ Build_cycle [97; 46; 116; 120; 116] dt0 [[104; 101; 108; 108; 111]];
    Build_cycle [98; 46; 116; 120; 116] dt0 [[119; 111; 114; 108; 100; 33]] ].

(** The encoder after both members were written. *)
Definition archive (script : list bool) (codes : Z * Z) : @zip_t demo :=
  zip_of (z ← @run_cycles demo 2 (idle script codes) two_files; Done (fst z))
         (idle script codes).
End Demo.

(** ** The current datetime ([zip_get_datetime])

    [struct tm] with the fields the function reads; [localtime] is what
    [localtime( &current_time )] returned, [None] for [NULL].  The sums
    are [int] sums, which have no defined result above [INT_MAX]. *)
Record tm : Type := Build_tm {
  tm_sec : Z;
  tm_min : Z;
  tm_hour : Z;
  tm_mday : Z;
  tm_mon : Z;
  tm_year : Z
}.

Definition INT_MAX : Z := 2 ^ 31 - 1.

Definition zip_get_datetime (localtime : option tm) : outcome zip_datetime :=
  match localtime with
  | None => Done (Build_zip_datetime 2000 1 1 0 0 0)
  | Some tm =>
    if (tm_year tm + 1900 <=? INT_MAX) && (tm_mon tm + 1 <=? INT_MAX) then
      Done (Build_zip_datetime
              (uint32_t (tm_year tm + 1900))
              (uint32_t (tm_mon tm + 1))
              (uint32_t (tm_mday tm))
              (uint32_t (tm_hour tm))
              (uint32_t (tm_min tm))
              (uint32_t (tm_sec tm)))
    else Undefined
  end.

(** ** Notions the further properties are stated with *)

(** The number a list of bytes stands for, least significant byte first. *)
Fixpoint le_combine (bs : list Z) : Z :=
  match bs with
  | [] => 0
  | b :: bs => b + 256 * le_combine bs
  end.

(** Datetimes whose fields fit the fields of the MS-DOS formats. *)
Definition dos_range (dt : zip_datetime) : Prop :=
  1980 <= year dt <= 2107 /\ 0 <= month dt <= 15 /\ 0 <= day dt <= 31 /\
  0 <= hours dt <= 31 /\ 0 <= minutes dt <= 63 /\ 0 <= seconds dt <= 63.

(** The bytes the callback has accepted, in the order it was passed them:
    the archive as written so far. *)
Definition stream_bytes (log : list sink_call) : list Z :=
  foldr (fun (c : sink_call) acc => if snd c then fst c ++ acc else acc) [] log.

(** Calls made during one operation that returned [ok]: accepted calls,
    then at most one rejected call, and none rejected when [ok] is true. *)
Definition stops_at_rejection (ok : bool) (new : list sink_call) : Prop :=
  exists chunks tail,
    new = accepted chunks ++ tail /\
    (tail = [] \/ exists d, tail = [(d, false)]) /\
    (ok = true -> tail = []).

(** The number of bytes fed in the chunks of an entry. *)
Definition fed_size (chunks : list (list Z)) : Z :=
  foldr (fun (d : list Z) acc => Z.of_nat (length d) + acc) 0 chunks.

Section CycleMoreDefs.
Context `{Collaborators}.


(** The running CRC of [zip_entry_update] over the chunks of an entry,
    from the value [c]. *)
Definition fed_crc (c : Z) (chunks : list (list Z)) : Z :=
  foldl (fun c (d : list Z) =>
           if Z.of_nat (length d) =? 0 then c
           else uint32_t (crc32 c (take (Z.to_nat (uint32_t (Z.of_nat (length d)))) d)))
        c chunks.

(** An encoder whose counter is the number of bytes the callback has
    accepted, as a [size_t]. *)
Definition all_counted (z : zip_t) : Prop :=
  bytes_written z = size_t (accepted_bytes (sink_log (out z))).

(** The bytes the entries take in the central directory. *)
Definition central_dir_size (es : list zip_entry_t) : Z :=
  foldr (fun (e : zip_entry_t) acc => 46 + strlen (name e) + acc) 0 es.
End CycleMoreDefs.

(** * Properties *)

Section OutcomeFacts.
Lemma outcome_bind_Done {A B : Type} (m : outcome A) (f : A -> outcome B) (b : B) :
  (m ≫= f) = Done b -> exists a, m = Done a /\ f a = Done b.
Proof. destruct m as [a| |]; cbn; try discriminate. eauto. Qed.

Lemma size_t_small (n : Z) : 0 <= n < 2 ^ 64 -> size_t n = n.
Proof. intros. unfold size_t. now apply Z.mod_small. Qed.

Lemma size_t_range (n : Z) : 0 <= size_t n < 2 ^ 64.
Proof. unfold size_t. apply Z.mod_pos_bound. lia. Qed.

(** A [size_t] sum that wrapped once. *)
Lemma size_t_wrapped (n : Z) : 2 ^ 64 <= n < 2 * 2 ^ 64 -> size_t n = n - 2 ^ 64.
Proof. intros Hn. unfold size_t. symmetry. apply (Z.mod_unique _ _ 1); lia. Qed.
End OutcomeFacts.

Section VarrayFacts.
Context {A : Type} `{Sizeof A}.
Implicit Types (v : varray_t A) (xs : list A) (x : A).

(** A request whose byte count did not wrap gives the slots asked for. *)
Lemma alloc_exact (n es : Z) (old : list (option A)) :
  0 < es -> 0 <= n -> sizeof_varray_t + n * es < 2 ^ 64 ->
  alloc (size_t (sizeof_varray_t + n * es)) es old = Done (resize (Z.to_nat n) None old).
Proof.
  intros Hes Hn Hfit. unfold alloc, sizeof_varray_t in *.
  rewrite size_t_small by nia.
  destruct (Z.ltb_spec (16 + n * es) 16); [nia|].
  replace (16 + n * es - 16) with (n * es) by lia. now rewrite Z.div_mul by lia.
Qed.

(** The slots of a buffer fit in the bytes it was given. *)
Lemma alloc_inv (bytes es : Z) (old d : list (option A)) :
  0 < es -> alloc bytes es old = Done d ->
  sizeof_varray_t <= bytes /\
  Z.of_nat (length d) * es <= bytes - sizeof_varray_t /\
  d = resize (length d) None old.
Proof.
  intros Hes. unfold alloc. destruct (Z.ltb_spec bytes sizeof_varray_t); [discriminate|].
  intros [= <-]. rewrite length_resize. split; [assumption|]. split; [|reflexivity].
  rewrite Z2Nat.id by (apply Z.div_pos; lia).
  rewrite Z.mul_comm. apply Z.mul_div_le. lia.
Qed.

Lemma varray_init_represents (n : Z) :
  1 <= n -> sizeof_varray_t + n * sizeof A < 2 ^ 64 ->
  exists v, varray_init n = Done v /\ represents v [] /\ capacity v = n.
Proof.
  intros Hn Hfit. pose proof (sizeof_range A) as Hs.
  unfold varray_init, _varray_init.
  destruct (Z.eqb_spec n 0) as [->|_]; [lia|].
  rewrite (Z.mul_comm (sizeof A) n), alloc_exact by lia. cbn [mbind outcome_bind].
  eexists. split; [reflexivity|]. split; [|reflexivity].
  unfold represents. cbn [capacity len data length].
  rewrite length_resize, Z2Nat.id by lia.
  assert (n < 2 ^ 64) by (unfold sizeof_varray_t in Hfit; nia).
  split; [reflexivity|]. split; [lia|]. split; [lia|]. split; [reflexivity|].
  split; [apply take_0|assumption].
Qed.

(** [varray_init( ptr, 1 )] returns only when it got room for the one
    element. *)
Lemma varray_init_1_inv v :
  varray_init 1 = Done v -> represents v [] /\ capacity v = 1.
Proof.
  pose proof (sizeof_range A) as Hs. intros Hinit.
  destruct (Z_lt_ge_dec (sizeof_varray_t + 1 * sizeof A) (2 ^ 64)) as [Hfit|Hwrap].
  - destruct (varray_init_represents 1) as (v' & Hv' & Hr & Hc); [lia|assumption|].
    rewrite Hv' in Hinit. injection Hinit as <-. auto.
  - exfalso. unfold varray_init, _varray_init in Hinit.
    change (1 =? 0) with false in Hinit. cbv beta iota in Hinit.
    apply outcome_bind_Done in Hinit as (d & Hal & _).
    apply alloc_inv in Hal as (Hb & _); [|lia].
    unfold sizeof_varray_t in *. rewrite size_t_wrapped in Hb by lia. lia.
Qed.

Lemma represents_elems v xs : represents v xs -> elems v = Some <$> xs.
Proof.
  intros (Hl & _ & _ & _ & Ht & _). unfold elems. now rewrite Hl, Nat2Z.id.
Qed.

Lemma represents_inj v xs ys : represents v xs -> represents v ys -> xs = ys.
Proof.
  intros Hx Hy. apply represents_elems in Hx, Hy. rewrite Hx in Hy.
  now apply (inj (fmap Some)) in Hy.
Qed.

Lemma va_get_represents v xs (i : nat) x :
  represents v xs -> xs !! i = Some x -> va_get v (Z.of_nat i) = Done x.
Proof.
  intros (Hl & Hc & Hle & Hd & Ht & _) Hi.
  assert (Hlt : (i < length xs)%nat) by (eapply lookup_lt_Some; eauto).
  unfold va_get.
  replace ((0 <=? Z.of_nat i) && (Z.of_nat i <? capacity v)) with true
    by (symmetry; apply andb_true_iff; split; [apply Z.leb_le|apply Z.ltb_lt]; lia).
  rewrite Nat2Z.id.
  assert (E : take (length xs) (data v) !! i = Some (Some x))
    by (rewrite Ht, list_lookup_fmap, Hi; reflexivity).
  rewrite lookup_take_lt in E by lia. now rewrite E.
Qed.
End VarrayFacts.

Section VarrayOps.
Context {A : Type} `{Sizeof A}.
Implicit Types (v : varray_t A) (xs : list A) (x : A).

Lemma take_insert_snoc (l ys : list (option A)) (n : nat) (y : option A) :
  take n l = ys -> (n < length l)%nat -> take (S n) (<[n := y]> l) = ys ++ [y].
Proof.
  intros <- Hn.
  rewrite (take_S_r _ _ y) by (now apply list_lookup_insert_eq).
  now rewrite take_insert_ge by lia.
Qed.

Lemma take_insert_last (l ys : list (option A)) (n : nat) (y y' : option A) :
  take (S n) l = ys ++ [y] -> length ys = n -> (n < length l)%nat ->
  take (S n) (<[n := y']> l) = ys ++ [y'].
Proof.
  intros Ht Hy Hn. apply take_insert_snoc; [|assumption].
  assert (E : take n (take (S n) l) = take n (ys ++ [y])) by now rewrite Ht.
  rewrite take_take, Nat.min_l in E by lia. rewrite E.
  rewrite <- Hy. apply take_app_length.
Qed.

Lemma va_set_inv v i x v' :
  va_set v i x = Done v' ->
  0 <= i < capacity v /\ i < Z.of_nat (length (data v)) /\
  v' = Build_varray (capacity v) (len v) (<[Z.to_nat i := Some x]> (data v)).
Proof.
  unfold va_set. destruct (_ && _) eqn:E; [|discriminate].
  apply andb_true_iff in E as [E E3]. apply andb_true_iff in E as [E1 E2].
  apply Z.leb_le in E1. apply Z.ltb_lt in E2, E3. intros [= <-]. auto.
Qed.

Lemma va_set_Done v i x :
  0 <= i < capacity v -> i < Z.of_nat (length (data v)) ->
  va_set v i x = Done (Build_varray (capacity v) (len v) (<[Z.to_nat i := Some x]> (data v))).
Proof.
  intros [H1 H2] H3. unfold va_set.
  apply Z.leb_le in H1. apply Z.ltb_lt in H2, H3. now rewrite H1, H2, H3.
Qed.

(** Doubling a full array: when the byte count of the doubled buffer fits
    a [size_t], the buffer has twice the slots and keeps the elements. *)
Lemma _va_double_size_fits v xs :
  represents v xs -> capacity v <= len v ->
  sizeof_varray_t + 2 * len v * sizeof A < 2 ^ 64 ->
  _va_double_size v
  = Done (Build_varray (2 * len v) (len v) (resize (Z.to_nat (2 * len v)) None (data v))).
Proof.
  intros (Hl & Hc & Hle & Hd & Ht & Ha) Hfull Hfit. pose proof (sizeof_range A) as Hs.
  unfold _va_double_size, _varray_resize.
  assert (Hlen : 2 * len v < 2 ^ 64) by (unfold sizeof_varray_t in Hfit; nia).
  rewrite size_t_small by lia. replace (len v * 2) with (2 * len v) by lia.
  rewrite alloc_exact by lia. reflexivity.
Qed.

(** Doubling a full array returns an array that has room for one more
    element only when the byte count of the doubled buffer did not wrap. *)
Lemma _va_double_size_room v xs w :
  represents v xs -> capacity v <= len v ->
  _va_double_size v = Done w ->
  len v < capacity w -> len v < Z.of_nat (length (data w)) ->
  sizeof_varray_t + 2 * len v * sizeof A < 2 ^ 64.
Proof.
  intros (Hl & Hc & Hle & Hd & Ht & Ha) Hfull Hdbl Hcap Hslots.
  pose proof (sizeof_range A) as Hs.
  assert (Heq : capacity v = len v) by lia. rewrite Heq in Ha.
  unfold _va_double_size, _varray_resize in Hdbl.
  apply outcome_bind_Done in Hdbl as (d & Hal & Hw). injection Hw as <-.
  cbn [capacity data] in Hcap, Hslots.
  assert (Hdbl : size_t (len v * 2) = len v * 2).
  { destruct (Z_lt_ge_dec (len v * 2) (2 ^ 64)) as [Hsmall|Hbig].
    - apply size_t_small. lia.
    - rewrite size_t_wrapped in Hcap by lia. lia. }
  rewrite Hdbl in Hal.
  apply alloc_inv in Hal as (Hb & Hfit & _); [|lia].
  unfold sizeof_varray_t in *.
  destruct (Z_lt_ge_dec (16 + len v * 2 * sizeof A) (2 ^ 64)) as [Hok|Hwrap]; [lia|].
  exfalso. rewrite size_t_wrapped in Hfit by nia. nia.
Qed.

(** A push that returns stores the element after the ones present, and
    leaves the capacity as it was or twice as large. *)
Lemma varray_push_represents v xs x v' :
  represents v xs -> varray_push v x = Done v' ->
  represents v' (xs ++ [x]) /\
  (capacity v' = capacity v \/ (capacity v = len v /\ capacity v' = 2 * capacity v)).
Proof.
  intros Hr Hpush. pose proof Hr as (Hl & Hc & Hle & Hd & Ht & Ha).
  pose proof (sizeof_range A) as Hs.
  unfold varray_push, _resize_if_req in Hpush.
  apply outcome_bind_Done in Hpush as (w & Hres & Hpush).
  apply outcome_bind_Done in Hpush as (w' & Hset & Hpush). injection Hpush as <-.
  destruct (Z.leb_spec (capacity v) (len v)) as [Hfull|Hfree].
  - assert (Heq : len v = capacity v) by lia.
    assert (Hlw : len w = len v).
    { unfold _va_double_size, _varray_resize in Hres.
      apply outcome_bind_Done in Hres as (d & _ & Hw). now injection Hw as <-. }
    rewrite Hlw in Hset. pose proof Hset as Hset'.
    apply va_set_inv in Hset' as (Hi & Hi' & _).
    pose proof (_va_double_size_room v xs w Hr Hfull Hres (proj2 Hi) Hi') as Hfit.
    rewrite (_va_double_size_fits v xs Hr Hfull Hfit) in Hres. injection Hres as <-.
    apply va_set_inv in Hset as (_ & _ & ->). cbn [capacity len data] in *.
    split; [|right; lia].
    unfold represents. cbn [capacity len data].
    rewrite length_app, length_insert, length_resize. cbn [length].
    assert (Hlen : 2 * len v < 2 ^ 64) by (unfold sizeof_varray_t in Hfit; nia).
    rewrite size_t_small by lia.
    split; [lia|]. split; [lia|]. split; [lia|]. split; [lia|]. split; [|lia].
    replace (length xs + 1)%nat with (S (length xs)) by lia.
    rewrite fmap_app. cbn [fmap list_fmap].
    replace (Z.to_nat (len v)) with (length xs) by lia.
    apply take_insert_snoc.
    + rewrite take_resize, Nat.min_l by lia. rewrite resize_le by lia. exact Ht.
    + rewrite length_resize. lia.
  - injection Hres as <-. apply va_set_inv in Hset as (Hi & Hi' & ->).
    cbn [capacity len data] in *. split; [|left; reflexivity].
    unfold represents. cbn [capacity len data].
    rewrite length_app, length_insert. cbn [length].
    rewrite size_t_small by lia.
    split; [lia|]. split; [lia|]. split; [lia|]. split; [lia|]. split; [|lia].
    replace (length xs + 1)%nat with (S (length xs)) by lia.
    rewrite fmap_app. cbn [fmap list_fmap].
    replace (Z.to_nat (len v)) with (length xs) by lia.
    apply take_insert_snoc; [exact Ht|lia].
Qed.

(** A push returns as long as the byte count of the doubled buffer fits a
    [size_t]. *)
Lemma varray_push_Done v xs x :
  represents v xs -> sizeof_varray_t + 2 * len v * sizeof A < 2 ^ 64 ->
  exists v', varray_push v x = Done v'.
Proof.
  intros Hr Hfit. pose proof Hr as (Hl & Hc & Hle & Hd & Ht & Ha).
  unfold varray_push, _resize_if_req.
  destruct (Z.leb_spec (capacity v) (len v)) as [Hfull|Hfree].
  - rewrite (_va_double_size_fits v xs Hr Hfull Hfit). cbn [mbind outcome_bind len].
    rewrite va_set_Done; cbn [capacity len data]; [cbn; eauto|..];
      rewrite ?length_resize; lia.
  - cbn [mbind outcome_bind]. rewrite va_set_Done by lia. cbn. eauto.
Qed.

Lemma varray_push_room v xs x :
  represents v xs -> len v < capacity v ->
  exists v', varray_push v x = Done v' /\ capacity v' = capacity v.
Proof.
  intros (Hl & Hc & Hle & Hd & Ht & Ha) Hroom. unfold varray_push, _resize_if_req.
  destruct (Z.leb_spec (capacity v) (len v)) as [Hfull|Hfree]; [lia|].
  cbn [mbind outcome_bind]. rewrite va_set_Done by lia. cbn. eauto.
Qed.

Lemma varray_last_represents v xs x :
  represents v (xs ++ [x]) -> varray_last v = Done x.
Proof.
  intros Hr. pose proof Hr as (Hl & Hc & Hle & Hd & Ht & _).
  rewrite length_app in Hl. cbn [length] in Hl. unfold varray_last.
  rewrite size_t_small by lia.
  replace (len v - 1) with (Z.of_nat (length xs)) by lia.
  eapply va_get_represents; [exact Hr|].
  now rewrite lookup_app_r, Nat.sub_diag by lia.
Qed.

Lemma varray_set_last_represents v xs x y :
  represents v (xs ++ [x]) ->
  exists v', varray_set_last v y = Done v' /\ represents v' (xs ++ [y]) /\
             capacity v' = capacity v /\ len v' = len v.
Proof.
  intros (Hl & Hc & Hle & Hd & Ht & Ha).
  rewrite length_app in Hl, Ht. cbn [length] in Hl, Ht.
  unfold varray_set_last. rewrite size_t_small by lia.
  rewrite va_set_Done by lia. eexists; split; [reflexivity|].
  split; [|split; reflexivity].
  unfold represents. cbn [capacity len data].
  rewrite length_app, length_insert. cbn [length].
  split; [lia|]. split; [lia|]. split; [lia|]. split; [lia|]. split; [|lia].
  replace (Z.to_nat (len v - 1)) with (length xs) by lia.
  replace (length xs + 1)%nat with (S (length xs)) in * by lia.
  rewrite fmap_app in *. cbn [fmap list_fmap] in *.
  eapply take_insert_last; [exact Ht|now rewrite length_fmap|lia].
Qed.

(** Popping a non-empty array returns its last element and takes one off
    the length. *)
Lemma varray_pop_represents v xs x :
  represents v (xs ++ [x]) ->
  exists v', varray_pop v = Done (x, v') /\ represents v' xs /\
             len v' = len v - 1 /\ capacity v' = capacity v.
Proof.
  intros Hr. pose proof Hr as (Hl & Hc & Hle & Hd & Ht & Ha).
  rewrite length_app in Hl, Ht. cbn [length] in Hl, Ht.
  unfold varray_pop. cbn [len]. rewrite size_t_small by lia.
  set (v' := Build_varray (capacity v) (len v - 1) (data v)).
  assert (Hget : va_get v' (len v - 1) = Done x).
  { replace (len v - 1) with (Z.of_nat (length xs)) by lia.
    change (va_get v' (Z.of_nat (length xs))) with (va_get v (Z.of_nat (length xs))).
    eapply va_get_represents; [exact Hr|].
    now rewrite lookup_app_r, Nat.sub_diag by lia. }
  rewrite Hget. cbn. exists v'. split; [reflexivity|].
  split; [|split; reflexivity].
  subst v'. unfold represents. cbn [capacity len data].
  split; [lia|]. split; [lia|]. split; [lia|]. split; [lia|]. split; [|lia].
  assert (E : take (length xs) (take (length xs + 1) (data v))
              = take (length xs) (Some <$> xs ++ [x])) by now rewrite Ht.
  rewrite take_take, Nat.min_l in E by lia. rewrite E, fmap_app.
  rewrite <- (length_fmap Some xs) at 1. apply take_app_length.
Qed.
End VarrayOps.

Section VarrayGrowth.
Context {A : Type} `{Sizeof A}.
Implicit Types (v : varray_t A) (xs : list A) (x : A).

Lemma pow2_succ (j : Z) : 0 <= j -> 2 ^ (j + 1) = 2 * 2 ^ j.
Proof. intros. rewrite Z.pow_add_r by lia. change (2 ^ 1) with 2. lia. Qed.

Lemma push_all_snoc v xs x :
  push_all v (xs ++ [x]) = (w ← push_all v xs; varray_push w x).
Proof. unfold push_all. now rewrite foldl_app. Qed.

Lemma push_all_snoc_inv v xs x v' :
  push_all v (xs ++ [x]) = Done v' ->
  exists w, push_all v xs = Done w /\ varray_push w x = Done v'.
Proof.
  rewrite push_all_snoc. destruct (push_all v xs) as [w| |]; cbn; try discriminate.
  eauto.
Qed.

Lemma push_all_inv xs : forall v0 v,
  varray_init 1 = Done v0 ->
  push_all v0 xs = Done v ->
  represents v xs /\ grown v (Z.of_nat (length xs)).
Proof.
  induction xs as [|x xs IH] using rev_ind; intros v0 v Hinit Hp.
  - injection Hp as <-. destruct (varray_init_1_inv _ Hinit) as (Hr & Hc).
    split; [exact Hr|].
    exists 0. cbn. split; [lia|]. split; [exact Hc|]. left. split; reflexivity.
  - apply push_all_snoc_inv in Hp as (w & Hw & Hp).
    destruct (IH _ _ Hinit Hw) as (Hr & j & Hj & Hcap & Hn).
    destruct (varray_push_represents _ _ _ _ Hr Hp) as (Hr' & Hc').
    split; [assumption|].
    pose proof Hr as (Hl & _). pose proof Hr' as (Hl' & _ & Hle' & _).
    rewrite length_app in *. cbn [length] in *.
    pose proof (pow2_succ j Hj) as Hpow.
    assert (Hpos : 0 < 2 ^ j) by (apply Z.pow_pos_nonneg; lia).
    destruct Hc' as [Hsame|(Hfull & Hdbl)].
    + exists j. split; [assumption|]. split; [congruence|]. right.
      destruct Hn as [(Hz & ->)|Hn]; [cbn in *; lia|lia].
    + exists (j + 1). split; [lia|]. split; [lia|]. right.
      rewrite (pow2_succ (j + 1)) by lia. lia.
Qed.

(** Pushes into an array initialised with capacity 1 return as long as
    the byte count of the largest buffer they ask for fits a [size_t]. *)
Lemma push_all_Done (k : Z) xs :
  0 <= k -> sizeof_varray_t + 2 ^ (k + 1) * sizeof A < 2 ^ 64 ->
  Z.of_nat (length xs) <= 2 ^ k + 1 ->
  exists v0 v, varray_init 1 = Done v0 /\ push_all v0 xs = Done v.
Proof.
  intros Hk Hfit Hlen. pose proof (sizeof_range A) as Hs.
  assert (Hpos : 0 < 2 ^ k) by (apply Z.pow_pos_nonneg; lia).
  pose proof (pow2_succ k Hk) as Hpow.
  destruct (varray_init_represents 1) as (v0 & Hinit & _); [lia|nia|].
  exists v0. revert Hlen. induction xs as [|x xs IH] using rev_ind; intros Hlen.
  - eexists. split; [exact Hinit|reflexivity].
  - rewrite length_app in Hlen. cbn [length] in Hlen.
    destruct IH as (w & _ & Hw); [lia|].
    destruct (push_all_inv _ _ _ Hinit Hw) as (Hr & _).
    destruct (varray_push_Done w xs x Hr) as (v' & Hv').
    { destruct Hr as (Hl & _). rewrite Hl. nia. }
    exists v'. split; [exact Hinit|]. now rewrite push_all_snoc, Hw.
Qed.

Lemma grown_pow2_succ v (k : Z) :
  0 <= k -> grown v (2 ^ k + 1) -> capacity v = 2 ^ (k + 1).
Proof.
  intros Hk (j & Hj & Hcap & Hn).
  assert (Hkpos : 0 < 2 ^ k) by (apply Z.pow_pos_nonneg; lia).
  destruct Hn as [(Hz & _)|(Hlo & Hhi)]; [lia|].
  rewrite Hcap. f_equal.
  pose proof (pow2_succ j Hj) as Hj1. pose proof (pow2_succ k Hk) as Hk1.
  assert (Hkj : k < j).
  { apply (Z.pow_lt_mono_r_iff 2); lia. }
  destruct (Z_le_gt_dec j (k + 1)) as [Hle|Hgt]; [lia|].
  exfalso.
  assert (Hmono : 2 ^ (k + 2) <= 2 ^ j) by (apply Z.pow_le_mono_r; lia).
  replace (k + 2) with (k + 1 + 1) in Hmono by lia.
  rewrite (pow2_succ (k + 1)) in Hmono by lia. lia.
Qed.
End VarrayGrowth.

(** C7.  For every [k] for which the buffer of [2^(k+1)] elements can
    exist (its byte count, header included, fits a [size_t]), pushing
    [2^k + 1] elements one at a time into an array initialised with
    capacity 1 returns an array of capacity exactly [2^(k+1)] that holds
    the elements pushed, in order; each push on the way leaves the
    capacity as it was or doubles it once, and keeps the elements already
    present in place; and popping an array of length [L > 0] returns its
    last element, the most recently pushed one, and leaves length
    [L - 1]. *)
Theorem varray_growth_and_pop (A : Type) `{Sizeof A} :
  (forall (k : Z) (xs : list A),
      0 <= k -> sizeof_varray_t + 2 ^ (k + 1) * sizeof A < 2 ^ 64 ->
      Z.of_nat (length xs) = 2 ^ k + 1 ->
      exists v0 v, varray_init 1 = Done v0 /\ push_all v0 xs = Done v /\
                   varray_capacity v = 2 ^ (k + 1) /\
                   varray_len v = 2 ^ k + 1 /\
                   elems v = Some <$> xs) /\
  (forall (xs : list A) (x : A) (v0 v v' : varray_t A),
      varray_init 1 = Done v0 -> push_all v0 xs = Done v ->
      varray_push v x = Done v' ->
      (varray_capacity v' = varray_capacity v \/
       varray_capacity v' = 2 * varray_capacity v) /\
      elems v' = elems v ++ [Some x]) /\
  (forall (v : varray_t A) (xs : list A) (x : A),
      represents v (xs ++ [x]) ->
      exists v', varray_pop v = Done (x, v') /\
                 varray_len v' = varray_len v - 1 /\
                 elems v' = Some <$> xs) /\
  (forall (v v' : varray_t A) (xs : list A) (x : A),
      represents v xs -> varray_push v x = Done v' ->
      exists v'', varray_pop v' = Done (x, v'') /\
                  varray_len v'' = varray_len v /\
                  elems v'' = elems v).
Proof.
  split; [|split; [|split]].
  - intros k xs Hk Hfit Hlen.
    destruct (push_all_Done k xs Hk Hfit) as (v0 & v & Hinit & Hv); [lia|].
    destruct (push_all_inv _ _ _ Hinit Hv) as (Hr & Hg).
    exists v0, v. split; [assumption|]. split; [assumption|].
    unfold varray_capacity, varray_len.
    rewrite Hlen in Hg. split; [apply grown_pow2_succ; [lia|assumption]|].
    split; [destruct Hr as (-> & _); assumption|now apply represents_elems].
  - intros xs x v0 v v' Hinit Hall Hpush.
    destruct (push_all_inv _ _ _ Hinit Hall) as (Hr & _).
    destruct (varray_push_represents _ _ _ _ Hr Hpush) as (Hr' & Hc).
    split.
    + unfold varray_capacity. destruct Hc as [Hc|(_ & Hc)]; auto.
    + rewrite (represents_elems _ _ Hr), (represents_elems _ _ Hr').
      now rewrite fmap_app.
  - intros v xs x Hr.
    destruct (varray_pop_represents _ _ _ Hr) as (v' & Hp & Hr' & Hl & _).
    exists v'. split; [assumption|]. split; [assumption|now apply represents_elems].
  - intros v v' xs x Hr Hp.
    destruct (varray_push_represents _ _ _ _ Hr Hp) as (Hr' & _).
    destruct (varray_pop_represents _ _ _ Hr') as (v'' & Hpop & Hr'' & Hl & _).
    exists v''. split; [assumption|]. unfold varray_len.
    pose proof Hr as (Hlv & _). pose proof Hr' as (Hlv' & _).
    rewrite length_app in Hlv'. cbn [length] in Hlv'.
    split; [lia|].
    now rewrite (represents_elems _ _ Hr''), (represents_elems _ _ Hr).
Qed.

Lemma varray_growth_and_pop_witness :
  (exists v0 v : varray_t Z,
      varray_init 1 = Done v0 /\ push_all v0 [10; 20; 30] = Done v /\
      varray_capacity v = 2 ^ (1 + 1) /\ varray_len v = 2 ^ 1 + 1 /\
      elems v = Some <$> [10; 20; 30]) /\
  ((varray_capacity (Build_varray 4 3 [Some 10; Some 20; Some 30; None])
    = varray_capacity (Build_varray 2 2 [Some 10; Some 20]) \/
    varray_capacity (Build_varray 4 3 [Some 10; Some 20; Some 30; None])
    = 2 * varray_capacity (Build_varray 2 2 [Some 10; Some 20])) /\
   elems (Build_varray 4 3 [Some 10; Some 20; Some 30; None])
   = elems (Build_varray 2 2 [Some 10; Some 20]) ++ [Some 30]) /\
  (exists v' : varray_t Z,
      varray_pop (Build_varray 2 2 [Some 10; Some 20]) = Done (20, v') /\
      varray_len v' = 2 - 1 /\ elems v' = Some <$> [10]) /\
  (exists v'' : varray_t Z,
      varray_pop (Build_varray 4 3 [Some 10; Some 20; Some 30; None]) = Done (30, v'') /\
      varray_len v'' = varray_len (Build_varray 2 2 [Some 10; Some 20]) /\
      elems v'' = elems (Build_varray 2 2 [Some 10; Some 20])).
Proof.
  destruct (varray_growth_and_pop Z) as (Hgrow & Hpush & Hpop & Hlast).
  assert (Hr : represents (Build_varray 2 2 [Some 10; Some 20]) [10; 20])
    by (unfold represents; cbn; repeat split; lia).
  split; [|split; [|split]].
  - apply (Hgrow 1 [10; 20; 30]); [lia|vm_compute; reflexivity|reflexivity].
  - apply (Hpush [10; 20] 30 (Build_varray 1 0 [None])); reflexivity.
  - apply (Hpop (Build_varray 2 2 [Some 10; Some 20]) [10] 20). exact Hr.
  - apply (Hlast (Build_varray 2 2 [Some 10; Some 20]) _ [10; 20] 30);
      [exact Hr|reflexivity].
Defined.

Section DosDateTime.
Lemma testbit_mod_pow2 (a n i : Z) :
  0 <= n -> Z.testbit (a mod 2 ^ n) i = (i <? n) && Z.testbit a i.
Proof.
  intros Hn. destruct (Z.ltb_spec i n) as [Hlt|Hge]; cbn.
  - destruct (Z_lt_ge_dec i 0) as [Hneg|Hpos].
    + now rewrite !Z.testbit_neg_r by lia.
    + now apply Z.mod_pow2_bits_low.
  - apply Z.mod_pow2_bits_high. lia.
Qed.

Lemma land_ones_mod (a : Z) (m n : Z) : 0 <= n -> m = Z.ones n -> Z.land a m = a mod 2 ^ n.
Proof. intros Hn ->. now apply Z.land_ones. Qed.

(** The bit at position [i] of a value packed as [lo | mid << p | hi << q]
    out of fields reduced to [p], [q - p] and [w] bits. *)
Lemma packed_testbit (lo mid hi p q w i : Z) :
  0 < p < q -> 0 < w -> q + w <= 16 -> 0 <= i ->
  Z.testbit
    (uint16_t (Z.lor (uint16_t (Z.lor (uint16_t (lo mod 2 ^ p))
                                      (uint32_t (Z.shiftl (mid mod 2 ^ (q - p)) p))))
                     (uint32_t (Z.shiftl (hi mod 2 ^ w) q)))) i
  = if i <? p then Z.testbit lo i
    else if i <? q then Z.testbit mid (i - p)
    else if i <? q + w then Z.testbit hi (i - q)
    else false.
Proof.
  intros Hp Hw Hq Hi. unfold uint16_t, uint32_t.
  repeat (rewrite ?testbit_mod_pow2, ?Z.lor_spec, ?Z.shiftl_spec by lia).
  repeat match goal with
         | |- context [?a <? ?b] => destruct (Z.ltb_spec a b); try lia
         end; cbn;
    rewrite ?(Z.testbit_neg_r _ (i - p)), ?(Z.testbit_neg_r _ (i - q)) by lia;
    rewrite ?orb_false_r, ?andb_false_r; reflexivity.
Qed.

Lemma _get_dos_date_testbit (dt : zip_datetime) (i : Z) :
  0 <= i ->
  Z.testbit (_get_dos_date dt) i
  = if i <? 5 then Z.testbit (day dt) i
    else if i <? 9 then Z.testbit (month dt) (i - 5)
    else if i <? 16 then Z.testbit (year dt - 1980) (i - 9)
    else false.
Proof.
  intros Hi. unfold _get_dos_date.
  rewrite (land_ones_mod _ 0x1f 5), (land_ones_mod _ 0x0f 4), (land_ones_mod _ 0x7f 7)
    by (reflexivity || lia).
  rewrite (packed_testbit _ _ _ 5 9 7) by lia. change (9 + 7) with 16.
  destruct (i <? 5); [reflexivity|]. destruct (i <? 9); [reflexivity|].
  destruct (Z.ltb_spec i 16); [|reflexivity].
  unfold uint32_t. rewrite testbit_mod_pow2 by lia.
  destruct (Z.ltb_spec (i - 9) 32); [reflexivity|lia].
Qed.

Lemma _get_dos_time_testbit (dt : zip_datetime) (i : Z) :
  0 <= i ->
  Z.testbit (_get_dos_time dt) i
  = if i <? 5 then Z.testbit (seconds dt / 2) i
    else if i <? 11 then Z.testbit (minutes dt) (i - 5)
    else if i <? 16 then Z.testbit (hours dt) (i - 11)
    else false.
Proof.
  intros Hi. unfold _get_dos_time.
  rewrite !(land_ones_mod _ 0x1f 5), (land_ones_mod _ 0x3f 6) by (reflexivity || lia).
  rewrite (packed_testbit _ _ _ 5 11 5) by lia. reflexivity.
Qed.
End DosDateTime.

Section DosFields.
Lemma bit_field_eq (x y p w : Z) :
  0 <= p -> 0 <= w ->
  (forall i, 0 <= i < w -> Z.testbit x (p + i) = Z.testbit y i) ->
  bit_field x p w = y mod 2 ^ w.
Proof.
  intros Hp Hw Hbits. unfold bit_field. apply Z.bits_inj'. intros i Hi.
  rewrite !testbit_mod_pow2 by lia. destruct (Z.ltb_spec i w); cbn; [|reflexivity].
  rewrite Z.shiftr_spec by lia. rewrite Z.add_comm. apply Hbits. lia.
Qed.

Lemma uint16_t_range (x : Z) : 0 <= uint16_t x < 2 ^ 16.
Proof. unfold uint16_t. apply Z.mod_pos_bound. lia. Qed.

Lemma uint32_t_range (x : Z) : 0 <= uint32_t x < 2 ^ 32.
Proof. unfold uint32_t. apply Z.mod_pos_bound. lia. Qed.
End DosFields.

(** C8.  For every datetime the packed date is a 16-bit value holding
    [year - 1980] in bits 9-15, the month in bits 5-8 and the day in bits
    0-4, and the packed time is a 16-bit value holding the hours in bits
    11-15, the minutes in bits 5-10 and the seconds divided by two in bits
    0-4, each reduced to the width of its field; two datetimes that differ
    only in the odd second pack to the same time. *)
Theorem dos_date_time_packing (dt : zip_datetime) :
  0 <= _get_dos_date dt < 2 ^ 16 /\
  bit_field (_get_dos_date dt) 9 7 = (year dt - 1980) mod 2 ^ 7 /\
  bit_field (_get_dos_date dt) 5 4 = month dt mod 2 ^ 4 /\
  bit_field (_get_dos_date dt) 0 5 = day dt mod 2 ^ 5 /\
  0 <= _get_dos_time dt < 2 ^ 16 /\
  bit_field (_get_dos_time dt) 11 5 = hours dt mod 2 ^ 5 /\
  bit_field (_get_dos_time dt) 5 6 = minutes dt mod 2 ^ 6 /\
  bit_field (_get_dos_time dt) 0 5 = (seconds dt / 2) mod 2 ^ 5 /\
  (forall s : Z,
      _get_dos_time (Build_zip_datetime (year dt) (month dt) (day dt)
                                        (hours dt) (minutes dt) (2 * s + 1))
      = _get_dos_time (Build_zip_datetime (year dt) (month dt) (day dt)
                                          (hours dt) (minutes dt) (2 * s))).
Proof.
  assert (Hbit : forall x y p w q,
             0 <= p -> 0 <= w ->
             (forall i, 0 <= i -> Z.testbit x i = q i) ->
             (forall i, 0 <= i < w -> q (p + i) = Z.testbit y i) ->
             bit_field x p w = y mod 2 ^ w).
  { intros x y p w q Hp Hw Hx Hq. apply bit_field_eq; try assumption.
    intros i Hi. rewrite Hx by lia. now apply Hq. }
  repeat split;
    try apply uint16_t_range;
    try (eapply Hbit; [lia|lia|intros i Hi; apply (_get_dos_date_testbit dt i Hi)|];
         intros i Hi; cbv beta;
         repeat match goal with
                | |- context [?a <? ?b] => destruct (Z.ltb_spec a b); try lia
                end; f_equal; lia);
    try (eapply Hbit; [lia|lia|intros i Hi; apply (_get_dos_time_testbit dt i Hi)|];
         intros i Hi; cbv beta;
         repeat match goal with
                | |- context [?a <? ?b] => destruct (Z.ltb_spec a b); try lia
                end; f_equal; lia).
  intros s. unfold _get_dos_time. cbn [seconds minutes hours].
  replace ((2 * s + 1) / 2) with s by (apply (Z.div_unique _ _ _ 1); lia).
  replace (2 * s / 2) with s by (apply (Z.div_unique _ _ _ 0); lia).
  reflexivity.
Qed.

(** The datetime of the scenario of the specification, 2024-01-15 10:30:00. *)
Example dos_date_time_2024_01_15 :
  _get_dos_date (Build_zip_datetime 2024 1 15 10 30 0) = 44 * 2 ^ 9 + 1 * 2 ^ 5 + 15 /\
  _get_dos_time (Build_zip_datetime 2024 1 15 10 30 0) = 10 * 2 ^ 11 + 30 * 2 ^ 5 + 0.
Proof. split; reflexivity. Qed.

Section SinkFacts.
Context `{Collaborators}.

Lemma accepted_bytes_app (l1 l2 : list sink_call) :
  accepted_bytes (l1 ++ l2) = accepted_bytes l1 + accepted_bytes l2.
Proof.
  unfold accepted_bytes. induction l1 as [|c l1 IH]; cbn; [reflexivity|].
  rewrite IH. lia.
Qed.

Lemma accepted_bytes_nonneg (l : list sink_call) : 0 <= accepted_bytes l.
Proof.
  unfold accepted_bytes. induction l as [|c l IH]; cbn; [lia|].
  destruct (snd c); lia.
Qed.

Lemma accepted_app (c1 c2 : list (list Z)) : accepted (c1 ++ c2) = accepted c1 ++ accepted c2.
Proof. unfold accepted. apply fmap_app. Qed.

Lemma call_out_cb_log (s : sink_t) (d : list Z) :
  sink_log (snd (call_out_cb s d)) = sink_log s ++ [(d, fst (call_out_cb s d))].
Proof. unfold call_out_cb. destruct (out_cb _ _); reflexivity. Qed.

Lemma sink_write_all_app (s : sink_t) (c1 c2 : list (list Z)) :
  sink_write_all s (c1 ++ c2)
  = if fst (sink_write_all s c1) then sink_write_all (snd (sink_write_all s c1)) c2
    else sink_write_all s c1.
Proof.
  revert s. induction c1 as [|d c1 IH]; intros s; cbn; [reflexivity|].
  destruct (call_out_cb s d) as [[|] s1]; [apply IH|reflexivity].
Qed.

Lemma accepts_app (s : sink_t) (c1 c2 : list (list Z)) :
  accepts s (c1 ++ c2) <->
  accepts s c1 /\ accepts (snd (sink_write_all s c1)) c2.
Proof.
  unfold accepts. rewrite sink_write_all_app.
  destruct (fst (sink_write_all s c1)) eqn:E; [tauto|].
  rewrite E. split; [discriminate|intros [? _]; discriminate].
Qed.

Lemma accepts_log (s : sink_t) (chunks : list (list Z)) :
  accepts s chunks ->
  sink_log (snd (sink_write_all s chunks)) = sink_log s ++ accepted chunks.
Proof.
  unfold accepts. revert s. induction chunks as [|d chunks IH]; intros s; cbn.
  - now rewrite app_nil_r.
  - pose proof (call_out_cb_log s d) as Hlog.
    destruct (call_out_cb s d) as [[|] s1]; cbn in *; [|discriminate].
    intros Hacc. rewrite (IH _ Hacc), Hlog, <- app_assoc. reflexivity.
Qed.

Lemma accepts_cons (s : sink_t) (d : list Z) (chunks : list (list Z)) :
  accepts s (d :: chunks) ->
  fst (call_out_cb s d) = true /\ accepts (snd (call_out_cb s d)) chunks /\
  sink_write_all s (d :: chunks) = sink_write_all (snd (call_out_cb s d)) chunks.
Proof.
  unfold accepts. cbn. destruct (call_out_cb s d) as [[|] s1]; cbn; [auto|discriminate].
Qed.
End SinkFacts.

Section WriterFacts.
Context `{Collaborators}.

Lemma le_split_shiftr (m : Z) :
  [uint8_t m; uint8_t (Z.shiftr m 8); uint8_t (Z.shiftr m 16); uint8_t (Z.shiftr m 24);
   uint8_t (Z.shiftr m 32); uint8_t (Z.shiftr m 40); uint8_t (Z.shiftr m 48);
   uint8_t (Z.shiftr m 56)] = le_split 8 m.
Proof.
  unfold uint8_t, le_split. rewrite !Z.shiftr_div_pow2 by lia.
  rewrite !Z.div_div by lia. reflexivity.
Qed.

Lemma _write_le_chunk (count : Z) (s : sink_t) (n sz : Z) :
  sz = 2 \/ sz = 4 \/ sz = 8 ->
  _write_le count s n sz
  = (fst (call_out_cb s (le_bytes n sz)), size_t (count + sz),
     snd (call_out_cb s (le_bytes n sz))).
Proof.
  pose proof (le_split_shiftr (uint16_t n)) as H2.
  pose proof (le_split_shiftr (uint32_t n)) as H4.
  pose proof (le_split_shiftr (size_t n)) as H8.
  intros [-> | [-> | ->]]; unfold _write_le, _write16_le, _write32_le, _write64_le, le_bytes;
    cbn [Z.eqb Pos.eqb Z.to_nat Pos.to_nat Pos.iter_op Nat.add Z.mul Pos.mul Pos.add Pos.succ].
  - change (le_split (Z.to_nat 2) (n mod 2 ^ (8 * 2))) with (take 2 (le_split 8 (uint16_t n))).
    rewrite <- H2. cbn [take]. now destruct (call_out_cb s _).
  - change (le_split (Z.to_nat 4) (n mod 2 ^ (8 * 4))) with (take 4 (le_split 8 (uint32_t n))).
    rewrite <- H4. cbn [take]. now destruct (call_out_cb s _).
  - change (le_split (Z.to_nat 8) (n mod 2 ^ (8 * 8))) with (le_split 8 (size_t n)).
    rewrite <- H8. now destruct (call_out_cb s _).
Qed.

Lemma le_bytes_length (n sz : Z) : 0 <= sz -> Z.of_nat (length (le_bytes n sz)) = sz.
Proof.
  intros Hsz. unfold le_bytes. generalize (n mod 2 ^ (8 * sz)). intros m.
  rewrite <- (Z2Nat.id sz) at 2 by assumption. f_equal.
  revert m. induction (Z.to_nat sz) as [|k IH]; intros m; cbn; [reflexivity|].
  now rewrite IH.
Qed.

Lemma size_t_add_l (a b : Z) : size_t (size_t a + b) = size_t (a + b).
Proof. unfold size_t. now rewrite Zplus_mod_idemp_l. Qed.

Lemma size_t_add_r (a b : Z) : size_t (a + size_t b) = size_t (a + b).
Proof. unfold size_t. now rewrite Zplus_mod_idemp_r. Qed.

Lemma uint32_t_add_l (a b : Z) : uint32_t (uint32_t a + b) = uint32_t (a + b).
Proof. unfold uint32_t. now rewrite Zplus_mod_idemp_l. Qed.

(** The chain of writes passes the little-endian bytes of the fields to
    the callback, in order, up to the first rejected one; when all are
    accepted the counter has advanced by the size of the record. *)
Lemma size_t_idem (a : Z) : size_t (size_t a) = size_t a.
Proof. unfold size_t. apply Z.mod_mod. lia. Qed.

Lemma write_fields_chunks (fields : list (Z * Z)) : forall (count : Z) (s : sink_t),
  le_sizes fields -> size_t count = count ->
  fst (fst (write_fields count s fields)) = fst (sink_write_all s (field_chunks fields)) /\
  snd (write_fields count s fields) = snd (sink_write_all s (field_chunks fields)) /\
  (fst (fst (write_fields count s fields)) = true ->
   snd (fst (write_fields count s fields)) = size_t (count + fields_size fields)).
Proof.
  induction fields as [|[n sz] fields IH]; intros count s Hsz Hcount.
  - cbn. rewrite Z.add_0_r. auto.
  - inversion Hsz as [|? ? Hsz1 Hsz2]; subst. cbn [fst snd] in Hsz1.
    cbn [write_fields field_chunks fmap list_fmap sink_write_all fst snd].
    rewrite (_write_le_chunk count s n sz Hsz1).
    destruct (call_out_cb s (le_bytes n sz)) as [[|] s1]; cbn [fst snd];
      [|split; [reflexivity|split; [reflexivity|discriminate]]].
    destruct (IH (size_t (count + sz)) s1 Hsz2 (size_t_idem _)) as (H1 & H2 & H3).
    split; [assumption|]. split; [assumption|]. intros Hok.
    rewrite (H3 Hok). cbn [fields_size foldr snd]. rewrite size_t_add_l. f_equal.
    unfold fields_size. lia.
Qed.

Lemma field_chunks_bytes (fields : list (Z * Z)) :
  le_sizes fields -> accepted_bytes (accepted (field_chunks fields)) = fields_size fields.
Proof.
  induction 1 as [|[n sz] fields Hsz _ IH]; cbn; [reflexivity|].
  cbn [snd] in Hsz. rewrite le_bytes_length by lia.
  unfold accepted_bytes, accepted, field_chunks, fields_size in IH. rewrite IH. reflexivity.
Qed.
End WriterFacts.

Section DeflateFacts.
Context `{Collaborators}.

Lemma uint32_t_idem (a : Z) : uint32_t (uint32_t a) = uint32_t a.
Proof. unfold uint32_t. apply Z.mod_mod. lia. Qed.

(** What a run of the compression loop that returns has done: every
    chunk was passed to the callback, the accepted ones were added to
    [bytes_written] and to the compressed size of the current entry, and
    nothing else of the encoder changed. *)
Lemma _deflate_loop_spec (fuel : nat) : forall (z : zip_t) (flush : Z) (ok : bool) (z' : zip_t),
  _deflate_loop fuel z flush = Done (ok, z') ->
  exists new,
    sink_log (out z') = sink_log (out z) ++ new /\
    size_t (bytes_written z') = size_t (bytes_written z + accepted_bytes new) /\
    (ok = true -> bytes_written z' = size_t (bytes_written z + accepted_bytes new)) /\
    entry_opened z' = entry_opened z /\
    central_dir_offset z' = central_dir_offset z /\
    (forall es e, represents (entries z) (es ++ [e]) ->
       exists sc, represents (entries z') (es ++ [set_size_compressed e sc]) /\
                  uint32_t sc = uint32_t (size_compressed e + accepted_bytes new) /\
                  (ok = true -> sc = uint32_t (size_compressed e + accepted_bytes new))).
Proof.
  induction fuel as [|fuel IH]; intros z flush ok z' Hrun; [discriminate|].
  cbn [_deflate_loop] in Hrun.
  destruct (deflate (stream z) flush) as [[ret produced] strm].
  destruct (ret <? 0).
  { injection Hrun as <- <-. exists []. cbn. rewrite app_nil_r, Z.add_0_r.
    repeat split; try discriminate.
    intros es e Hr. exists (size_compressed e). rewrite Z.add_0_r.
    split; [now destruct e|]. split; [reflexivity|discriminate]. }
  cbn [out set_stream] in Hrun.
  pose proof (call_out_cb_log (out z) produced) as Hlog.
  destruct (call_out_cb (out z) produced) as [[|] s]; cbn [negb fst snd] in *.
  2:{ injection Hrun as <- <-. exists [(produced, false)]. cbn. rewrite Z.add_0_r.
      repeat split; try discriminate; try assumption.
      intros es e Hr. exists (size_compressed e). rewrite Z.add_0_r.
      split; [now destruct e|]. split; [reflexivity|discriminate]. }
  apply outcome_bind_Done in Hrun as (e0 & Hlast & Hrun).
  apply outcome_bind_Done in Hrun as (es1 & Hset & Hrun).
  cbn [entries set_out set_stream] in Hlast, Hset.
  replace (ZIP_INTERNAL_BUFFER_SIZE -
           (ZIP_INTERNAL_BUFFER_SIZE - Z.of_nat (length produced)))
    with (Z.of_nat (length produced)) in * by lia.
  set (n := Z.of_nat (length produced)) in *.
  assert (Hstep :
    forall es e, represents (entries z) (es ++ [e]) ->
                 represents es1 (es ++ [set_size_compressed e (uint32_t (size_compressed e + n))])).
  { intros es e Hr. rewrite (varray_last_represents _ _ _ Hr) in Hlast.
    injection Hlast as <-.
    destruct (varray_set_last_represents _ _ _
                (set_size_compressed e (uint32_t (size_compressed e + n))) Hr)
      as (v' & Hv' & Hr' & _).
    rewrite Hv' in Hset. now injection Hset as <-. }
  destruct (_ =? 0).
  - apply IH in Hrun as (new & Hl & Hb & Hbt & Ho & Hc & He).
    cbn [out entries bytes_written entry_opened central_dir_offset
         set_bytes_written set_entries set_out set_stream] in *.
    exists ((produced, true) :: new). rewrite Hl, Hlog, <- app_assoc.
    change (accepted_bytes ((produced, true) :: new)) with (n + accepted_bytes new).
    rewrite size_t_add_l in Hb, Hbt. rewrite !Z.add_assoc.
    repeat split; try assumption.
    intros es e Hr. destruct (He _ _ (Hstep _ _ Hr)) as (sc & Hsc & Hu & Hut).
    exists sc. cbn [size_compressed set_size_compressed] in Hu, Hut.
    rewrite uint32_t_add_l in Hu, Hut. rewrite !Z.add_assoc.
    split; [exact Hsc|]. split; assumption.
  - injection Hrun as <- <-.
    cbn [out entries bytes_written entry_opened central_dir_offset
         set_bytes_written set_entries set_out set_stream].
    exists [(produced, true)]. rewrite Hlog.
    change (accepted_bytes [(produced, true)]) with (n + 0). rewrite Z.add_0_r.
    repeat split; try (now rewrite ?size_t_idem).
    intros es e Hr. eexists. split; [apply (Hstep _ _ Hr)|].
    now rewrite uint32_t_idem.
Qed.
End DeflateFacts.

Section FuelFacts.
Context `{Collaborators}.

(** A result reached with some fuel is the result with any more fuel. *)
Lemma _deflate_loop_more_fuel (fuel : nat) : forall (k : nat) (z : zip_t) (flush : Z) r,
  _deflate_loop fuel z flush = Done r -> _deflate_loop (fuel + k) z flush = Done r.
Proof.
  induction fuel as [|fuel IH]; intros k z flush r Hrun; [discriminate|].
  cbn [_deflate_loop Nat.add] in Hrun |- *.
  destruct (deflate (stream z) flush) as [[ret produced] strm].
  destruct (ret <? 0); [exact Hrun|].
  destruct (call_out_cb _ produced) as [[|] s]; cbn [negb] in Hrun |- *; [|exact Hrun].
  destruct (varray_last _) as [e| |]; cbn [mbind outcome_bind] in Hrun |- *;
    try discriminate.
  destruct (varray_set_last _ _) as [es| |]; cbn [mbind outcome_bind] in Hrun |- *;
    try discriminate.
  destruct (_ =? 0); [now apply IH|exact Hrun].
Qed.

Lemma _deflate_more_fuel (fuel k : nat) (z : zip_t) (flush : Z) (data : list Z) r :
  _deflate fuel z flush data = Done r -> _deflate (fuel + k) z flush data = Done r.
Proof.
  unfold _deflate.
  destruct (varray_last _) as [e| |]; cbn [mbind outcome_bind]; try discriminate.
  destruct (varray_set_last _ _) as [es| |]; cbn [mbind outcome_bind]; try discriminate.
  apply _deflate_loop_more_fuel.
Qed.

Lemma zip_entry_update_more_fuel (fuel k : nat) (z : zip_t) (data : list Z) r :
  zip_entry_update fuel z data = Done r -> zip_entry_update (fuel + k) z data = Done r.
Proof.
  unfold zip_entry_update. destruct (negb (entry_opened z)); [auto|].
  destruct (_ =? 0); [auto|].
  destruct (varray_last _) as [e| |]; cbn [mbind outcome_bind]; try discriminate.
  destruct (varray_set_last _ _) as [es| |]; cbn [mbind outcome_bind]; try discriminate.
  apply _deflate_more_fuel.
Qed.

Lemma zip_entry_end_more_fuel (fuel k : nat) (z : zip_t) r :
  zip_entry_end fuel z = Done r -> zip_entry_end (fuel + k) z = Done r.
Proof.
  unfold zip_entry_end. destruct (negb (entry_opened z)); [auto|].
  destruct (_deflate fuel z Z_FINISH []) as [[ok zf]| |] eqn:Hflush;
    cbn [mbind outcome_bind]; try discriminate.
  rewrite (_deflate_more_fuel fuel k _ _ _ _ Hflush). cbn [mbind outcome_bind]. auto.
Qed.
End FuelFacts.

Section RecordFacts.
Context `{Collaborators}.

Lemma le_bytes_mod (n sz : Z) : 0 <= sz -> le_bytes (n mod 2 ^ (8 * sz)) sz = le_bytes n sz.
Proof. intros. unfold le_bytes. rewrite Z.mod_mod; [reflexivity|]. apply Z.pow_nonzero; lia. Qed.

Lemma strlen_range (s : list Z) : 0 <= strlen s <= Z.of_nat (length s).
Proof. induction s as [|c s IH]; cbn [strlen length]; [lia|]. destruct (c =? 0); lia. Qed.

Lemma stored_name_len_range (filename : list Z) :
  0 <= stored_name_len filename <= 127 /\
  stored_name_len filename <= Z.of_nat (length filename).
Proof.
  unfold stored_name_len, ZIP_ENTRY_MAX_NAME_LEN.
  pose proof (strlen_range filename). lia.
Qed.

Lemma local_header_fields_chunks (bw : Z) (filename : list Z) (dt : zip_datetime) :
  field_chunks (local_header_fields (opened_entry bw filename dt) (stored_name_len filename))
  ++ [take (Z.to_nat (uint16_t (stored_name_len filename)))
           (name (opened_entry bw filename dt))]
  = local_header_record filename dt.
Proof.
  pose proof (stored_name_len_range filename) as (Hn & Hl).
  unfold local_header_record, field_chunks, local_header_fields.
  cbn [fmap list_fmap fst snd app time date name opened_entry].
  change (uint16_t (stored_name_len filename))
    with (stored_name_len filename mod 2 ^ (8 * 2)).
  rewrite le_bytes_mod by lia.
  rewrite Z.mod_small by lia.
  rewrite take_app_le by (rewrite length_take; lia).
  rewrite take_take, Nat.min_id. reflexivity.
Qed.
End RecordFacts.

Section AddFacts.
Context `{Collaborators}.

Lemma write_fields_accepts (fields : list (Z * Z)) (s : sink_t) :
  le_sizes fields -> accepts s (field_chunks fields) ->
  write_fields 0 s fields
  = (true, size_t (fields_size fields), snd (sink_write_all s (field_chunks fields))).
Proof.
  intros Hsz Hacc. destruct (write_fields_chunks fields 0 s Hsz eq_refl) as (H1 & H2 & H3).
  unfold accepts in Hacc. rewrite Hacc in H1. specialize (H3 H1).
  destruct (write_fields 0 s fields) as [[ok c] s']. cbn in *. now subst.
Qed.

Lemma write_fields_rejects (fields : list (Z * Z)) (s : sink_t) :
  le_sizes fields -> ~ accepts s (field_chunks fields) ->
  exists c, write_fields 0 s fields
            = (false, c, snd (sink_write_all s (field_chunks fields))).
Proof.
  intros Hsz Hrej. destruct (write_fields_chunks fields 0 s Hsz eq_refl) as (H1 & H2 & _).
  unfold accepts in Hrej. apply not_true_is_false in Hrej. rewrite Hrej in H1.
  destruct (write_fields 0 s fields) as [[ok c] s']. cbn in *. subst. eauto.
Qed.

Lemma call_out_cb_eq (s : sink_t) (d : list Z) :
  call_out_cb s d = (fst (sink_write_all s [d]), snd (sink_write_all s [d])).
Proof. cbn. now destruct (call_out_cb s d) as [[|] s']. Qed.

Lemma name_len_truncated (filename : list Z) :
  (if ZIP_ENTRY_MAX_NAME_LEN <? strlen filename then ZIP_ENTRY_MAX_NAME_LEN
   else strlen filename) = stored_name_len filename.
Proof. unfold stored_name_len. destruct (Z.ltb_spec ZIP_ENTRY_MAX_NAME_LEN (strlen filename)); lia. Qed.

Lemma local_header_le_sizes (e : zip_entry_t) (n : Z) : le_sizes (local_header_fields e n).
Proof. unfold le_sizes, local_header_fields. repeat (constructor; [cbn; tauto|]). constructor. Qed.

Lemma local_header_record_size (filename : list Z) (dt : zip_datetime) :
  chunks_size (local_header_record filename dt) = 30 + stored_name_len filename.
Proof.
  pose proof (stored_name_len_range filename) as (Hn & Hl).
  unfold chunks_size, local_header_record, accepted, accepted_bytes.
  cbn [fmap list_fmap foldr fst snd]. rewrite !le_bytes_length by lia.
  rewrite length_take. lia.
Qed.

(** [zip_entry_add] in terms of the record it writes: what it does when
    the callback accepts the whole local header. *)
Lemma zip_entry_add_accepted (z : zip_t) (filename : list Z) (dt : zip_datetime)
      (es : list zip_entry_t) :
  entry_opened z = false ->
  represents (entries z) es ->
  sizeof_varray_t + 2 * len (entries z) * sizeof zip_entry_t < 2 ^ 64 ->
  accepts (out z) (local_header_record filename dt) ->
  exists z',
    zip_entry_add z filename dt = Done (fst (deflateReset (stream z)) =? Z_OK, z') /\
    represents (entries z') (es ++ [opened_entry (bytes_written z) filename dt]) /\
    entry_opened z' = true /\
    bytes_written z' = size_t (bytes_written z + (30 + stored_name_len filename)) /\
    central_dir_offset z' = central_dir_offset z /\
    out z' = snd (sink_write_all (out z) (local_header_record filename dt)) /\
    stream z' = snd (deflateReset (stream z)).
Proof.
  intros Hopen Hr Hlen Hacc. unfold zip_entry_add. rewrite Hopen, name_len_truncated.
  fold (opened_entry (bytes_written z) filename dt).
  set (e := opened_entry (bytes_written z) filename dt).
  set (n := stored_name_len filename).
  pose proof (local_header_fields_chunks (bytes_written z) filename dt) as Hrec.
  fold e n in Hrec. rewrite <- Hrec in Hacc |- *.
  apply accepts_app in Hacc as (Hf & Hn).
  rewrite (write_fields_accepts _ _ (local_header_le_sizes e n) Hf).
  cbn [negb out set_out]. rewrite call_out_cb_eq. unfold accepts in Hn. rewrite Hn.
  cbn [negb entries set_entry_opened set_out].
  destruct (varray_push_Done (entries z) es e Hr Hlen) as (v' & Hv').
  rewrite Hv'. cbn [mbind outcome_bind].
  destruct (varray_push_represents _ _ _ _ Hr Hv') as (Hr' & _).
  cbn [stream set_stream set_bytes_written set_entries set_entry_opened set_out].
  destruct (deflateReset (stream z)) as [r strm].
  eexists. split; [reflexivity|].
  cbn [entries entry_opened bytes_written central_dir_offset out stream
       set_stream set_bytes_written set_entries set_entry_opened set_out fst snd].
  split; [exact Hr'|]. split; [reflexivity|]. split; [|split; [reflexivity|split; [|reflexivity]]].
  - pose proof (stored_name_len_range filename) as (Hrange & _). fold n in Hrange.
    change (fields_size (local_header_fields e n)) with 30.
    rewrite size_t_add_r. unfold uint16_t. rewrite (Z.mod_small n) by lia.
    rewrite (size_t_small 30) by lia. reflexivity.
  - rewrite sink_write_all_app. now rewrite Hf.
Qed.

(** ... and when it rejects some chunk of it. *)
Lemma zip_entry_add_rejected (z : zip_t) (filename : list Z) (dt : zip_datetime) :
  entry_opened z = false ->
  ~ accepts (out z) (local_header_record filename dt) ->
  zip_entry_add z filename dt
  = Done (false, set_out z (snd (sink_write_all (out z) (local_header_record filename dt)))).
Proof.
  intros Hopen Hrej. unfold zip_entry_add. rewrite Hopen, name_len_truncated.
  fold (opened_entry (bytes_written z) filename dt).
  set (e := opened_entry (bytes_written z) filename dt).
  set (n := stored_name_len filename).
  pose proof (local_header_fields_chunks (bytes_written z) filename dt) as Hrec.
  fold e n in Hrec. rewrite <- Hrec in Hrej |- *.
  rewrite sink_write_all_app.
  destruct (fst (sink_write_all (out z) (field_chunks (local_header_fields e n)))) eqn:Hf.
  - rewrite (write_fields_accepts _ _ (local_header_le_sizes e n) Hf).
    cbn [negb out set_out]. rewrite call_out_cb_eq.
    destruct (fst (sink_write_all _ [_])) eqn:Hn.
    + exfalso. apply Hrej. apply accepts_app. split; assumption.
    + reflexivity.
  - destruct (write_fields_rejects _ (out z) (local_header_le_sizes e n)) as (c & Hw).
    { unfold accepts. now rewrite Hf. }
    rewrite Hw. reflexivity.
Qed.
End AddFacts.

Section EntryFacts.
Context `{Collaborators}.

Lemma same_header_refl (e : zip_entry_t) : same_header e e.
Proof. unfold same_header. auto. Qed.

Lemma same_header_trans (e1 e2 e3 : zip_entry_t) :
  same_header e1 e2 -> same_header e2 e3 -> same_header e1 e3.
Proof. unfold same_header. intuition congruence. Qed.

Lemma _deflate_spec (fuel : nat) (z : zip_t) (flush : Z) (data : list Z)
      (ok : bool) (z' : zip_t) :
  _deflate fuel z flush data = Done (ok, z') ->
  exists new,
    sink_log (out z') = sink_log (out z) ++ new /\
    size_t (bytes_written z') = size_t (bytes_written z + accepted_bytes new) /\
    (ok = true -> bytes_written z' = size_t (bytes_written z + accepted_bytes new)) /\
    entry_opened z' = entry_opened z /\
    central_dir_offset z' = central_dir_offset z /\
    (forall es e, represents (entries z) (es ++ [e]) ->
       exists sc,
         represents (entries z')
           (es ++ [set_size_compressed
                     (set_size e (uint32_t (size e + Z.of_nat (length data)))) sc]) /\
         uint32_t sc = uint32_t (size_compressed e + accepted_bytes new) /\
         (ok = true -> sc = uint32_t (size_compressed e + accepted_bytes new))).
Proof.
  unfold _deflate. intros Hrun.
  apply outcome_bind_Done in Hrun as (e0 & Hlast & Hrun).
  apply outcome_bind_Done in Hrun as (es1 & Hset & Hrun).
  apply _deflate_loop_spec in Hrun as (new & Hl & Hb & Hbt & Ho & Hc & He).
  cbn [out entries bytes_written entry_opened central_dir_offset
       set_entries set_stream] in *.
  exists new. repeat split; try assumption.
  intros es e Hr. rewrite (varray_last_represents _ _ _ Hr) in Hlast.
  injection Hlast as <-.
  destruct (varray_set_last_represents _ _ _
              (set_size e (uint32_t (size e + Z.of_nat (length data)))) Hr)
    as (v' & Hv' & Hr' & _).
  rewrite Hv' in Hset. injection Hset as <-.
  exact (He _ _ Hr').
Qed.

Lemma zip_entry_update_empty (fuel : nat) (z : zip_t) :
  entry_opened z = true -> zip_entry_update fuel z [] = Done (true, z).
Proof. intros Hopen. unfold zip_entry_update. now rewrite Hopen. Qed.

Lemma zip_entry_update_spec (fuel : nat) (z : zip_t) (data : list Z)
      (ok : bool) (z' : zip_t) :
  entry_opened z = true -> data <> [] ->
  zip_entry_update fuel z data = Done (ok, z') ->
  exists new,
    sink_log (out z') = sink_log (out z) ++ new /\
    size_t (bytes_written z') = size_t (bytes_written z + accepted_bytes new) /\
    (ok = true -> bytes_written z' = size_t (bytes_written z + accepted_bytes new)) /\
    entry_opened z' = true /\
    central_dir_offset z' = central_dir_offset z /\
    (forall es e, represents (entries z) (es ++ [e]) ->
       exists sc,
         represents (entries z')
           (es ++ [set_size_compressed
                     (set_size
                        (set_crc e (uint32_t (crc32 (crc e)
                           (take (Z.to_nat (uint32_t (Z.of_nat (length data)))) data))))
                        (uint32_t (size e + Z.of_nat (length data)))) sc]) /\
         uint32_t sc = uint32_t (size_compressed e + accepted_bytes new) /\
         (ok = true -> sc = uint32_t (size_compressed e + accepted_bytes new))).
Proof.
  intros Hopen Hdata. unfold zip_entry_update. rewrite Hopen. cbn [negb].
  destruct (Z.eqb_spec (Z.of_nat (length data)) 0) as [Hz|_].
  { destruct data; [congruence|cbn in Hz; lia]. }
  intros Hrun.
  apply outcome_bind_Done in Hrun as (e0 & Hlast & Hrun).
  apply outcome_bind_Done in Hrun as (es1 & Hset & Hrun).
  apply _deflate_spec in Hrun as (new & Hl & Hb & Hbt & Ho & Hc & He).
  cbn [out entries bytes_written entry_opened central_dir_offset set_entries] in *.
  exists new. repeat split; try assumption; try congruence.
  intros es e Hr. rewrite (varray_last_represents _ _ _ Hr) in Hlast.
  injection Hlast as <-.
  destruct (varray_set_last_represents _ _ _
              (set_crc e (uint32_t (crc32 (crc e)
                 (take (Z.to_nat (uint32_t (Z.of_nat (length data)))) data)))) Hr)
    as (v' & Hv' & Hr' & _).
  rewrite Hv' in Hset. injection Hset as <-.
  exact (He _ _ Hr').
Qed.

Lemma data_descriptor_le_sizes (e : zip_entry_t) : le_sizes (data_descriptor_fields e).
Proof. unfold le_sizes, data_descriptor_fields. repeat (constructor; [cbn; tauto|]). constructor. Qed.

Lemma data_descriptor_chunks (e : zip_entry_t) :
  field_chunks (data_descriptor_fields e) = data_descriptor_record e.
Proof. reflexivity. Qed.

(** [zip_entry_end] after the flush has returned [zf] with the current
    entry [ef]. *)
Lemma zip_entry_end_flushed (fuel : nat) (z zf : zip_t) (ef : zip_entry_t) :
  entry_opened z = true ->
  _deflate fuel z Z_FINISH [] = Done (true, zf) ->
  varray_last (entries zf) = Done ef ->
  zip_entry_end fuel z
  = if fst (sink_write_all (out zf) (data_descriptor_record ef)) then
      Done (true,
            set_entry_opened
              (set_bytes_written
                 (set_out zf (snd (sink_write_all (out zf) (data_descriptor_record ef))))
                 (size_t (bytes_written zf + 16)))
              false)
    else
      Done (false, set_out zf (snd (sink_write_all (out zf) (data_descriptor_record ef)))).
Proof.
  intros Hopen Hflush Hlast. unfold zip_entry_end. rewrite Hopen, Hflush.
  cbn [negb mbind outcome_bind]. rewrite Hlast. cbn [mbind outcome_bind].
  rewrite <- data_descriptor_chunks.
  destruct (fst (sink_write_all (out zf) _)) eqn:Hacc.
  - rewrite (write_fields_accepts _ _ (data_descriptor_le_sizes ef) Hacc). reflexivity.
  - destruct (write_fields_rejects _ (out zf) (data_descriptor_le_sizes ef)) as (c & Hw).
    { unfold accepts. now rewrite Hacc. }
    rewrite Hw. reflexivity.
Qed.
End EntryFacts.

Section AddUnfold.
Context `{Collaborators}.

(** [zip_entry_add] on an idle encoder whose callback accepts the local
    header, in terms of the push of the new record. *)
Lemma zip_entry_add_push (z : zip_t) (filename : list Z) (dt : zip_datetime) :
  entry_opened z = false ->
  accepts (out z) (local_header_record filename dt) ->
  zip_entry_add z filename dt
  = (v' ← varray_push (entries z) (opened_entry (bytes_written z) filename dt);
     Done (fst (deflateReset (stream z)) =? Z_OK,
           Build_zip (snd (deflateReset (stream z)))
                     (snd (sink_write_all (out z) (local_header_record filename dt)))
                     v'
                     (size_t (bytes_written z + (30 + stored_name_len filename)))
                     (central_dir_offset z)
                     true)).
Proof.
  intros Hopen Hacc. unfold zip_entry_add. rewrite Hopen, name_len_truncated.
  fold (opened_entry (bytes_written z) filename dt).
  set (e := opened_entry (bytes_written z) filename dt).
  set (n := stored_name_len filename).
  pose proof (local_header_fields_chunks (bytes_written z) filename dt) as Hrec.
  fold e n in Hrec. rewrite <- Hrec in Hacc |- *.
  apply accepts_app in Hacc as (Hf & Hn).
  rewrite (write_fields_accepts _ _ (local_header_le_sizes e n) Hf).
  cbn [negb out set_out]. rewrite call_out_cb_eq. unfold accepts in Hn. rewrite Hn.
  cbn [negb entries set_entry_opened set_out].
  destruct (varray_push (entries z) e) as [v'| |]; cbn [mbind outcome_bind]; try reflexivity.
  cbn [stream set_stream set_bytes_written set_entries set_entry_opened set_out
       bytes_written central_dir_offset out entries entry_opened].
  destruct (deflateReset (stream z)) as [r strm]. cbn [fst snd].
  pose proof (stored_name_len_range filename) as (Hrange & _). fold n in Hrange.
  change (fields_size (local_header_fields e n)) with 30.
  rewrite size_t_add_r. unfold uint16_t. rewrite (Z.mod_small n) by lia.
  rewrite (size_t_small 30) by lia.
  rewrite sink_write_all_app. unfold accepts in Hf. rewrite Hf. reflexivity.
Qed.

Lemma accepts_dec (s : sink_t) (chunks : list (list Z)) :
  accepts s chunks \/ ~ accepts s chunks.
Proof. unfold accepts. destruct (fst (sink_write_all s chunks)); auto. Qed.

Lemma sink_write_all_log (chunks : list (list Z)) : forall s : sink_t,
  exists new, sink_log (snd (sink_write_all s chunks)) = sink_log s ++ new.
Proof.
  induction chunks as [|d chunks IH]; intros s; cbn.
  - exists []. now rewrite app_nil_r.
  - pose proof (call_out_cb_log s d) as Hlog.
    destruct (call_out_cb s d) as [[|] s1]; cbn in *.
    + destruct (IH s1) as (new & Hnew). rewrite Hnew, Hlog, <- app_assoc. eauto.
    + eauto.
Qed.

Lemma chunks_size_app (c1 c2 : list (list Z)) :
  chunks_size (c1 ++ c2) = chunks_size c1 + chunks_size c2.
Proof. unfold chunks_size. now rewrite accepted_app, accepted_bytes_app. Qed.

Lemma size_t_zero_r (a : Z) : size_t a = a -> a = size_t (a + 0).
Proof. intros E. now rewrite Z.add_0_r. Qed.
End AddUnfold.

Section FinalizeFacts.
Context `{Collaborators}.

Lemma _deflate_loop_bytes_range (fuel : nat) : forall (z : zip_t) (flush : Z) ok z',
  size_t (bytes_written z) = bytes_written z ->
  _deflate_loop fuel z flush = Done (ok, z') ->
  size_t (bytes_written z') = bytes_written z'.
Proof.
  induction fuel as [|fuel IH]; intros z flush ok z' Hb Hrun; [discriminate|].
  cbn [_deflate_loop] in Hrun.
  destruct (deflate (stream z) flush) as [[ret produced] strm].
  destruct (ret <? 0); [injection Hrun as <- <-; exact Hb|].
  destruct (call_out_cb _ produced) as [[|] s]; cbn [negb] in Hrun;
    [|injection Hrun as <- <-; exact Hb].
  apply outcome_bind_Done in Hrun as (e0 & _ & Hrun).
  apply outcome_bind_Done in Hrun as (es1 & _ & Hrun).
  destruct (_ =? 0).
  - eapply IH; [|exact Hrun]. cbn. apply size_t_idem.
  - injection Hrun as <- <-. cbn. apply size_t_idem.
Qed.

Lemma central_dir_le_sizes (e : zip_entry_t) (n : Z) : le_sizes (central_dir_fields e n).
Proof. unfold le_sizes, central_dir_fields. repeat (constructor; [cbn; tauto|]). constructor. Qed.

Lemma central_dir_fields_chunks (e : zip_entry_t) :
  field_chunks (central_dir_fields e (strlen (name e)))
  ++ [take (Z.to_nat (strlen (name e))) (name e)]
  = central_dir_record e.
Proof.
  unfold central_dir_record, field_chunks, central_dir_fields.
  cbn [fmap list_fmap fst snd app].
  change (uint16_t (strlen (name e))) with (strlen (name e) mod 2 ^ (8 * 2)).
  rewrite le_bytes_mod by lia. reflexivity.
Qed.

Lemma central_dir_record_size (e : zip_entry_t) :
  chunks_size (central_dir_record e) = 46 + strlen (name e).
Proof.
  pose proof (strlen_range (name e)) as Hn.
  unfold chunks_size, central_dir_record, accepted, accepted_bytes.
  cbn [fmap list_fmap foldr fst snd]. rewrite !le_bytes_length by lia.
  rewrite length_take. lia.
Qed.

(** [_write_cd_file_header] for the entry [e] found at [entry_num]. *)
Lemma _write_cd_file_header_entry (z : zip_t) (entry_num : Z) (e : zip_entry_t) :
  va_get (entries z) entry_num = Done e ->
  _write_cd_file_header z entry_num
  = if fst (sink_write_all (out z) (central_dir_record e)) then
      Done (true,
            set_bytes_written
              (set_out z (snd (sink_write_all (out z) (central_dir_record e))))
              (size_t (bytes_written z + chunks_size (central_dir_record e))))
    else
      Done (false, set_out z (snd (sink_write_all (out z) (central_dir_record e)))).
Proof.
  intros Hget. unfold _write_cd_file_header. rewrite Hget. cbn [mbind outcome_bind].
  rewrite central_dir_record_size, <- central_dir_fields_chunks.
  set (n := strlen (name e)). rewrite sink_write_all_app.
  destruct (fst (sink_write_all (out z) (field_chunks (central_dir_fields e n)))) eqn:Hf.
  - rewrite (write_fields_accepts _ _ (central_dir_le_sizes e n) Hf).
    cbn [negb out set_out]. rewrite call_out_cb_eq.
    destruct (fst (sink_write_all _ [_])) eqn:Hn; cbn [negb]; [|reflexivity].
    cbn [bytes_written set_bytes_written set_out].
    change (fields_size (central_dir_fields e n)) with 46.
    rewrite (size_t_small 46) by lia. rewrite size_t_add_l, <- Z.add_assoc.
    reflexivity.
  - destruct (write_fields_rejects _ (out z) (central_dir_le_sizes e n)) as (c & Hw).
    { unfold accepts. now rewrite Hf. }
    rewrite Hw, Hf. reflexivity.
Qed.

(** The loop of [zip_end] from entry [i] on, when the callback accepts
    the records of the entries that remain. *)
Lemma zip_end_loop_accepted (n : nat) : forall (i : nat) (z : zip_t) (es : list zip_entry_t),
  represents (entries z) es -> (i + n)%nat = length es ->
  size_t (bytes_written z) = bytes_written z ->
  accepts (out z) (concat (central_dir_record <$> drop i es)) ->
  exists z',
    zip_end_loop n (Z.of_nat i) z = Done (true, z') /\
    out z' = snd (sink_write_all (out z) (concat (central_dir_record <$> drop i es))) /\
    bytes_written z'
    = size_t (bytes_written z + chunks_size (concat (central_dir_record <$> drop i es))) /\
    entries z' = entries z /\
    central_dir_offset z' = central_dir_offset z /\
    entry_opened z' = entry_opened z.
Proof.
  induction n as [|n IH]; intros i z es Hr Hlen Hb Hacc.
  - exists z. cbn [zip_end_loop]. rewrite drop_ge by lia. cbn.
    rewrite Z.add_0_r, Hb. auto 10.
  - assert (Hi : (i < length es)%nat) by lia.
    destruct (lookup_lt_is_Some_2 es i Hi) as (e & He).
    rewrite (drop_S es e i He) in Hacc |- *. cbn [fmap list_fmap concat] in Hacc |- *.
    apply accepts_app in Hacc as (Hacc1 & Hacc2).
    cbn [zip_end_loop].
    rewrite (_write_cd_file_header_entry z _ e (va_get_represents _ _ _ _ Hr He)).
    unfold accepts in Hacc1. rewrite Hacc1. cbn [mbind outcome_bind negb].
    replace (size_t (Z.of_nat i + 1)) with (Z.of_nat (S i)).
    2:{ destruct Hr as (Hl & Hc & Hle & _). rewrite size_t_small; lia. }
    destruct (IH (S i)
                 (set_bytes_written
                    (set_out z (snd (sink_write_all (out z) (central_dir_record e))))
                    (size_t (bytes_written z + chunks_size (central_dir_record e))))
                 es) as (z' & Hloop & Hout & Hbw & Hent & Hcd & Hop).
    + exact Hr.
    + lia.
    + cbn. apply size_t_idem.
    + exact Hacc2.
    + exists z'. split; [exact Hloop|].
      cbn [out bytes_written entries central_dir_offset entry_opened
           set_bytes_written set_out] in *.
      rewrite sink_write_all_app, Hacc1, chunks_size_app.
      rewrite size_t_add_l, <- Z.add_assoc in Hbw. auto 10.
Qed.

Lemma eocd_le_sizes (z : zip_t) : le_sizes (eocd_fields z).
Proof. unfold le_sizes, eocd_fields. repeat (constructor; [cbn; tauto|]). constructor. Qed.

(** [_write_eocd] when the callback accepts the record. *)
Lemma _write_eocd_accepted (z : zip_t) :
  accepts (out z) (field_chunks (eocd_fields z)) ->
  _write_eocd z = (true, set_out z (snd (sink_write_all (out z) (field_chunks (eocd_fields z))))).
Proof.
  intros Hacc. unfold _write_eocd.
  now rewrite (write_fields_accepts _ _ (eocd_le_sizes z) Hacc).
Qed.
End FinalizeFacts.

Section SequencingClaims.
Context `{Collaborators}.

(** C4.  Sequencing errors are rejected without a change of state:
    [zip_entry_add] while an entry is open returns failure and
    [zip_entry_update] with no entry open returns failure, each with the
    encoder (open entry, entry list, [bytes_written], [entry_opened],
    history of the callback) exactly as it was; [zip_entry_end] with no
    entry open returns success and changes nothing either. *)
Theorem sequencing_errors_change_nothing (fuel : nat) (z : zip_t) :
  (entry_opened z = true ->
   forall filename datetime, zip_entry_add z filename datetime = Done (false, z)) /\
  (entry_opened z = false ->
   forall data, zip_entry_update fuel z data = Done (false, z)) /\
  (entry_opened z = false -> zip_entry_end fuel z = Done (true, z)).
Proof.
  split; [|split].
  - intros Hopen filename datetime. unfold zip_entry_add. now rewrite Hopen.
  - intros Hopen data. unfold zip_entry_update. now rewrite Hopen.
  - intros Hopen. unfold zip_entry_end. now rewrite Hopen.
Qed.

(** C6.  With an entry open, [zip_entry_update] on an input of length
    zero returns success and leaves the encoder exactly as it was: the
    entry's CRC and size counters, [bytes_written], the entry list, the
    open state, and the history of the callback (nothing is passed to
    it). *)
Theorem zero_length_update_is_noop (fuel : nat) (z : zip_t) :
  entry_opened z = true -> zip_entry_update fuel z [] = Done (true, z).
Proof.
  intros Hopen. unfold zip_entry_update.
  rewrite Hopen. cbn [negb length Z.of_nat Z.eqb]. reflexivity.
Qed.
End SequencingClaims.

Lemma sequencing_errors_change_nothing_witness :
  @zip_entry_add Demo.demo (Demo.opened [] (0, 0)) [98] Demo.dt0
  = Done (false, Demo.opened [] (0, 0)) /\
  @zip_entry_update Demo.demo 2 (Demo.idle [] (0, 0)) [1; 2]
  = Done (false, Demo.idle [] (0, 0)) /\
  @zip_entry_end Demo.demo 2 (Demo.idle [] (0, 0)) = Done (true, Demo.idle [] (0, 0)).
Proof.
  destruct (@sequencing_errors_change_nothing Demo.demo 2 (Demo.opened [] (0, 0)))
    as (Hadd & _).
  destruct (@sequencing_errors_change_nothing Demo.demo 2 (Demo.idle [] (0, 0)))
    as (_ & Hupd & Hend).
  split; [apply Hadd; reflexivity|].
  split; [apply Hupd; reflexivity|apply Hend; reflexivity].
Defined.

Lemma zero_length_update_is_noop_witness :
  @zip_entry_update Demo.demo 0 (Demo.fed [] (0, 0)) [] = Done (true, Demo.fed [] (0, 0)).
Proof. apply zero_length_update_is_noop. reflexivity. Defined.

Section CloseEntryClaim.
Context `{Collaborators}.

Lemma varray_set_last_last {A : Type} (v v' : varray_t A) (x : A) :
  varray_set_last v x = Done v' -> varray_last v' = Done x.
Proof.
  unfold varray_set_last, varray_last. intros Hset.
  apply va_set_inv in Hset as ((Hi1 & Hi2) & Hi3 & ->). cbn [len].
  unfold va_get. cbn [capacity data].
  replace ((0 <=? size_t (len v - 1)) && (size_t (len v - 1) <? capacity v)) with true
    by (symmetry; apply andb_true_iff; split; [apply Z.leb_le|apply Z.ltb_lt]; lia).
  rewrite list_lookup_insert_eq by lia. reflexivity.
Qed.

Lemma _deflate_loop_last (fuel : nat) : forall (z : zip_t) (flush : Z) (ok : bool) (z' : zip_t),
  (exists e, varray_last (entries z) = Done e) ->
  _deflate_loop fuel z flush = Done (ok, z') ->
  exists e', varray_last (entries z') = Done e'.
Proof.
  induction fuel as [|fuel IH]; intros z flush ok z' Hlast Hrun; [discriminate|].
  cbn [_deflate_loop] in Hrun.
  destruct (deflate (stream z) flush) as [[ret produced] strm].
  destruct (ret <? 0); [injection Hrun as <- <-; exact Hlast|].
  destruct (call_out_cb _ produced) as [[|] s]; cbn [negb] in Hrun;
    [|injection Hrun as <- <-; exact Hlast].
  apply outcome_bind_Done in Hrun as (e0 & _ & Hrun).
  apply outcome_bind_Done in Hrun as (es1 & Hset & Hrun).
  apply varray_set_last_last in Hset.
  destruct (_ =? 0).
  - eapply IH; [|exact Hrun]. cbn. eauto.
  - injection Hrun as <- <-. cbn. eauto.
Qed.

Lemma _deflate_last (fuel : nat) (z : zip_t) (flush : Z) (data : list Z)
      (ok : bool) (z' : zip_t) :
  _deflate fuel z flush data = Done (ok, z') ->
  exists e', varray_last (entries z') = Done e'.
Proof.
  unfold _deflate. intros Hrun.
  apply outcome_bind_Done in Hrun as (e0 & _ & Hrun).
  apply outcome_bind_Done in Hrun as (es1 & Hset & Hrun).
  apply varray_set_last_last in Hset.
  eapply _deflate_loop_last; [|exact Hrun]. cbn. eauto.
Qed.

(** C3.  With an entry open, once the flush of the compressor has
    succeeded, [zip_entry_end] passes the data descriptor to the
    callback: the little-endian signature 0x08074b50, then the CRC-32,
    the compressed size and the uncompressed size of the current entry,
    each in four little-endian bytes; when the callback accepts them the
    call returns success with no entry open.  When the flush fails, or
    the callback rejects a field of the descriptor, the call returns
    failure and the entry stays open. *)
Theorem zip_entry_end_descriptor (fuel : nat) (z : zip_t) :
  entry_opened z = true ->
  (forall zf, _deflate fuel z Z_FINISH [] = Done (true, zf) ->
     exists ef, varray_last (entries zf) = Done ef /\
       (accepts (out zf) (data_descriptor_record ef) ->
        exists z', zip_entry_end fuel z = Done (true, z') /\
                   sink_log (out z')
                   = sink_log (out zf)
                     ++ accepted [le_bytes 0x08074b50 4; le_bytes (crc ef) 4;
                                  le_bytes (size_compressed ef) 4; le_bytes (size ef) 4] /\
                   entry_opened z' = false /\
                   entries z' = entries zf) /\
       (~ accepts (out zf) (data_descriptor_record ef) ->
        exists z', zip_entry_end fuel z = Done (false, z') /\ entry_opened z' = true)) /\
  (forall zf, _deflate fuel z Z_FINISH [] = Done (false, zf) ->
     zip_entry_end fuel z = Done (false, zf) /\ entry_opened zf = true).
Proof.
  intros Hopen. split.
  - intros zf Hflush.
    destruct (_deflate_last _ _ _ _ _ _ Hflush) as (ef & Hlast).
    destruct (_deflate_spec _ _ _ _ _ _ Hflush) as (new & _ & _ & _ & Ho & _).
    exists ef. split; [assumption|].
    rewrite (zip_entry_end_flushed fuel z zf ef Hopen Hflush Hlast).
    split; intros Hacc.
    + unfold accepts in Hacc. rewrite Hacc. eexists. split; [reflexivity|].
      cbn [out entries entry_opened set_entry_opened set_bytes_written set_out].
      rewrite (accepts_log _ _ Hacc). auto.
    + unfold accepts in Hacc. apply not_true_is_false in Hacc. rewrite Hacc.
      eexists. split; [reflexivity|]. cbn. congruence.
  - intros zf Hflush.
    destruct (_deflate_spec _ _ _ _ _ _ Hflush) as (new & _ & _ & _ & Ho & _).
    unfold zip_entry_end. rewrite Hopen, Hflush. cbn. split; [reflexivity|congruence].
Qed.
End CloseEntryClaim.

Lemma zip_entry_end_descriptor_witness :
  (exists z', @zip_entry_end Demo.demo 2 (Demo.fed [] (0, 0)) = Done (true, z') /\
              skipn 14 (sink_log (out z'))
              = accepted [[80; 75; 7; 8]; [98; 0; 0; 0]; [5; 0; 0; 0]; [5; 0; 0; 0]] /\
              entry_opened z' = false) /\
  (exists z', @zip_entry_end Demo.demo 2 (Demo.fed (replicate 15 true ++ [false]) (0, 0))
              = Done (false, z') /\ entry_opened z' = true) /\
  (exists z', @zip_entry_end Demo.demo 2 (Demo.opened [] (0, -2)) = Done (false, z') /\
              entry_opened z' = true).
Proof.
  split; [|split].
  - destruct (@zip_entry_end_descriptor Demo.demo 2 (Demo.fed [] (0, 0)))
      as (Hok & _); [vm_compute; reflexivity|].
    destruct (Hok (Demo.flushed [] (0, 0))) as (ef & Hlast & Hacc & _);
      [vm_compute; reflexivity|].
    vm_compute in Hlast. injection Hlast as <-.
    destruct Hacc as (z' & Hend & Hlog & Hclosed & _); [vm_compute; reflexivity|].
    exists z'. split; [exact Hend|]. split; [|exact Hclosed].
    rewrite Hlog. vm_compute. reflexivity.
  - destruct (@zip_entry_end_descriptor Demo.demo 2
                (Demo.fed (replicate 15 true ++ [false]) (0, 0)))
      as (Hok & _); [vm_compute; reflexivity|].
    destruct (Hok (Demo.flushed (replicate 15 true ++ [false]) (0, 0)))
      as (ef & Hlast & _ & Hrej); [vm_compute; reflexivity|].
    vm_compute in Hlast. injection Hlast as <-.
    apply Hrej. unfold accepts. vm_compute. discriminate.
  - destruct (@zip_entry_end_descriptor Demo.demo 2 (Demo.opened [] (0, -2)))
      as (_ & Hfail); [vm_compute; reflexivity|].
    destruct (Hfail (Demo.flushed_from (Demo.opened [] (0, -2))))
      as (Hend & Hopen); [vm_compute; reflexivity|].
    eexists. split; [exact Hend|exact Hopen].
Defined.

Section OpenEntryClaims.
Context `{Collaborators}.

Lemma strlen_take (s : list Z) : forall n : nat,
  Z.of_nat n <= strlen s -> strlen (take n s) = Z.of_nat n.
Proof.
  induction s as [|c s IH]; intros [|n] Hn; cbn [strlen take] in *; try lia.
  destruct (c =? 0); [lia|]. rewrite IH; lia.
Qed.

Lemma strlen_take_nul (s : list Z) : forall n : nat,
  Z.of_nat n <= strlen s -> strlen (take n s ++ [0]) = Z.of_nat n.
Proof.
  induction s as [|c s IH]; intros [|n] Hn; cbn [strlen take app] in *; try lia;
    try reflexivity.
  destruct (c =? 0); [lia|]. rewrite IH; lia.
Qed.

(** C10.  When the callback accepts every field of the local header and
    the name, and [deflateReset] then fails, [zip_entry_add] returns
    failure although the encoder has changed: the new entry record is the
    last of the entry list, [entry_opened] is true, and [bytes_written]
    has advanced by the size of the whole local header. *)
Theorem zip_entry_add_reset_failure (z : zip_t) (filename : list Z)
        (datetime : zip_datetime) (es : list zip_entry_t) :
  entry_opened z = false ->
  represents (entries z) es ->
  sizeof_varray_t + 2 * varray_len (entries z) * sizeof zip_entry_t < 2 ^ 64 ->
  accepts (out z) (local_header_record filename datetime) ->
  fst (deflateReset (stream z)) <> Z_OK ->
  exists z',
    zip_entry_add z filename datetime = Done (false, z') /\
    represents (entries z') (es ++ [opened_entry (bytes_written z) filename datetime]) /\
    zip_get_num_entries z' = zip_get_num_entries z + 1 /\
    entry_opened z' = true /\
    bytes_written z'
    = size_t (bytes_written z + chunks_size (local_header_record filename datetime)) /\
    sink_log (out z')
    = sink_log (out z) ++ accepted (local_header_record filename datetime) /\
    z' <> z.
Proof.
  intros Hopen Hr Hlen Hacc Hreset.
  destruct (zip_entry_add_accepted z filename datetime es Hopen Hr Hlen Hacc)
    as (z' & Hadd & Hr' & Ho & Hb & _ & Hout & _).
  exists z'. apply Z.eqb_neq in Hreset. rewrite Hreset in Hadd.
  split; [assumption|]. split; [assumption|].
  split.
  { unfold zip_get_num_entries, varray_len. destruct Hr as (-> & _), Hr' as (-> & _).
    rewrite length_app. cbn [length]. lia. }
  split; [assumption|]. split; [now rewrite local_header_record_size|].
  split; [rewrite Hout; now apply accepts_log|].
  intros ->. congruence.
Qed.

(** C5.  A name longer than 127 bytes is no error: [zip_entry_add]
    behaves on it exactly as on its first 127 bytes, so it succeeds
    whenever the callback accepts the local header and the compressor
    resets; the entry record then holds the first 127 bytes followed by a
    null character, and the local header carries the name length 127 and
    those 127 bytes. *)
Theorem long_names_are_truncated (z : zip_t) (filename : list Z) (datetime : zip_datetime) :
  ZIP_ENTRY_MAX_NAME_LEN < strlen filename ->
  zip_entry_add z filename datetime = zip_entry_add z (take 127 filename) datetime /\
  (forall es,
      entry_opened z = false ->
      represents (entries z) es ->
      sizeof_varray_t + 2 * varray_len (entries z) * sizeof zip_entry_t < 2 ^ 64 ->
      accepts (out z) (local_header_record filename datetime) ->
      fst (deflateReset (stream z)) = Z_OK ->
      exists z' e,
        zip_entry_add z filename datetime = Done (true, z') /\
        varray_last (entries z') = Done e /\
        name e = take 127 filename ++ [0] /\
        length (take 127 filename) = 127%nat /\
        strlen (name e) = 127 /\
        sink_log (out z')
        = sink_log (out z) ++ accepted (local_header_record filename datetime) /\
        local_header_record filename datetime !! 9%nat = Some (le_bytes 127 2) /\
        local_header_record filename datetime !! 11%nat = Some (take 127 filename)).
Proof.
  intros Hlong. unfold ZIP_ENTRY_MAX_NAME_LEN in Hlong.
  pose proof (strlen_range filename) as Hrange.
  assert (Hn : stored_name_len filename = 127)
    by (unfold stored_name_len, ZIP_ENTRY_MAX_NAME_LEN; lia).
  assert (Hn' : stored_name_len (take 127 filename) = 127).
  { unfold stored_name_len, ZIP_ENTRY_MAX_NAME_LEN.
    rewrite (strlen_take filename 127) by lia. lia. }
  split.
  - unfold zip_entry_add. rewrite !name_len_truncated, Hn, Hn'.
    change (Z.to_nat 127) with 127%nat. rewrite take_take, Nat.min_id. reflexivity.
  - intros es Hopen Hr Hlen Hacc Hreset.
    destruct (zip_entry_add_accepted z filename datetime es Hopen Hr Hlen Hacc)
      as (z' & Hadd & Hr' & _ & _ & _ & Hout & _).
    rewrite Hreset in Hadd. exists z', (opened_entry (bytes_written z) filename datetime).
    split; [exact Hadd|]. split; [exact (varray_last_represents _ _ _ Hr')|].
    unfold opened_entry, local_header_record. cbn [name]. rewrite Hn.
    change (Z.to_nat 127) with 127%nat.
    split; [reflexivity|]. split; [rewrite length_take; lia|].
    split; [apply (strlen_take_nul filename 127); lia|].
    split; [|split; reflexivity].
    rewrite Hout. unfold local_header_record in Hacc |- *. rewrite Hn in Hacc |- *.
    now apply accepts_log.
Qed.
End OpenEntryClaims.

Lemma zip_entry_add_reset_failure_witness :
  exists z',
    @zip_entry_add Demo.demo (Demo.idle [] (-2, 0)) [97; 46; 116; 120; 116] Demo.dt0
    = Done (false, z') /\
    zip_get_num_entries z' = 0 + 1 /\ entry_opened z' = true /\ bytes_written z' = 35.
Proof.
  destruct (@zip_entry_add_reset_failure Demo.demo (Demo.idle [] (-2, 0))
              [97; 46; 116; 120; 116] Demo.dt0 [])
    as (z' & Hadd & _ & Hnum & Hopen & Hbytes & _).
  - reflexivity.
  - unfold represents. vm_compute. repeat split; discriminate.
  - vm_compute. reflexivity.
  - reflexivity.
  - vm_compute. discriminate.
  - exists z'. repeat split; assumption.
Defined.

Lemma long_names_are_truncated_witness :
  exists z' e,
    @zip_entry_add Demo.demo (Demo.idle [] (0, 0)) (replicate 200 97) Demo.dt0
    = Done (true, z') /\
    varray_last (entries z') = Done e /\
    name e = replicate 127 97 ++ [0].
Proof.
  destruct (@long_names_are_truncated Demo.demo (Demo.idle [] (0, 0))
              (replicate 200 97) Demo.dt0) as (_ & Hstored).
  - vm_compute. reflexivity.
  - destruct (Hstored []) as (z' & e & Hadd & Hlast & Hname & _).
    + reflexivity.
    + unfold represents. vm_compute. repeat split; discriminate.
    + vm_compute. reflexivity.
    + vm_compute. reflexivity.
    + reflexivity.
    + exists z', e. repeat split; assumption.
Defined.

Section CycleFacts.
Context `{Collaborators}.

Lemma zip_init_idle (strm : z_stream zstate) (ctx : Ctx) (z0 : zip_t) :
  zip_init strm ctx = Done (true, z0) -> idle_with z0 [] /\ sink_log (out z0) = [].
Proof.
  unfold zip_init.
  destruct (@varray_init_represents zip_entry_t _ 1) as (v & Hv & Hr & _);
    [lia|vm_compute; reflexivity|].
  rewrite Hv. cbn [mbind outcome_bind stream].
  destruct (deflateInit2 _) as [r strm']. intros [= _ <-].
  unfold idle_with. cbn [entries entry_opened bytes_written out sink_log set_stream].
  split; [|reflexivity]. split; [exact Hr|]. split; reflexivity.
Qed.

Lemma zip_entry_add_opened (z z' : zip_t) (filename : list Z) (dt : zip_datetime)
      (es : list zip_entry_t) :
  idle_with z es ->
  zip_entry_add z filename dt = Done (true, z') ->
  represents (entries z') (es ++ [opened_entry (bytes_written z) filename dt]) /\
  entry_opened z' = true /\
  size_t (bytes_written z') = bytes_written z'.
Proof.
  intros (Hr & Hopen & Hb) Hadd.
  destruct (accepts_dec (out z) (local_header_record filename dt)) as [Hacc|Hrej].
  - rewrite (zip_entry_add_push z filename dt Hopen Hacc) in Hadd.
    apply outcome_bind_Done in Hadd as (v' & Hpush & Hadd).
    injection Hadd as _ <-. cbn [entries entry_opened bytes_written].
    destruct (varray_push_represents _ _ _ _ Hr Hpush) as (Hr' & _).
    split; [exact Hr'|]. split; [reflexivity|apply size_t_idem].
  - rewrite (zip_entry_add_rejected z filename dt Hopen Hrej) in Hadd. discriminate.
Qed.

Lemma feed_opened (fuel : nat) (chunks : list (list Z)) :
  forall (z z' : zip_t) (es : list zip_entry_t) (e : zip_entry_t),
    represents (entries z) (es ++ [e]) -> entry_opened z = true ->
    size_t (bytes_written z) = bytes_written z ->
    feed fuel z chunks = Done (true, z') ->
    exists e', represents (entries z') (es ++ [e']) /\ same_header e e' /\
               entry_opened z' = true /\
               size_t (bytes_written z') = bytes_written z'.
Proof.
  induction chunks as [|d chunks IH]; intros z z' es e Hr Hopen Hb Hfeed.
  - injection Hfeed as <-. exists e. auto using same_header_refl.
  - cbn [feed] in Hfeed.
    apply outcome_bind_Done in Hfeed as ([ok z1] & Hupd & Hfeed).
    destruct ok; cbn [negb] in Hfeed; [|discriminate].
    destruct d as [|b d].
    + rewrite (zip_entry_update_empty fuel z Hopen) in Hupd.
      injection Hupd as <-. eapply IH; eauto.
    + apply zip_entry_update_spec in Hupd as (new & _ & _ & Hbt & Ho & _ & He);
        [|assumption|discriminate].
      destruct (He _ _ Hr) as (sc & Hr' & _).
      assert (Hb1 : size_t (bytes_written z1) = bytes_written z1)
        by (rewrite (Hbt eq_refl); apply size_t_idem).
      destruct (IH z1 z' _ _ Hr' Ho Hb1 Hfeed) as (e' & Hr'' & Hsame & Hclosed & Hb').
      exists e'. split; [exact Hr''|]. split; [|auto].
      eapply same_header_trans; [|exact Hsame]. unfold same_header. cbn. auto.
Qed.

Lemma zip_entry_end_closed (fuel : nat) (z z' : zip_t) (es : list zip_entry_t)
      (e : zip_entry_t) :
  represents (entries z) (es ++ [e]) -> entry_opened z = true ->
  zip_entry_end fuel z = Done (true, z') ->
  exists e', idle_with z' (es ++ [e']) /\ same_header e e'.
Proof.
  intros Hr Hopen Hend.
  destruct (_deflate fuel z Z_FINISH []) as [[okf zf]| |] eqn:Hflush;
    try (unfold zip_entry_end in Hend; rewrite Hopen, Hflush in Hend; discriminate).
  destruct okf;
    [|unfold zip_entry_end in Hend; rewrite Hopen, Hflush in Hend; discriminate].
  destruct (_deflate_spec _ _ _ _ _ _ Hflush) as (new & _ & _ & _ & _ & _ & He).
  destruct (He _ _ Hr) as (sc & Hr' & _).
  rewrite (zip_entry_end_flushed fuel z zf _ Hopen Hflush (varray_last_represents _ _ _ Hr'))
    in Hend.
  destruct (fst (sink_write_all _ _)); [|discriminate].
  injection Hend as <-. eexists. split.
  - unfold idle_with. cbn. split; [exact Hr'|]. split; [reflexivity|apply size_t_idem].
  - unfold same_header. cbn. auto.
Qed.

Lemma run_cycle_idle (fuel : nat) (z z' : zip_t) (c : cycle) (es : list zip_entry_t) :
  idle_with z es ->
  run_cycle fuel z c = Done (true, z') ->
  exists e, idle_with z' (es ++ [e]) /\ offset e = uint32_t (bytes_written z).
Proof.
  intros Hidle Hrun. unfold run_cycle in Hrun.
  apply outcome_bind_Done in Hrun as ([ok za] & Hadd & Hrun).
  destruct ok; cbn [negb] in Hrun; [|discriminate].
  apply outcome_bind_Done in Hrun as ([ok zu] & Hfeed & Hrun).
  destruct ok; cbn [negb] in Hrun; [|discriminate].
  destruct (zip_entry_add_opened _ _ _ _ _ Hidle Hadd) as (Hr & Hopen & Hb).
  destruct (feed_opened _ _ _ _ _ _ Hr Hopen Hb Hfeed) as (e1 & Hr1 & Hs1 & Hopen1 & _).
  destruct (zip_entry_end_closed _ _ _ _ _ Hr1 Hopen1 Hrun) as (e2 & Hidle2 & Hs2).
  exists e2. split; [exact Hidle2|].
  destruct (same_header_trans _ _ _ Hs1 Hs2) as (-> & _). reflexivity.
Qed.

Lemma run_cycles_idle (fuel : nat) (cs : list cycle) :
  forall (z z' : zip_t) (starts : list Z) (es : list zip_entry_t),
    idle_with z es ->
    run_cycles fuel z cs = Done (true, z', starts) ->
    exists es', idle_with z' (es ++ es') /\ length es' = length cs /\
                offset <$> es' = uint32_t <$> starts.
Proof.
  induction cs as [|c cs IH]; intros z z' starts es Hidle Hrun.
  - injection Hrun as <- <-. exists []. rewrite app_nil_r. auto.
  - cbn [run_cycles] in Hrun.
    apply outcome_bind_Done in Hrun as ([ok z1] & Hcycle & Hrun).
    destruct ok; cbn [negb] in Hrun; [|discriminate].
    apply outcome_bind_Done in Hrun as ([[ok z2] starts'] & Hrest & Hrun).
    injection Hrun as -> <- <-.
    destruct (run_cycle_idle _ _ _ _ _ Hidle Hcycle) as (e & Hidle1 & Hoff).
    destruct (IH _ _ _ _ Hidle1 Hrest) as (es' & Hidle2 & Hlen & Hoffs).
    exists (e :: es'). rewrite <- app_assoc in Hidle2. split; [exact Hidle2|].
    cbn. rewrite Hlen, Hoff, Hoffs. auto.
Qed.

Lemma eocd_fields_chunks (z : zip_t) :
  field_chunks (eocd_fields z)
  = eocd_record (varray_len (entries z))
                (size_t (bytes_written z - central_dir_offset z))
                (central_dir_offset z).
Proof.
  unfold eocd_record, field_chunks, eocd_fields. cbn [fmap list_fmap fst snd].
  change (uint16_t (varray_len (entries z)))
    with (varray_len (entries z) mod 2 ^ (8 * 2)).
  change (uint32_t (size_t (bytes_written z - central_dir_offset z)))
    with (size_t (bytes_written z - central_dir_offset z) mod 2 ^ (8 * 4)).
  change (uint32_t (central_dir_offset z)) with (central_dir_offset z mod 2 ^ (8 * 4)).
  rewrite !le_bytes_mod by lia. reflexivity.
Qed.

(** [zip_end] on an idle encoder whose callback accepts what it is
    passed. *)
Lemma zip_end_accepted (z : zip_t) (es : list zip_entry_t) :
  idle_with z es ->
  (forall chunks, accepts (out z) chunks) ->
  exists z',
    zip_end z = Done (true, z') /\
    sink_log (out z')
    = sink_log (out z)
      ++ accepted (concat (central_dir_record <$> es)
                   ++ eocd_record (Z.of_nat (length es))
                                  (size_t (bytes_written z' - bytes_written z))
                                  (bytes_written z)) /\
    entries z' = entries z /\
    bytes_written z'
    = size_t (bytes_written z + chunks_size (concat (central_dir_record <$> es))).
Proof.
  intros (Hr & Hopen & Hb) Hall. unfold zip_end. rewrite Hopen.
  set (zc := set_central_dir_offset z (bytes_written z)).
  destruct (zip_end_loop_accepted (length es) 0 zc es) as (z1 & Hloop & Hout & Hbw & Hent & Hcd & _).
  { exact Hr. } { reflexivity. } { exact Hb. } { apply Hall. }
  rewrite drop_0 in Hout, Hbw.
  replace (Z.to_nat (varray_len (entries zc))) with (length es)
    by (destruct Hr as (Hl & _); unfold varray_len; cbn; lia).
  change (Z.of_nat 0) with 0 in Hloop. rewrite Hloop. cbn [mbind outcome_bind negb].
  unfold zc in Hout, Hbw, Hent, Hcd.
  cbn [out entries bytes_written central_dir_offset set_central_dir_offset]
    in Hout, Hbw, Hent, Hcd.
  set (dir := concat (central_dir_record <$> es)) in *.
  assert (Hacc : accepts (out z1) (field_chunks (eocd_fields z1))).
  { rewrite Hout. eapply accepts_app. apply Hall. }
  rewrite (_write_eocd_accepted z1 Hacc). eexists. split; [reflexivity|].
  cbn [out entries bytes_written set_out].
  rewrite (accepts_log _ _ Hacc), eocd_fields_chunks, Hout.
  rewrite (accepts_log _ _ (Hall dir)).
  rewrite Hcd, Hent.
  destruct Hr as (Hl & _). unfold varray_len. rewrite Hl.
  rewrite <- app_assoc, accepted_app. auto.
Qed.
End CycleFacts.

Section FinalizeClaim.
Context `{Collaborators}.

(** C2.  After [N] complete cycles of [zip_entry_add], updates and
    [zip_entry_end] on an initialised encoder, [zip_end] with a callback
    that accepts every write returns success having passed to the
    callback exactly [N] central directory records, one per entry in the
    order the entries were added, followed by the end of central
    directory record; the [local_header_offset] field of each record is
    the [offset] recorded in the entry, which is the value (as a 32-bit
    field) [bytes_written] had when the entry was opened; and
    [zip_get_num_entries] returns [N]. *)
Theorem finalize_writes_one_record_per_entry
        (fuel : nat) (strm : z_stream zstate) (ctx : Ctx)
        (cycles : list cycle) (z0 z : zip_t) (starts : list Z) :
  zip_init strm ctx = Done (true, z0) ->
  run_cycles fuel z0 cycles = Done (true, z, starts) ->
  (forall chunks, accepts (out z) chunks) ->
  exists (es : list zip_entry_t) (z' : zip_t),
    represents (entries z) es /\
    length es = length cycles /\
    offset <$> es = uint32_t <$> starts /\
    zip_end z = Done (true, z') /\
    sink_log (out z')
    = sink_log (out z)
      ++ accepted (concat (central_dir_record <$> es)
                   ++ eocd_record (Z.of_nat (length cycles))
                                  (size_t (bytes_written z' - bytes_written z))
                                  (bytes_written z)) /\
    (forall e, central_dir_record e !! 0%nat = Some (le_bytes 0x02014b50 4) /\
               central_dir_record e !! 16%nat = Some (le_bytes (offset e) 4) /\
               length (central_dir_record e) = 18%nat) /\
    zip_get_num_entries z' = Z.of_nat (length cycles).
Proof.
  intros Hinit Hrun Hall.
  destruct (zip_init_idle _ _ _ Hinit) as (Hidle0 & _).
  destruct (run_cycles_idle _ _ _ _ _ _ Hidle0 Hrun) as (es & Hidle & Hlen & Hoff).
  cbn [app] in Hidle.
  destruct (zip_end_accepted z es Hidle Hall) as (z' & Hend & Hlog & Hent & _).
  exists es, z'. pose proof Hidle as (Hr & _).
  split; [exact Hr|]. split; [exact Hlen|]. split; [exact Hoff|].
  split; [exact Hend|]. split; [now rewrite <- Hlen|].
  split; [intros e; repeat split|].
  unfold zip_get_num_entries, varray_len. rewrite Hent.
  destruct Hr as (-> & _). now rewrite Hlen.
Qed.
End FinalizeClaim.

Lemma demo_accepts_everything (s : @sink_t Demo.demo) (chunks : list (list Z)) :
  out_cb_ctx s = [] -> @accepts Demo.demo s chunks.
Proof.
  unfold accepts. revert s. induction chunks as [|d chunks IH]; intros [c log] Hc;
    [reflexivity|].
  cbn in Hc. subst c. cbn. now apply IH.
Qed.

Lemma finalize_writes_one_record_per_entry_witness :
  exists (es : list zip_entry_t) (z' : @zip_t Demo.demo),
    length es = 2%nat /\
    offset <$> es = [0; 56] /\
    @zip_end Demo.demo
(Demo.archive [] (0, 0))
    = Done (true, z') /\
    zip_get_num_entries z' = 2.
Proof.
  destruct (@finalize_writes_one_record_per_entry Demo.demo 2
              (Build_z_stream 0 [] (0, 0)) [] Demo.two_files
              (Demo.idle [] (0, 0))
              (Demo.archive [] (0, 0))
              [0; 56])
    as (es & z' & _ & Hlen & Hoff & Hend & _ & _ & Hnum).
  - vm_compute. reflexivity.
  - vm_compute. reflexivity.
  - intros chunks. apply demo_accepts_everything. vm_compute. reflexivity.
  - exists es, z'. repeat split; assumption.
Defined.

Section AccountingClaim.
Context `{Collaborators}.

Lemma Done_pair_inj {A B : Type} (a a' : A) (b b' : B) :
  Done (a, b) = Done (a', b') -> a = a' /\ b = b'.
Proof. intros [= -> ->]. auto. Qed.

Lemma _deflate_bytes_range (fuel : nat) (z : zip_t) (flush : Z) (data : list Z) ok z' :
  size_t (bytes_written z) = bytes_written z ->
  _deflate fuel z flush data = Done (ok, z') ->
  size_t (bytes_written z') = bytes_written z'.
Proof.
  unfold _deflate. intros Hb Hrun.
  apply outcome_bind_Done in Hrun as (e0 & _ & Hrun).
  apply outcome_bind_Done in Hrun as (es1 & _ & Hrun).
  eapply _deflate_loop_bytes_range; [|exact Hrun]. exact Hb.
Qed.

Lemma _deflate_bytes (fuel : nat) (z : zip_t) (flush : Z) (data : list Z) ok z' :
  size_t (bytes_written z) = bytes_written z ->
  _deflate fuel z flush data = Done (ok, z') ->
  exists new, sink_log (out z') = sink_log (out z) ++ new /\
              bytes_written z' = size_t (bytes_written z + accepted_bytes new).
Proof.
  intros Hb Hrun. pose proof (_deflate_bytes_range _ _ _ _ _ _ Hb Hrun) as Hb'.
  apply _deflate_spec in Hrun as (new & Hl & Hs & _).
  exists new. split; [exact Hl|]. now rewrite <- Hb'.
Qed.

Lemma data_descriptor_record_size (e : zip_entry_t) :
  chunks_size (data_descriptor_record e) = 16.
Proof.
  unfold chunks_size, data_descriptor_record, accepted, accepted_bytes.
  cbn [fmap list_fmap foldr fst snd]. rewrite !le_bytes_length by lia. reflexivity.
Qed.

(** A list of chunks that is not accepted whole: the chunks before the
    rejected one were accepted, and nothing was passed after it. *)
Lemma sink_write_all_rejected (chunks : list (list Z)) : forall s : sink_t,
  fst (sink_write_all s chunks) = false ->
  exists pre d rest,
    chunks = pre ++ d :: rest /\
    sink_log (snd (sink_write_all s chunks)) = sink_log s ++ accepted pre ++ [(d, false)].
Proof.
  induction chunks as [|d chunks IH]; intros s Hrej; [discriminate|].
  cbn [sink_write_all] in *. pose proof (call_out_cb_log s d) as Hlog.
  destruct (call_out_cb s d) as [[|] s1]; cbn [fst snd] in *.
  - destruct (IH s1 Hrej) as (pre & d' & rest & -> & Hl).
    exists (d :: pre), d', rest. split; [reflexivity|].
    rewrite Hl, Hlog, <- app_assoc. reflexivity.
  - exists [], d, chunks. split; [reflexivity|exact Hlog].
Qed.

(** C1 (as amended).  On an encoder whose [bytes_written] is a [size_t]
    value: a call of [zip_entry_add], [zip_entry_update] or
    [zip_entry_end] that returns success, and a central directory record
    written in full, advance [bytes_written] (modulo 2^64) by exactly
    the number of bytes the callback accepted during the call;
    [zip_entry_update] does so also when it fails.  A rejected write
    never changes [bytes_written]: a local header, data descriptor or
    central directory record that is rejected half-way leaves
    [bytes_written] where it was before the record, the fields accepted
    before the rejected one staying uncounted. *)
Theorem bytes_written_accounting (fuel : nat) (z : zip_t) :
  size_t (bytes_written z) = bytes_written z ->
  (forall filename datetime ok z',
      zip_entry_add z filename datetime = Done (ok, z') ->
      exists new,
        sink_log (out z') = sink_log (out z) ++ new /\
        (ok = true -> bytes_written z' = size_t (bytes_written z + accepted_bytes new)) /\
        (entry_opened z = false ->
         accepts (out z) (local_header_record filename datetime) ->
         bytes_written z' = size_t (bytes_written z + accepted_bytes new)) /\
        (~ accepts (out z) (local_header_record filename datetime) ->
         bytes_written z' = bytes_written z)) /\
  (forall data ok z',
      zip_entry_update fuel z data = Done (ok, z') ->
      exists new,
        sink_log (out z') = sink_log (out z) ++ new /\
        bytes_written z' = size_t (bytes_written z + accepted_bytes new)) /\
  (forall ok z',
      zip_entry_end fuel z = Done (ok, z') ->
      (entry_opened z = false /\ ok = true /\ z' = z) \/
      (entry_opened z = true /\
       exists okf zf flushed descriptor,
         _deflate fuel z Z_FINISH [] = Done (okf, zf) /\
         sink_log (out zf) = sink_log (out z) ++ flushed /\
         bytes_written zf = size_t (bytes_written z + accepted_bytes flushed) /\
         sink_log (out z') = sink_log (out zf) ++ descriptor /\
         (okf = false -> ok = false /\ z' = zf) /\
         (okf = true ->
          exists ef,
            varray_last (entries zf) = Done ef /\
            (ok = true ->
             descriptor = accepted (data_descriptor_record ef) /\
             bytes_written z'
             = size_t (bytes_written zf + accepted_bytes descriptor)) /\
            (ok = false ->
             (exists pre d rest,
                 data_descriptor_record ef = pre ++ d :: rest /\
                 descriptor = accepted pre ++ [(d, false)]) /\
             bytes_written z' = bytes_written zf)))) /\
  (forall entry_num ok z',
      _write_cd_file_header z entry_num = Done (ok, z') ->
      exists new,
        sink_log (out z') = sink_log (out z) ++ new /\
        (ok = true -> bytes_written z' = size_t (bytes_written z + accepted_bytes new)) /\
        (ok = false -> bytes_written z' = bytes_written z)).
Proof.
  intros Hb. split; [|split; [|split]].
  - intros filename datetime ok z' Hadd.
    destruct (entry_opened z) eqn:Hopen.
    { unfold zip_entry_add in Hadd. rewrite Hopen in Hadd. apply Done_pair_inj in Hadd as (<- & <-).
      exists []. rewrite app_nil_r. repeat split; try discriminate; auto. }
    destruct (accepts_dec (out z) (local_header_record filename datetime)) as [Hacc|Hrej].
    + rewrite (zip_entry_add_push z filename datetime Hopen Hacc) in Hadd.
      pose proof (local_header_record_size filename datetime) as Hsize.
      pose proof (accepts_log _ _ Hacc) as Hlog.
      set (rec := local_header_record filename datetime) in *.
      apply outcome_bind_Done in Hadd as (v' & _ & Hadd). apply Done_pair_inj in Hadd as (_ & <-).
      exists (accepted rec). cbn [out bytes_written].
      fold (chunks_size rec). rewrite Hsize. repeat split; auto; contradiction.
    + rewrite (zip_entry_add_rejected z filename datetime Hopen Hrej) in Hadd.
      destruct (sink_write_all_log (local_header_record filename datetime) (out z))
        as (new & Hnew).
      set (rec := local_header_record filename datetime) in *.
      apply Done_pair_inj in Hadd as (<- & <-). cbn [out bytes_written set_out].
      exists new. repeat split; auto; try discriminate; contradiction.
  - intros data ok z' Hupd.
    destruct (entry_opened z) eqn:Hopen.
    2:{ unfold zip_entry_update in Hupd. rewrite Hopen in Hupd. apply Done_pair_inj in Hupd as (<- & <-).
        exists []. rewrite app_nil_r, Z.add_0_r. auto. }
    destruct data as [|b data].
    { rewrite (zip_entry_update_empty fuel z Hopen) in Hupd. apply Done_pair_inj in Hupd as (<- & <-).
      exists []. rewrite app_nil_r, Z.add_0_r. auto. }
    unfold zip_entry_update in Hupd. rewrite Hopen in Hupd. cbn [negb] in Hupd.
    destruct (Z.of_nat (length (b :: data)) =? 0); [injection Hupd as <- <-|].
    { exists []. rewrite app_nil_r, Z.add_0_r. auto. }
    apply outcome_bind_Done in Hupd as (e0 & _ & Hupd).
    apply outcome_bind_Done in Hupd as (es1 & _ & Hupd).
    apply _deflate_bytes in Hupd; [exact Hupd|exact Hb].
  - intros ok z' Hend.
    destruct (entry_opened z) eqn:Hopen.
    2:{ unfold zip_entry_end in Hend. rewrite Hopen in Hend.
        apply Done_pair_inj in Hend as (<- & <-). left. auto. }
    right. split; [reflexivity|].
    destruct (_deflate fuel z Z_FINISH []) as [[okf zf]| |] eqn:Hflush;
      try (unfold zip_entry_end in Hend; rewrite Hopen, Hflush in Hend; discriminate).
    destruct (_deflate_bytes _ _ _ _ _ _ Hb Hflush) as (flushed & Hlog & Hbytes).
    exists okf, zf, flushed.
    destruct okf.
    + destruct (_deflate_last _ _ _ _ _ _ Hflush) as (ef & Hlast).
      rewrite (zip_entry_end_flushed fuel z zf ef Hopen Hflush Hlast) in Hend.
      destruct (fst (sink_write_all (out zf) (data_descriptor_record ef))) eqn:Hacc.
      * pose proof (accepts_log _ _ Hacc) as Hlog'.
        pose proof (data_descriptor_record_size ef) as Hsize.
        set (rec := data_descriptor_record ef) in *.
        apply Done_pair_inj in Hend as (<- & <-). exists (accepted rec).
        cbn [out bytes_written set_entry_opened set_bytes_written set_out].
        split; [reflexivity|]. split; [exact Hlog|]. split; [exact Hbytes|].
        split; [exact Hlog'|]. split; [discriminate|]. intros _.
        exists ef. split; [exact Hlast|]. split; [|discriminate]. intros _.
        split; [reflexivity|]. fold (chunks_size rec). now rewrite Hsize.
      * destruct (sink_write_all_rejected _ _ Hacc) as (pre & d & rest & Hrec & Hnew).
        set (rec := data_descriptor_record ef) in *.
        apply Done_pair_inj in Hend as (<- & <-).
        exists (accepted pre ++ [(d, false)]). cbn [out bytes_written set_out].
        split; [reflexivity|]. split; [exact Hlog|]. split; [exact Hbytes|].
        split; [exact Hnew|]. split; [discriminate|]. intros _.
        exists ef. split; [exact Hlast|]. split; [discriminate|]. intros _.
        split; [|reflexivity]. exists pre, d, rest. auto.
    + unfold zip_entry_end in Hend. rewrite Hopen, Hflush in Hend.
      apply Done_pair_inj in Hend as (<- & <-). exists []. rewrite app_nil_r.
      split; [reflexivity|]. split; [exact Hlog|]. split; [exact Hbytes|].
      split; [reflexivity|]. split; [auto|discriminate].
  - intros entry_num ok z' Hcd.
    destruct (va_get (entries z) entry_num) as [e| |] eqn:Hget;
      try (unfold _write_cd_file_header in Hcd; rewrite Hget in Hcd; discriminate).
    rewrite (_write_cd_file_header_entry z entry_num e Hget) in Hcd.
    destruct (fst (sink_write_all (out z) (central_dir_record e))) eqn:Hacc.
    + pose proof (accepts_log _ _ Hacc) as Hlog.
      set (rec := central_dir_record e) in *.
      apply Done_pair_inj in Hcd as (<- & <-). exists (accepted rec).
      cbn [out bytes_written set_bytes_written set_out].
      rewrite Hlog. repeat split; auto; discriminate.
    + destruct (sink_write_all_log (central_dir_record e) (out z)) as (new & Hnew).
      set (rec := central_dir_record e) in *.
      apply Done_pair_inj in Hcd as (<- & <-).
      exists new. cbn [out bytes_written set_out]. repeat split; auto; discriminate.
Qed.
End AccountingClaim.

(** C1 as it was stated fails on a write that is rejected in the middle of
    a record: the callback has accepted the first two fields of the local
    header, six bytes, and [bytes_written] is still zero. *)
Lemma bytes_written_mid_record_counterexample :
  exists z',
    @zip_entry_add Demo.demo (Demo.idle [true; true; false] (0, 0))
                   [97; 46; 116; 120; 116] Demo.dt0 = Done (false, z') /\
    sink_log (out z') = [([80; 75; 3; 4], true); ([20; 0], true); ([8; 0], false)] /\
    accepted_bytes (sink_log (out z')) = 6 /\
    bytes_written z' = 0 /\
    bytes_written z' <> accepted_bytes (sink_log (out z')).
Proof.
  eexists. split; [vm_compute; reflexivity|].
  split; [reflexivity|]. split; [reflexivity|]. split; [reflexivity|]. discriminate.
Qed.

Lemma bytes_written_accounting_witness :
  (exists new,
      sink_log (out (Demo.opened [] (0, 0))) = sink_log (out (Demo.idle [] (0, 0))) ++ new /\
      bytes_written (Demo.opened [] (0, 0))
      = size_t (bytes_written (Demo.idle [] (0, 0)) + accepted_bytes new)) /\
  (exists new,
      sink_log (out (Demo.fed [] (0, 0))) = sink_log (out (Demo.opened [] (0, 0))) ++ new /\
      bytes_written (Demo.fed [] (0, 0))
      = size_t (bytes_written (Demo.opened [] (0, 0)) + accepted_bytes new)) /\
  (exists zf descriptor,
      @_deflate Demo.demo 2 (Demo.fed (replicate 15 true ++ [false]) (0, 0)) Z_FINISH []
      = Done (true, zf) /\
      sink_log (out (Demo.closed (replicate 15 true ++ [false]) (0, 0)))
      = sink_log (out zf) ++ descriptor /\
      (exists ef pre d rest,
          varray_last (entries zf) = Done ef /\
          data_descriptor_record ef = pre ++ d :: rest /\
          descriptor = accepted pre ++ [(d, false)]) /\
      bytes_written (Demo.closed (replicate 15 true ++ [false]) (0, 0))
      = bytes_written zf) /\
  (exists new,
      sink_log (out (Demo.listed [] (0, 0))) = sink_log (out (Demo.closed [] (0, 0))) ++ new /\
      bytes_written (Demo.listed [] (0, 0))
      = size_t (bytes_written (Demo.closed [] (0, 0)) + accepted_bytes new)).
Proof.
  split; [|split; [|split]].
  - destruct (@bytes_written_accounting Demo.demo 2 (Demo.idle [] (0, 0)))
      as (Hadd & _); [vm_compute; reflexivity|].
    destruct (Hadd [97; 46; 116; 120; 116] Demo.dt0 true (Demo.opened [] (0, 0)))
      as (new & Hlog & Hbytes & _); [vm_compute; reflexivity|].
    exists new. split; [exact Hlog|exact (Hbytes eq_refl)].
  - destruct (@bytes_written_accounting Demo.demo 2 (Demo.opened [] (0, 0)))
      as (_ & Hupd & _); [vm_compute; reflexivity|].
    apply (Hupd [104; 101; 108; 108; 111] true (Demo.fed [] (0, 0))).
    vm_compute. reflexivity.
  - destruct (@bytes_written_accounting Demo.demo 2
                (Demo.fed (replicate 15 true ++ [false]) (0, 0)))
      as (_ & _ & Hend & _); [vm_compute; reflexivity|].
    destruct (Hend false (Demo.closed (replicate 15 true ++ [false]) (0, 0)))
      as [(Hclosed & _)|(_ & okf & zf & flushed & descriptor & Hflush & _ & _ & Hlog
                          & Hfail & Hdesc)];
      [vm_compute; reflexivity|discriminate Hclosed|].
    destruct okf.
    + destruct (Hdesc eq_refl) as (ef & Hlast & _ & Hrej).
      destruct (Hrej eq_refl) as ((pre & d & rest & Hrec & Hd) & Hbytes).
      exists zf, descriptor. split; [exact Hflush|]. split; [exact Hlog|].
      split; [exists ef, pre, d, rest; auto|exact Hbytes].
    + exfalso. vm_compute in Hflush. discriminate Hflush.
  - destruct (@bytes_written_accounting Demo.demo 2 (Demo.closed [] (0, 0)))
      as (_ & _ & _ & Hcd); [vm_compute; reflexivity|].
    destruct (Hcd 0 true (Demo.listed [] (0, 0))) as (new & Hlog & Hbytes & _);
      [vm_compute; reflexivity|].
    exists new. split; [exact Hlog|exact (Hbytes eq_refl)].
Defined.

(** What [zip_end] passes to the callback for the archive of the scenario:
    two central directory records of 51 bytes and the 22 bytes of the end
    of central directory record, of which [bytes_written] has counted the
    former. *)
Example zip_end_two_files :
  exists z',
    @zip_end Demo.demo (Demo.archive [] (0, 0)) = Done (true, z') /\
    bytes_written (Demo.archive [] (0, 0)) = 113 /\
    accepted_bytes (sink_log (out z'))
    = accepted_bytes (sink_log (out (Demo.archive [] (0, 0)))) + 2 * 51 + 22 /\
    bytes_written z' = 113 + 2 * 51.
Proof. eexists. split; [vm_compute; reflexivity|]. repeat split; vm_compute; reflexivity. Qed.

Section WidthClaim.
Context `{Collaborators}.


End WidthClaim.


(** * Further properties of the growable array *)

Section VarrayMore.
Context {A : Type} `{Sizeof A}.
Implicit Types (v : varray_t A) (xs ys : list A) (x : A).

(** Pushes onto any array in a proper state: the elements, and the
    capacity as a doubling of the one at the start. *)
Lemma push_all_represents ys : forall v xs v',
  represents v xs -> push_all v ys = Done v' ->
  represents v' (xs ++ ys) /\
  (exists j, 0 <= j /\ capacity v' = capacity v * 2 ^ j) /\
  (capacity v' = capacity v \/ capacity v' < 2 * len v').
Proof.
  induction ys as [|y ys IH] using rev_ind; intros v xs v' Hr Hp.
  - injection Hp as <-. rewrite app_nil_r. split; [assumption|].
    split; [exists 0; cbn; lia|now left].
  - apply push_all_snoc_inv in Hp as (w & Hw & Hp).
    destruct (IH _ _ _ Hr Hw) as (Hrw & (j & Hj & Hcap) & Hor).
    destruct (varray_push_represents _ _ _ _ Hrw Hp) as (Hr' & Hc').
    rewrite <- app_assoc in Hr'. split; [assumption|].
    pose proof Hrw as (Hlw & _ & Hlew & _). pose proof Hr' as (Hl' & _).
    rewrite !length_app in *. cbn [length] in *.
    destruct Hc' as [Hsame|(Hfull & Hdbl)].
    + split; [exists j; split; [lia|congruence]|].
      destruct Hor as [Hor|Hor]; [left; congruence|right; lia].
    + split; [exists (j + 1); split; [lia|rewrite pow2_succ by lia; lia]|].
      right. lia.
Qed.

Lemma push_all_Done_from ys : forall v xs,
  represents v xs ->
  sizeof_varray_t + 2 * (len v + Z.of_nat (length ys)) * sizeof A < 2 ^ 64 ->
  exists v', push_all v ys = Done v'.
Proof.
  pose proof (sizeof_range A) as Hs.
  induction ys as [|y ys IH] using rev_ind; intros v xs Hr Hlen.
  - eexists. reflexivity.
  - rewrite length_app in Hlen. cbn [length] in Hlen.
    destruct (IH v xs Hr) as (w & Hw); [nia|].
    destruct (push_all_represents _ _ _ _ Hr Hw) as (Hrw & _).
    destruct (varray_push_Done w _ y Hrw) as (v' & Hv').
    { destruct Hrw as (Hl & _). destruct Hr as (Hl0 & _).
      rewrite length_app in Hl. rewrite Hl. rewrite Hl0 in Hlen. nia. }
    exists v'. now rewrite push_all_snoc, Hw.
Qed.

Lemma push_all_room ys : forall v xs,
  represents v xs -> len v + Z.of_nat (length ys) <= capacity v ->
  exists v', push_all v ys = Done v' /\ capacity v' = capacity v /\
             represents v' (xs ++ ys).
Proof.
  induction ys as [|y ys IH] using rev_ind; intros v xs Hr Hlen.
  - exists v. rewrite app_nil_r. auto.
  - rewrite length_app in Hlen. cbn [length] in Hlen.
    destruct (IH v xs Hr) as (w & Hw & Hcw & Hrw); [lia|].
    destruct (varray_push_room w _ y Hrw) as (v' & Hv' & Hc').
    { destruct Hrw as (Hl & _). destruct Hr as (Hl0 & _).
      rewrite length_app in Hl. lia. }
    exists v'. rewrite push_all_snoc, Hw. split; [exact Hv'|]. split; [congruence|].
    rewrite app_assoc. eapply varray_push_represents; eassumption.
Qed.

Lemma varray_resize_represents v xs (n : Z) :
  represents v xs -> len v <= n -> 1 <= n ->
  sizeof_varray_t + n * sizeof A < 2 ^ 64 ->
  exists v', varray_resize v n = Done v' /\ represents v' xs /\
             capacity v' = n /\ len v' = len v.
Proof.
  intros (Hl & Hc & Hle & Hd & Ht & Ha) Hn Hn1 Hfit. pose proof (sizeof_range A) as Hs.
  unfold varray_resize, _varray_resize. rewrite alloc_exact by lia.
  cbn [mbind outcome_bind]. eexists. split; [reflexivity|].
  split; [|split; reflexivity].
  unfold represents. cbn [capacity len data]. rewrite length_resize.
  assert (n < 2 ^ 64) by (unfold sizeof_varray_t in Hfit; nia).
  split; [lia|]. split; [lia|]. split; [lia|]. split; [lia|]. split; [|lia].
  rewrite take_resize, Nat.min_l by lia. rewrite resize_le by lia. exact Ht.
Qed.

(** When the byte count wraps, the buffer has fewer slots than the
    capacity written in the header. *)
Lemma varray_resize_wrapped v (n : Z) v' :
  0 <= n -> 2 ^ 64 <= sizeof_varray_t + n * sizeof A ->
  varray_resize v n = Done v' ->
  capacity v' = n /\ Z.of_nat (length (data v')) < n.
Proof.
  intros Hn Hwrap Hres. pose proof (sizeof_range A) as Hs.
  unfold varray_resize, _varray_resize in Hres.
  apply outcome_bind_Done in Hres as (d & Hal & Hv). injection Hv as <-.
  cbn [capacity data]. split; [reflexivity|].
  apply alloc_inv in Hal as (_ & Hslots & _); [|lia].
  set (X := sizeof_varray_t + n * sizeof A) in *.
  assert (Hmod : size_t X <= X - 2 ^ 64).
  { unfold size_t. rewrite Z.mod_eq by lia.
    assert (1 <= X / 2 ^ 64) by (apply Z.div_le_lower_bound; lia). lia. }
  subst X. unfold sizeof_varray_t in *. nia.
Qed.

Lemma required_cap_loop_Done (k : nat) : forall c bound : Z,
  1 <= c < 2 ^ 64 -> bound <= 2 ^ 63 -> bound <= c * 2 ^ Z.of_nat k ->
  exists r j, required_cap_loop k c bound = Done r /\
              0 <= j /\ r = c * 2 ^ j /\ bound <= r /\ r < 2 ^ 64 /\
              (r = c \/ r < 2 * bound).
Proof.
  induction k as [|k IH]; intros c bound Hc Hb Hk.
  - cbn [required_cap_loop]. change (2 ^ Z.of_nat 0) with 1 in Hk.
    destruct (Z.ltb_spec c bound); [lia|].
    exists c, 0. cbn. repeat split; auto; lia.
  - cbn [required_cap_loop]. destruct (Z.ltb_spec c bound) as [Hlt|Hge].
    + rewrite size_t_small by lia.
      destruct (IH (c * 2) bound) as (r & j & Hloop & Hj & Hr & Hbr & Hr64 & Hor);
        [lia|lia|..].
      { rewrite Nat2Z.inj_succ, <- Z.add_1_r, pow2_succ in Hk by lia. lia. }
      exists r, (j + 1). rewrite pow2_succ by lia.
      repeat split; auto; lia.
    + exists c, 0. cbn. repeat split; auto; lia.
Qed.

Lemma required_cap_loop_stuck (fuel : nat) (bound : Z) :
  0 < bound -> required_cap_loop fuel 0 bound = OutOfFuel.
Proof.
  intros Hb. induction fuel as [|fuel IH]; cbn [required_cap_loop];
    destruct (Z.ltb_spec 0 bound); try lia; [reflexivity|exact IH].
Qed.

Lemma va_copy_Done ys : forall v (i : nat),
  Z.of_nat i + Z.of_nat (length ys) <= capacity v ->
  Z.of_nat (length (data v)) = capacity v ->
  exists d, va_copy v (Z.of_nat i) ys = Done (Build_varray (capacity v) (len v) d) /\
            length d = length (data v) /\
            take (i + length ys) d = take i (data v) ++ (Some <$> ys).
Proof.
  induction ys as [|y ys IH]; intros v i Hi Hd.
  - exists (data v). cbn [va_copy length fmap list_fmap].
    rewrite Nat.add_0_r, app_nil_r. destruct v; auto.
  - cbn [va_copy length] in *. rewrite va_set_Done by lia.
    cbn [mbind outcome_bind]. rewrite Nat2Z.id.
    replace (Z.of_nat i + 1) with (Z.of_nat (S i)) by lia.
    set (v1 := Build_varray _ _ _).
    destruct (IH v1 (S i)) as (d & Hcopy & Hlen & Htake).
    { subst v1. cbn [capacity]. lia. }
    { subst v1. cbn [capacity data]. rewrite length_insert. lia. }
    exists d. split; [exact Hcopy|]. subst v1. cbn [data] in *.
    rewrite length_insert in Hlen. split; [exact Hlen|].
    replace (i + S (length ys))%nat with (S i + length ys)%nat by lia.
    rewrite Htake. cbn [fmap list_fmap].
    rewrite (take_insert_snoc (data v) (take i (data v)) i (Some y)) by (auto; lia).
    now rewrite <- app_assoc.
Qed.

(** The copy of a whole input array of [n] elements to the slots from
    [len] on, when neither byte product wraps. *)
Lemma memcpy_elems_whole v ys (l : nat) :
  sizeof A * Z.of_nat l < 2 ^ 64 -> sizeof A * Z.of_nat (length ys) < 2 ^ 64 ->
  memcpy_elems v (size_t (sizeof A * Z.of_nat l)) ys
               (size_t (sizeof A * Z.of_nat (length ys))) (sizeof A)
  = va_copy v (Z.of_nat l) ys.
Proof.
  intros Hl Hn. pose proof (sizeof_range A) as Hs. unfold memcpy_elems.
  rewrite !size_t_small by nia.
  rewrite !(Z.mul_comm (sizeof A)), !Z.mod_mul, !Z.div_mul by lia.
  rewrite Z.eqb_refl, Z.leb_refl. cbn [andb].
  now rewrite Nat2Z.id, firstn_all.
Qed.

Lemma varray_append_spec (fuel : nat) v xs ys :
  represents v xs ->
  sizeof_varray_t + 2 * (len v + Z.of_nat (length ys)) * sizeof A < 2 ^ 64 ->
  (63 <= fuel)%nat ->
  exists v' j,
    varray_append fuel v ys (Z.of_nat (length ys)) = Done v' /\
    represents v' (xs ++ ys) /\
    0 <= j /\ capacity v' = capacity v * 2 ^ j /\
    (capacity v' = capacity v \/ capacity v' < 2 * len v').
Proof.
  intros Hr Hfit Hfuel. pose proof Hr as (Hl & Hc & Hle & Hd & Ht & Ha).
  pose proof (sizeof_range A) as Hs.
  assert (H16 : sizeof_varray_t = 16) by reflexivity.
  assert (Hlen : len v + Z.of_nat (length ys) < 2 ^ 63) by nia.
  unfold varray_append, _varray_append.
  rewrite (size_t_small (len v + _)) by lia.
  destruct (required_cap_loop_Done fuel (capacity v) (len v + Z.of_nat (length ys)))
    as (r & j & Hloop & Hj & Hrj & Hbr & Hr64 & Hor); [lia|lia|..].
  { assert (2 ^ 63 <= 2 ^ Z.of_nat fuel) by (apply Z.pow_le_mono_r; lia). nia. }
  rewrite Hloop. cbn [mbind outcome_bind].
  assert (Hpos : 0 < 2 ^ j) by (apply Z.pow_pos_nonneg; lia).
  assert (Hv1 : exists v1,
             (if capacity v <? r then
                data ← alloc (size_t (sizeof_varray_t + r * sizeof A)) (sizeof A) (data v);
                Done (Build_varray r (len v) data)
              else Done v) = Done v1 /\
             capacity v1 = r /\ len v1 = len v /\
             Z.of_nat (length (data v1)) = r /\
             take (length xs) (data v1) = Some <$> xs /\
             sizeof_varray_t + r * sizeof A < 2 ^ 64).
  { destruct (Z.ltb_spec (capacity v) r) as [Hgrow|Hkeep].
    - assert (Hrfit : sizeof_varray_t + r * sizeof A < 2 ^ 64)
        by (destruct Hor; [lia|nia]).
      rewrite alloc_exact by lia.
      cbn [mbind outcome_bind]. eexists. split; [reflexivity|].
      cbn [capacity len data]. rewrite length_resize.
      split; [reflexivity|]. split; [reflexivity|]. split; [lia|].
      split; [|exact Hrfit].
      rewrite take_resize, Nat.min_l by lia. rewrite resize_le by lia. exact Ht.
    - assert (Hrc : r = capacity v) by nia. exists v. rewrite Hrc. auto 10. }
  destruct Hv1 as (v1 & -> & Hc1 & Hl1 & Hd1 & Ht1 & Ha1). cbn [mbind outcome_bind].
  rewrite Hl1, Hl, memcpy_elems_whole by nia.
  destruct (va_copy_Done ys v1 (length xs)) as (d & Hcopy & Hdlen & Htake);
    [lia|lia|].
  rewrite Hcopy. cbn [mbind outcome_bind capacity len data].
  eexists _, j. split; [reflexivity|]. unfold represents. cbn [capacity len data].
  rewrite Hc1, Hl1, size_t_small by lia. rewrite length_app, fmap_app, Htake, Ht1.
  split; [|split; [exact Hj|split; [exact Hrj|lia]]].
  split; [lia|]. split; [lia|]. split; [lia|]. split; [lia|]. split; [reflexivity|].
  exact Ha1.
Qed.

Lemma doubling_unique (c m r1 r2 j1 j2 : Z) :
  1 <= c -> 0 <= j1 -> 0 <= j2 -> r1 = c * 2 ^ j1 -> r2 = c * 2 ^ j2 ->
  m <= r1 -> m <= r2 -> (r1 = c \/ r1 < 2 * m) -> (r2 = c \/ r2 < 2 * m) ->
  r1 = r2.
Proof.
  intros Hc Hj1 Hj2 -> -> Hm1 Hm2 Ho1 Ho2.
  assert (Hp1 : 0 < 2 ^ j1) by (apply Z.pow_pos_nonneg; lia).
  assert (Hp2 : 0 < 2 ^ j2) by (apply Z.pow_pos_nonneg; lia).
  destruct (Z.lt_trichotomy j1 j2) as [Hlt|[->|Hgt]]; [|reflexivity|].
  - assert (2 ^ (j1 + 1) <= 2 ^ j2) by (apply Z.pow_le_mono_r; lia).
    rewrite pow2_succ in * by lia. nia.
  - assert (2 ^ (j2 + 1) <= 2 ^ j1) by (apply Z.pow_le_mono_r; lia).
    rewrite pow2_succ in * by lia. nia.
Qed.

(** X1. Taking from an empty array is undefined: with no element stored,
    [varray_pop] and [varray_last] index the buffer at [(size_t)-1], which
    lies beyond every capacity. *)
Theorem varray_pop_last_empty v :
  represents v [] -> varray_pop v = Undefined /\ varray_last v = Undefined.
Proof.
  intros (Hl & Hc & _). change (len v = 0) in Hl.
  unfold varray_pop, varray_last, va_get. cbn [capacity len data]. rewrite Hl.
  change (size_t (0 - 1)) with (2 ^ 64 - 1).
  destruct (Z.ltb_spec (2 ^ 64 - 1) (capacity v)); [lia|].
  rewrite andb_false_r. split; reflexivity.
Qed.

(** X2. Pushing into room that is already there never reallocates: when
    the elements to push fit the capacity, every push returns, the
    capacity stays as it was and the array holds the old elements followed
    by the new ones. *)
Theorem push_all_within_capacity v xs ys :
  represents v xs -> varray_len v + Z.of_nat (length ys) <= varray_capacity v ->
  exists v', push_all v ys = Done v' /\
             varray_capacity v' = varray_capacity v /\
             varray_len v' = varray_len v + Z.of_nat (length ys) /\
             elems v' = Some <$> (xs ++ ys).
Proof.
  intros Hr Hroom. destruct (push_all_room ys v xs Hr Hroom) as (v' & Hp & Hc & Hr').
  exists v'. split; [exact Hp|]. split; [exact Hc|].
  split; [|now apply represents_elems].
  destruct Hr as (Hl & _), Hr' as (Hl' & _). unfold varray_len.
  rewrite length_app in Hl'. lia.
Qed.

(** X3. [varray_resize] to a capacity [n] that holds the elements, and
    whose byte count [sizeof( varray_t ) + n * sizeof( element )] fits a
    [size_t], keeps the elements and sets the capacity asked for, so that
    as many pushes as then fit do not reallocate.  A capacity below the
    length leaves the length as it was, and the last element is then out
    of the buffer.  When the byte count does not fit a [size_t], a call
    that returns leaves an array whose header says [n] and whose buffer
    has fewer than [n] slots. *)
Theorem varray_resize_keeps_elements v xs (n : Z) :
  represents v xs -> 1 <= n < 2 ^ 64 ->
  (varray_len v <= n -> sizeof_varray_t + n * sizeof A < 2 ^ 64 ->
   exists v', varray_resize v n = Done v' /\
              represents v' xs /\
              varray_capacity v' = n /\
              forall ys, varray_len v + Z.of_nat (length ys) <= n ->
                exists v'', push_all v' ys = Done v'' /\
                            varray_capacity v'' = n /\
                            elems v'' = Some <$> (xs ++ ys)) /\
  (n < varray_len v ->
   exists v', varray_resize v n = Done v' /\
              varray_len v' = varray_len v /\
              varray_last v' = Undefined) /\
  (2 ^ 64 <= sizeof_varray_t + n * sizeof A ->
   forall v', varray_resize v n = Done v' ->
              varray_capacity v' = n /\ Z.of_nat (length (data v')) < n).
Proof.
  intros Hr Hn. unfold varray_len, varray_capacity.
  pose proof (sizeof_range A) as Hs. split; [|split].
  - intros Hle Hfit.
    destruct (varray_resize_represents v xs n Hr Hle) as (v' & Hres & Hr' & Hc' & Hl');
      [lia|assumption|].
    exists v'. split; [exact Hres|]. split; [exact Hr'|]. split; [exact Hc'|].
    intros ys Hys.
    destruct (push_all_room ys v' xs Hr') as (v'' & Hp & Hc & Hr''); [lia|].
    exists v''. split; [exact Hp|]. split; [congruence|]. now apply represents_elems.
  - intros Hlt. destruct Hr as (Hl & Hc & Hle & Hd & Ht & Ha).
    unfold varray_resize, _varray_resize.
    rewrite alloc_exact by (unfold sizeof_varray_t in *; nia).
    cbn [mbind outcome_bind]. eexists. split; [reflexivity|]. split; [reflexivity|].
    unfold varray_last, va_get. cbn [capacity len data].
    rewrite size_t_small by lia.
    destruct (Z.ltb_spec (len v - 1) n); [lia|]. now rewrite andb_false_r.
  - intros Hwrap v' Hres. apply (varray_resize_wrapped v n v'); [lia|assumption..].
Qed.

(** X4. [varray_append] appends: on an array in a proper state, when the
    byte count of a buffer of twice the new length fits a [size_t], the
    doubling loop ends within 63 rounds and the call returns an array
    holding the old elements followed by the appended ones; the capacity
    is the old one doubled some number of times, and is the old one when
    the elements fit it. *)
Theorem _varray_append_appends (fuel : nat) v xs ys :
  represents v xs ->
  sizeof_varray_t + 2 * (varray_len v + Z.of_nat (length ys)) * sizeof A < 2 ^ 64 ->
  (63 <= fuel)%nat ->
  exists v', varray_append fuel v ys (Z.of_nat (length ys)) = Done v' /\
             varray_len v' = varray_len v + Z.of_nat (length ys) /\
             elems v' = Some <$> (xs ++ ys) /\
             (exists j, 0 <= j /\ varray_capacity v' = varray_capacity v * 2 ^ j) /\
             (varray_len v + Z.of_nat (length ys) <= varray_capacity v ->
              varray_capacity v' = varray_capacity v).
Proof.
  intros Hr Hlen Hfuel. unfold varray_len, varray_capacity in *.
  destruct (varray_append_spec fuel v xs ys Hr Hlen Hfuel)
    as (v' & j & Happ & Hr' & Hj & Hcap & Hor).
  exists v'. split; [exact Happ|].
  pose proof Hr as (Hl & Hc & _). pose proof Hr' as (Hl' & _).
  rewrite length_app in Hl'. split; [lia|].
  split; [now apply represents_elems|]. split; [eauto|].
  intros Hfit. destruct Hor as [Hor|Hor]; [exact Hor|].
  assert (Hpos : 0 < 2 ^ j) by (apply Z.pow_pos_nonneg; lia).
  destruct (Z.eq_dec j 0) as [->|Hj0]; [cbn in Hcap; lia|].
  assert (2 ^ 1 <= 2 ^ j) by (apply Z.pow_le_mono_r; lia).
  change (2 ^ 1) with 2 in *. nia.
Qed.

(** X5. Appending in one call and pushing one by one give the same array
    (when the byte count of a buffer of twice the new length fits a
    [size_t]): both return, with the same elements, the same length and
    the same capacity. *)
Theorem _varray_append_as_pushes (fuel : nat) v xs ys :
  represents v xs ->
  sizeof_varray_t + 2 * (varray_len v + Z.of_nat (length ys)) * sizeof A < 2 ^ 64 ->
  (63 <= fuel)%nat ->
  exists va vp, varray_append fuel v ys (Z.of_nat (length ys)) = Done va /\
                push_all v ys = Done vp /\
                elems va = elems vp /\
                varray_len va = varray_len vp /\
                varray_capacity va = varray_capacity vp.
Proof.
  intros Hr Hlen Hfuel. unfold varray_len, varray_capacity in *.
  destruct (varray_append_spec fuel v xs ys Hr Hlen Hfuel)
    as (va & j & Happ & Hra & Hj & Hcap & Hor).
  destruct (push_all_Done_from ys v xs Hr Hlen) as (vp & Hp).
  destruct (push_all_represents ys v xs vp Hr Hp) as (Hrp & (j' & Hj' & Hcap') & Hor').
  exists va, vp. split; [exact Happ|]. split; [exact Hp|].
  rewrite (represents_elems _ _ Hra), (represents_elems _ _ Hrp).
  split; [reflexivity|].
  pose proof Hra as (Hla & _ & Hlea & _). pose proof Hrp as (Hlp & _ & Hlep & _).
  split; [congruence|].
  destruct Hr as (_ & Hc & _).
  apply (doubling_unique (capacity v) (len va) _ _ j j'); auto; lia.
Qed.

(** X6. With no capacity the doubling loop of [_varray_append] never
    ends: after [varray_resize( ptr, 0 )] an append of at least one element
    does not return, whatever the number of rounds allowed. *)
Theorem _varray_append_no_capacity (fuel : nat) v ys :
  0 < size_t (varray_len v + Z.of_nat (length ys)) ->
  (v0 ← varray_resize v 0; varray_append fuel v0 ys (Z.of_nat (length ys)))
  = OutOfFuel.
Proof.
  intros Hb. unfold varray_resize, _varray_resize, alloc, varray_len in *.
  change (size_t (sizeof_varray_t + 0 * sizeof A) <? sizeof_varray_t) with false.
  cbn [mbind outcome_bind]. unfold varray_append, _varray_append.
  cbn [capacity len data]. now rewrite required_cap_loop_stuck.
Qed.
End VarrayMore.

Lemma varray_pop_last_empty_witness :
  varray_pop (Build_varray 4 0 [None; None; None; None] : varray_t Z) = Undefined /\
  varray_last (Build_varray 4 0 [None; None; None; None] : varray_t Z) = Undefined.
Proof.
  apply (varray_pop_last_empty (Build_varray 4 0 [None; None; None; None])).
  unfold represents. vm_compute. repeat split; discriminate.
Defined.

Lemma push_all_within_capacity_witness :
  exists v', push_all (Build_varray 4 1 [Some 10; None; None; None]) [20; 30] = Done v' /\
             varray_capacity v' = 4 /\ varray_len v' = 1 + 2 /\
             elems v' = Some <$> [10; 20; 30].
Proof.
  apply (push_all_within_capacity (Build_varray 4 1 [Some 10; None; None; None]) [10] [20; 30]).
  - unfold represents. vm_compute. repeat split; discriminate.
  - cbn. lia.
Defined.

Lemma varray_resize_keeps_elements_witness :
  (exists v', varray_resize (Build_varray 2 2 [Some 10; Some 20]) 8 = Done v' /\
              represents v' [10; 20] /\ varray_capacity v' = 8) /\
  (exists v', varray_resize (Build_varray 4 3 [Some 10; Some 20; Some 30; None]) 2
              = Done v' /\
              varray_len v' = 3 /\ varray_last v' = Undefined) /\
  (forall v', varray_resize (Build_varray 2 2 [Some 10; Some 20]) (2 ^ 62) = Done v' ->
              varray_capacity v' = 2 ^ 62 /\ Z.of_nat (length (data v')) < 2 ^ 62).
Proof.
  split; [|split].
  - destruct (varray_resize_keeps_elements (Build_varray 2 2 [Some 10; Some 20])
                [10; 20] 8) as ((v' & H1 & H2 & H3 & _) & _).
    + unfold represents. vm_compute. repeat split; discriminate.
    + lia.
    + cbn. lia.
    + vm_compute. reflexivity.
    + exists v'. auto.
  - apply (varray_resize_keeps_elements
             (Build_varray 4 3 [Some 10; Some 20; Some 30; None]) [10; 20; 30] 2).
    + unfold represents. vm_compute. repeat split; discriminate.
    + lia.
    + cbn. lia.
  - apply (varray_resize_keeps_elements (Build_varray 2 2 [Some 10; Some 20])
             [10; 20] (2 ^ 62)).
    + unfold represents. vm_compute. repeat split; discriminate.
    + lia.
    + vm_compute. discriminate.
Defined.

Lemma _varray_append_appends_witness :
  exists v', varray_append 63 (Build_varray 2 2 [Some 10; Some 20]) [30; 40; 50]
                           (Z.of_nat (length [30; 40; 50])) = Done v' /\
             varray_len v' = 2 + 3 /\
             elems v' = Some <$> [10; 20; 30; 40; 50].
Proof.
  destruct (_varray_append_appends 63 (Build_varray 2 2 [Some 10; Some 20]) [10; 20]
              [30; 40; 50]) as (v' & H1 & H2 & H3 & _).
  - unfold represents. vm_compute. repeat split; discriminate.
  - vm_compute. reflexivity.
  - lia.
  - exists v'. auto.
Defined.

Lemma _varray_append_as_pushes_witness :
  exists va vp,
    varray_append 63 (Build_varray 2 2 [Some 10; Some 20]) [30; 40; 50]
                  (Z.of_nat (length [30; 40; 50])) = Done va /\
    push_all (Build_varray 2 2 [Some 10; Some 20]) [30; 40; 50] = Done vp /\
    elems va = elems vp /\ varray_len va = varray_len vp /\
    varray_capacity va = varray_capacity vp.
Proof.
  apply (_varray_append_as_pushes 63 (Build_varray 2 2 [Some 10; Some 20]) [10; 20]).
  - unfold represents. vm_compute. repeat split; discriminate.
  - vm_compute. reflexivity.
  - lia.
Defined.

Lemma _varray_append_no_capacity_witness :
  (v0 ← varray_resize (Build_varray 2 2 [Some 10; Some 20]) 0;
   varray_append 1000 v0 [30] (Z.of_nat (length [30])))
  = OutOfFuel.
Proof.
  apply (_varray_append_no_capacity 1000 (Build_varray 2 2 [Some 10; Some 20]) [30]).
  vm_compute. reflexivity.
Defined.

(** * Further properties of the little-endian writers and of the
      MS-DOS date and time *)

Section LittleEndian.
Lemma le_split_combine (k : nat) : forall n : Z,
  le_combine (le_split k n) = n mod 2 ^ (8 * Z.of_nat k).
Proof.
  induction k as [|k IH]; intros n.
  - cbn. now rewrite Z.mod_1_r.
  - cbn [le_split le_combine]. rewrite IH.
    replace (8 * Z.of_nat (S k)) with (8 + 8 * Z.of_nat k) by lia.
    rewrite Z.pow_add_r by lia. change (2 ^ 8) with 256.
    assert (0 < 2 ^ (8 * Z.of_nat k)) by (apply Z.pow_pos_nonneg; lia).
    rewrite Z.rem_mul_r by lia. reflexivity.
Qed.

Lemma le_split_bytes (k : nat) : forall n : Z,
  Forall (fun b => 0 <= b < 256) (le_split k n).
Proof.
  induction k as [|k IH]; intros n; cbn [le_split]; constructor; [|apply IH].
  apply Z.mod_pos_bound. lia.
Qed.

Lemma le_bytes_combine (n sz : Z) :
  0 <= sz -> le_combine (le_bytes n sz) = n mod 2 ^ (8 * sz).
Proof.
  intros Hsz. unfold le_bytes. rewrite le_split_combine, Z2Nat.id by lia.
  apply Z.mod_mod. apply Z.pow_nonzero; lia.
Qed.
End LittleEndian.

Section LittleEndianWriters.
Context `{Collaborators}.

(** X7. The little-endian writers lose nothing but the bits beyond the
    width: for a width of 2, 4 or 8, [_write_le] makes one call of the
    callback with exactly that many bytes, each below 256, which read
    back least significant byte first give the value modulo 2^(8 * width);
    the counter advances by the width and the result is the callback's. *)
Theorem _write_le_round_trip (count : Z) (s : sink_t) (n sz : Z) :
  sz = 2 \/ sz = 4 \/ sz = 8 ->
  exists (d : list Z) (ok : bool) (s' : sink_t),
    _write_le count s n sz = (ok, size_t (count + sz), s') /\
    sink_log s' = sink_log s ++ [(d, ok)] /\
    Z.of_nat (length d) = sz /\
    Forall (fun b => 0 <= b < 256) d /\
    le_combine d = n mod 2 ^ (8 * sz).
Proof.
  intros Hsz. rewrite _write_le_chunk by exact Hsz.
  exists (le_bytes n sz), (fst (call_out_cb s (le_bytes n sz))),
         (snd (call_out_cb s (le_bytes n sz))).
  split; [reflexivity|]. split; [apply call_out_cb_log|].
  split; [apply le_bytes_length; lia|].
  split; [apply le_split_bytes|apply le_bytes_combine; lia].
Qed.
End LittleEndianWriters.

Section DosClosedForm.
Lemma packed_16 (x a b c : Z) (p q : Z) :
  0 < p < q -> q < 16 -> 0 <= x < 2 ^ 16 ->
  bit_field x 0 p = a -> bit_field x p (q - p) = b -> bit_field x q (16 - q) = c ->
  x = c * 2 ^ q + b * 2 ^ p + a.
Proof.
  intros Hp Hq Hx <- <- <-. unfold bit_field.
  rewrite !Z.shiftr_div_pow2 by lia. change (2 ^ 0) with 1. rewrite Z.div_1_r.
  assert (Hpp : 0 < 2 ^ p) by (apply Z.pow_pos_nonneg; lia).
  assert (Hqp : 0 < 2 ^ (q - p)) by (apply Z.pow_pos_nonneg; lia).
  assert (Hqq : 2 ^ q = 2 ^ p * 2 ^ (q - p)).
  { rewrite <- Z.pow_add_r by lia. f_equal. lia. }
  assert (H16 : 2 ^ 16 = 2 ^ q * 2 ^ (16 - q)).
  { rewrite <- Z.pow_add_r by lia. f_equal. lia. }
  assert (Hq16 : 0 < 2 ^ (16 - q)) by (apply Z.pow_pos_nonneg; lia).
  assert (Hhi : (x / 2 ^ q) mod 2 ^ (16 - q) = x / 2 ^ q).
  { apply Z.mod_small. split; [apply Z.div_pos; lia|].
    apply Z.div_lt_upper_bound; lia. }
  rewrite Hhi. rewrite Hqq at 1. rewrite <- Z.div_div by lia.
  pose proof (Z.div_mod x (2 ^ p) ltac:(lia)) as E1.
  pose proof (Z.div_mod (x / 2 ^ p) (2 ^ (q - p)) ltac:(lia)) as E2.
  rewrite Hqq. nia.
Qed.

Lemma _get_dos_date_value (dt : zip_datetime) :
  _get_dos_date dt
  = ((year dt - 1980) mod 128) * 512 + (month dt mod 16) * 32 + day dt mod 32.
Proof.
  apply (packed_16 _ _ _ _ 5 9); try lia.
  - apply uint16_t_range.
  - apply (bit_field_eq _ (day dt) 0 5); try lia. intros i Hi.
    rewrite _get_dos_date_testbit by lia.
    destruct (Z.ltb_spec (0 + i) 5); [f_equal; lia|lia].
  - apply (bit_field_eq _ (month dt) 5 4); try lia. intros i Hi.
    rewrite _get_dos_date_testbit by lia.
    destruct (Z.ltb_spec (5 + i) 5); [lia|].
    destruct (Z.ltb_spec (5 + i) 9); [f_equal; lia|lia].
  - apply (bit_field_eq _ (year dt - 1980) 9 7); try lia. intros i Hi.
    rewrite _get_dos_date_testbit by lia.
    destruct (Z.ltb_spec (9 + i) 5); [lia|].
    destruct (Z.ltb_spec (9 + i) 9); [lia|].
    destruct (Z.ltb_spec (9 + i) 16); [f_equal; lia|lia].
Qed.

Lemma _get_dos_time_value (dt : zip_datetime) :
  _get_dos_time dt
  = (hours dt mod 32) * 2048 + (minutes dt mod 64) * 32 + (seconds dt / 2) mod 32.
Proof.
  apply (packed_16 _ _ _ _ 5 11); try lia.
  - apply uint16_t_range.
  - apply (bit_field_eq _ (seconds dt / 2) 0 5); try lia. intros i Hi.
    rewrite _get_dos_time_testbit by lia.
    destruct (Z.ltb_spec (0 + i) 5); [f_equal; lia|lia].
  - apply (bit_field_eq _ (minutes dt) 5 6); try lia. intros i Hi.
    rewrite _get_dos_time_testbit by lia.
    destruct (Z.ltb_spec (5 + i) 5); [lia|].
    destruct (Z.ltb_spec (5 + i) 11); [f_equal; lia|lia].
  - apply (bit_field_eq _ (hours dt) 11 5); try lia. intros i Hi.
    rewrite _get_dos_time_testbit by lia.
    destruct (Z.ltb_spec (11 + i) 5); [lia|].
    destruct (Z.ltb_spec (11 + i) 11); [lia|].
    destruct (Z.ltb_spec (11 + i) 16); [f_equal; lia|lia].
Qed.

Lemma dos_range_value (dt : zip_datetime) :
  dos_range dt ->
  _get_dos_date dt = (year dt - 1980) * 512 + month dt * 32 + day dt /\
  _get_dos_time dt = hours dt * 2048 + minutes dt * 32 + seconds dt / 2 /\
  0 <= seconds dt / 2 <= 31.
Proof.
  intros (Hy & Hm & Hd & Hh & Hmi & Hs).
  rewrite _get_dos_date_value, _get_dos_time_value.
  assert (Hs2 : 0 <= seconds dt / 2 <= 31).
  { split; [apply Z.div_pos; lia|]. apply Z.lt_succ_r, Z.div_lt_upper_bound; lia. }
  rewrite !Z.mod_small by lia. auto.
Qed.

(** X8. For a datetime whose fields fit the MS-DOS formats (years 1980
    to 2107) nothing is lost but the odd second: the packed date is
    [(year - 1980) * 512 + month * 32 + day] and the packed time is
    [hours * 2048 + minutes * 32 + seconds / 2]. *)
Theorem dos_date_time_closed_form (dt : zip_datetime) :
  dos_range dt ->
  _get_dos_date dt = (year dt - 1980) * 512 + month dt * 32 + day dt /\
  _get_dos_time dt = hours dt * 2048 + minutes dt * 32 + seconds dt / 2.
Proof. intros Hr. destruct (dos_range_value dt Hr) as (Hd & Ht & _). auto. Qed.

(** X9. Packing keeps the order of time: for two datetimes that fit the
    formats, the packed dates compare as (year, month, day) compare, the
    packed times as (hours, minutes, seconds / 2) compare, and the two
    packed values are equal only for datetimes that agree up to the odd
    second. *)
Theorem dos_date_time_order (dt1 dt2 : zip_datetime) :
  dos_range dt1 -> dos_range dt2 ->
  (_get_dos_date dt1 < _get_dos_date dt2 <->
   year dt1 < year dt2 \/
   (year dt1 = year dt2 /\
    (month dt1 < month dt2 \/ (month dt1 = month dt2 /\ day dt1 < day dt2)))) /\
  (_get_dos_time dt1 < _get_dos_time dt2 <->
   hours dt1 < hours dt2 \/
   (hours dt1 = hours dt2 /\
    (minutes dt1 < minutes dt2 \/
     (minutes dt1 = minutes dt2 /\ seconds dt1 / 2 < seconds dt2 / 2)))) /\
  (_get_dos_date dt1 = _get_dos_date dt2 /\ _get_dos_time dt1 = _get_dos_time dt2 <->
   year dt1 = year dt2 /\ month dt1 = month dt2 /\ day dt1 = day dt2 /\
   hours dt1 = hours dt2 /\ minutes dt1 = minutes dt2 /\
   seconds dt1 / 2 = seconds dt2 / 2).
Proof.
  intros Hr1 Hr2.
  destruct (dos_range_value dt1 Hr1) as (-> & -> & Hs1).
  destruct (dos_range_value dt2 Hr2) as (-> & -> & Hs2).
  destruct Hr1 as (Hy1 & Hm1 & Hd1 & Hh1 & Hmi1 & _).
  destruct Hr2 as (Hy2 & Hm2 & Hd2 & Hh2 & Hmi2 & _).
  generalize dependent (seconds dt1 / 2). generalize dependent (seconds dt2 / 2).
  intros s2 Hs2 s1 Hs1. lia.
Qed.

(** X10. A year before 1980 is not rejected but wraps into the seven bits
    of the year field: a date from 1852 to 1979 packs to the value of the
    same day 128 years later. *)
Theorem dos_date_before_1980 (dt : zip_datetime) :
  1852 <= year dt <= 1979 ->
  _get_dos_date dt
  = _get_dos_date (Build_zip_datetime (year dt + 128) (month dt) (day dt)
                                      (hours dt) (minutes dt) (seconds dt)).
Proof.
  intros Hy. rewrite !_get_dos_date_value. cbn [year month day].
  replace (year dt + 128 - 1980) with (year dt - 1980 + 1 * 128) by lia.
  now rewrite Z.mod_add by lia.
Qed.

(** X11. The current datetime always fits the archive: when [localtime]
    fails, [zip_get_datetime] returns 2000-01-01 00:00:00, and for a
    calendar time from 1980 to 2107 (a leap second included) it returns
    a datetime whose packed date and time hold every field of the
    calendar time, the seconds halved. *)
Theorem zip_get_datetime_packs (localtime : option tm) :
  match localtime with
  | None => True
  | Some t =>
    80 <= tm_year t <= 207 /\ 0 <= tm_mon t <= 11 /\ 1 <= tm_mday t <= 31 /\
    0 <= tm_hour t <= 23 /\ 0 <= tm_min t <= 59 /\ 0 <= tm_sec t <= 60
  end ->
  exists dt,
    zip_get_datetime localtime = Done dt /\
    dos_range dt /\
    match localtime with
    | None =>
      dt = Build_zip_datetime 2000 1 1 0 0 0 /\
      _get_dos_date dt = 20 * 512 + 1 * 32 + 1 /\ _get_dos_time dt = 0
    | Some t =>
      _get_dos_date dt = (tm_year t - 80) * 512 + (tm_mon t + 1) * 32 + tm_mday t /\
      _get_dos_time dt = tm_hour t * 2048 + tm_min t * 32 + tm_sec t / 2
    end.
Proof.
  destruct localtime as [t|]; intros Hv.
  - destruct Hv as (Hy & Hm & Hd & Hh & Hmi & Hs).
    unfold zip_get_datetime, INT_MAX.
    destruct (Z.leb_spec (tm_year t + 1900) (2 ^ 31 - 1)); [|lia].
    destruct (Z.leb_spec (tm_mon t + 1) (2 ^ 31 - 1)); [|lia].
    cbn [andb]. eexists. split; [reflexivity|].
    unfold uint32_t. rewrite !Z.mod_small by lia.
    assert (Hr : dos_range (Build_zip_datetime (tm_year t + 1900) (tm_mon t + 1)
                              (tm_mday t) (tm_hour t) (tm_min t) (tm_sec t))).
    { unfold dos_range. cbn. lia. }
    split; [exact Hr|]. destruct (dos_range_value _ Hr) as (-> & -> & _).
    cbn [year month day hours minutes seconds]. lia.
  - eexists. split; [reflexivity|]. split; [unfold dos_range; cbn; lia|].
    split; [reflexivity|]. split; reflexivity.
Qed.
End DosClosedForm.

Lemma _write_le_round_trip_witness :
  exists (d : list Z) (ok : bool) (s' : @sink_t Demo.demo),
    @_write_le Demo.demo 0 (out (Demo.idle [] (0, 0))) (2 ^ 32 + 0x04034b50) 4
    = (ok, size_t (0 + 4), s') /\
    sink_log s' = sink_log (out (Demo.idle [] (0, 0))) ++ [(d, ok)] /\
    Z.of_nat (length d) = 4 /\
    Forall (fun b => 0 <= b < 256) d /\
    le_combine d = (2 ^ 32 + 0x04034b50) mod 2 ^ (8 * 4).
Proof.
  apply (@_write_le_round_trip Demo.demo 0 (out (Demo.idle [] (0, 0)))
           (2 ^ 32 + 0x04034b50) 4).
  right. left. reflexivity.
Defined.

Lemma dos_date_time_closed_form_witness :
  _get_dos_date Demo.dt0 = (2024 - 1980) * 512 + 1 * 32 + 15 /\
  _get_dos_time Demo.dt0 = 10 * 2048 + 30 * 32 + 0 / 2.
Proof.
  apply (dos_date_time_closed_form Demo.dt0).
  unfold dos_range. cbn. lia.
Defined.

Lemma dos_date_time_order_witness :
  _get_dos_date Demo.dt0 < _get_dos_date (Build_zip_datetime 2024 2 1 0 0 0).
Proof.
  apply (dos_date_time_order Demo.dt0 (Build_zip_datetime 2024 2 1 0 0 0)).
  - unfold dos_range. cbn. lia.
  - unfold dos_range. cbn. lia.
  - cbn. lia.
Defined.

Lemma dos_date_before_1980_witness :
  _get_dos_date (Build_zip_datetime 1970 1 1 0 0 0)
  = _get_dos_date (Build_zip_datetime 2098 1 1 0 0 0).
Proof.
  apply (dos_date_before_1980 (Build_zip_datetime 1970 1 1 0 0 0)).
  cbn. lia.
Defined.

Lemma zip_get_datetime_packs_witness :
  exists dt,
    zip_get_datetime (Some (Build_tm 59 30 10 15 0 124)) = Done dt /\
    dos_range dt /\
    _get_dos_date dt = (124 - 80) * 512 + (0 + 1) * 32 + 15 /\
    _get_dos_time dt = 10 * 2048 + 30 * 32 + 59 / 2.
Proof.
  apply (zip_get_datetime_packs (Some (Build_tm 59 30 10 15 0 124))).
  cbn. lia.
Defined.

(** * Further properties of the encoder: the calls of the callback *)

Section EncoderCalls.
Context `{Collaborators}.

Lemma stops_nil (ok : bool) : stops_at_rejection ok [].
Proof. exists [], []. cbn. auto. Qed.

Lemma stops_accepted (ok : bool) (chunks : list (list Z)) :
  stops_at_rejection ok (accepted chunks).
Proof. exists chunks, []. rewrite app_nil_r. auto. Qed.

Lemma stops_rejected (d : list Z) : stops_at_rejection false [(d, false)].
Proof.
  exists [], [(d, false)]. split; [reflexivity|]. split; [right; eauto|discriminate].
Qed.

Lemma stops_true (new : list sink_call) :
  stops_at_rejection true new -> exists chunks, new = accepted chunks.
Proof. intros (cs & tail & -> & _ & Ht). rewrite (Ht eq_refl), app_nil_r. eauto. Qed.

Lemma stops_app (ok : bool) (new1 new2 : list sink_call) :
  stops_at_rejection true new1 -> stops_at_rejection ok new2 ->
  stops_at_rejection ok (new1 ++ new2).
Proof.
  intros H1 (cs2 & tail & -> & Ht & Hok). apply stops_true in H1 as (cs1 & ->).
  exists (cs1 ++ cs2), tail. rewrite accepted_app, app_assoc. auto.
Qed.

Lemma sink_write_all_stops (chunks : list (list Z)) : forall s : sink_t,
  exists new,
    sink_log (snd (sink_write_all s chunks)) = sink_log s ++ new /\
    stops_at_rejection (fst (sink_write_all s chunks)) new.
Proof.
  induction chunks as [|d chunks IH]; intros s.
  - exists []. cbn. rewrite app_nil_r. split; [reflexivity|apply stops_nil].
  - cbn [sink_write_all]. pose proof (call_out_cb_log s d) as Hlog.
    destruct (call_out_cb s d) as [[|] s1]; cbn [fst snd] in *.
    + destruct (IH s1) as (new & Hn & Hs). exists ((d, true) :: new).
      rewrite Hn, Hlog, <- app_assoc. split; [reflexivity|].
      apply (stops_app _ [(d, true)] new); [apply (stops_accepted true [d])|exact Hs].
    + exists [(d, false)]. split; [exact Hlog|apply stops_rejected].
Qed.

Lemma varray_set_last_len {A : Type} (v v' : varray_t A) (x : A) :
  varray_set_last v x = Done v' -> len v' = len v /\ capacity v' = capacity v.
Proof.
  unfold varray_set_last. intros Hs. apply va_set_inv in Hs as (_ & _ & ->). auto.
Qed.

Lemma _deflate_loop_stops (fuel : nat) : forall (z : zip_t) (flush : Z) (ok : bool) (z' : zip_t),
  _deflate_loop fuel z flush = Done (ok, z') ->
  exists new,
    sink_log (out z') = sink_log (out z) ++ new /\
    stops_at_rejection ok new /\
    len (entries z') = len (entries z).
Proof.
  induction fuel as [|fuel IH]; intros z flush ok z' Hrun; [discriminate|].
  cbn [_deflate_loop] in Hrun.
  destruct (deflate (stream z) flush) as [[ret produced] strm].
  destruct (ret <? 0).
  { injection Hrun as <- <-. exists []. cbn. rewrite app_nil_r.
    split; [reflexivity|]. split; [apply stops_nil|reflexivity]. }
  cbn [out set_stream] in Hrun.
  pose proof (call_out_cb_log (out z) produced) as Hlog.
  destruct (call_out_cb (out z) produced) as [[|] s]; cbn [negb fst snd] in *.
  2:{ injection Hrun as <- <-. exists [(produced, false)]. cbn.
      split; [exact Hlog|]. split; [apply stops_rejected|reflexivity]. }
  apply outcome_bind_Done in Hrun as (e0 & Hlast & Hrun).
  apply outcome_bind_Done in Hrun as (es1 & Hset & Hrun).
  cbn [entries set_out set_stream] in Hlast, Hset.
  apply varray_set_last_len in Hset as (Hlen & _).
  destruct (_ =? 0).
  - apply IH in Hrun as (new & Hl & Hs & Hn).
    cbn [out entries bytes_written entry_opened central_dir_offset
         set_bytes_written set_entries set_out set_stream] in *.
    exists ((produced, true) :: new). rewrite Hl, Hlog, <- app_assoc.
    split; [reflexivity|]. split; [|congruence].
    apply (stops_app _ [(produced, true)] new);
      [apply (stops_accepted true [produced])|exact Hs].
  - injection Hrun as <- <-.
    cbn [out entries bytes_written entry_opened central_dir_offset
         set_bytes_written set_entries set_out set_stream].
    exists [(produced, true)]. split; [exact Hlog|].
    split; [apply (stops_accepted true [produced])|exact Hlen].
Qed.

Lemma _deflate_stops (fuel : nat) (z : zip_t) (flush : Z) (data : list Z)
      (ok : bool) (z' : zip_t) :
  _deflate fuel z flush data = Done (ok, z') ->
  exists new,
    sink_log (out z') = sink_log (out z) ++ new /\
    stops_at_rejection ok new /\
    len (entries z') = len (entries z).
Proof.
  unfold _deflate. intros Hrun.
  apply outcome_bind_Done in Hrun as (e0 & Hlast & Hrun).
  apply outcome_bind_Done in Hrun as (es1 & Hset & Hrun).
  apply varray_set_last_len in Hset as (Hlen & _).
  apply _deflate_loop_stops in Hrun as (new & Hl & Hs & Hn).
  cbn [out entries set_entries set_stream] in *.
  exists new. split; [exact Hl|]. split; [exact Hs|congruence].
Qed.

Lemma zip_entry_update_stops (fuel : nat) (z : zip_t) (data : list Z)
      (ok : bool) (z' : zip_t) :
  zip_entry_update fuel z data = Done (ok, z') ->
  exists new,
    sink_log (out z') = sink_log (out z) ++ new /\
    stops_at_rejection ok new /\
    len (entries z') = len (entries z).
Proof.
  unfold zip_entry_update. destruct (entry_opened z); cbn [negb].
  2:{ intros [= <- <-]. exists []. rewrite app_nil_r.
      split; [reflexivity|]. split; [apply stops_nil|reflexivity]. }
  destruct (_ =? 0).
  { intros [= <- <-]. exists []. rewrite app_nil_r.
    split; [reflexivity|]. split; [apply stops_nil|reflexivity]. }
  intros Hrun.
  apply outcome_bind_Done in Hrun as (e0 & Hlast & Hrun).
  apply outcome_bind_Done in Hrun as (es1 & Hset & Hrun).
  apply varray_set_last_len in Hset as (Hlen & _).
  apply _deflate_stops in Hrun as (new & Hl & Hs & Hn).
  cbn [out entries set_entries] in *.
  exists new. split; [exact Hl|]. split; [exact Hs|congruence].
Qed.

Lemma zip_entry_end_stops (fuel : nat) (z : zip_t) (ok : bool) (z' : zip_t) :
  zip_entry_end fuel z = Done (ok, z') ->
  exists new,
    sink_log (out z') = sink_log (out z) ++ new /\
    stops_at_rejection ok new /\
    len (entries z') = len (entries z).
Proof.
  destruct (entry_opened z) eqn:Hopen.
  2:{ unfold zip_entry_end. rewrite Hopen. cbn [negb]. intros [= <- <-].
      exists []. rewrite app_nil_r.
      split; [reflexivity|]. split; [apply stops_nil|reflexivity]. }
  intros Hrun.
  destruct (_deflate fuel z Z_FINISH []) as [[ok1 zf]| |] eqn:Hflush.
  2,3: unfold zip_entry_end in Hrun; rewrite Hopen, Hflush in Hrun; discriminate.
  destruct (_deflate_stops _ _ _ _ _ _ Hflush) as (new1 & Hl1 & Hs1 & Hn1).
  destruct ok1.
  - destruct (_deflate_last _ _ _ _ _ _ Hflush) as (ef & Hef).
    rewrite (zip_entry_end_flushed fuel z zf ef Hopen Hflush Hef) in Hrun.
    destruct (sink_write_all_stops (data_descriptor_record ef) (out zf))
      as (new2 & Hl2 & Hs2).
    destruct (fst (sink_write_all (out zf) _));
      apply Done_pair_inj in Hrun as (<- & <-);
      cbn [out entries set_out set_bytes_written set_entry_opened];
      exists (new1 ++ new2); rewrite Hl2, Hl1, app_assoc;
      (split; [reflexivity|]); (split; [apply stops_app; assumption|exact Hn1]).
  - unfold zip_entry_end in Hrun. rewrite Hopen, Hflush in Hrun.
    cbn [negb mbind outcome_bind] in Hrun. injection Hrun as <- <-.
    exists new1. auto.
Qed.

Lemma zip_entry_add_stops (z : zip_t) (filename : list Z) (dt : zip_datetime)
      (ok : bool) (z' : zip_t) :
  zip_entry_add z filename dt = Done (ok, z') ->
  exists new,
    sink_log (out z') = sink_log (out z) ++ new /\ stops_at_rejection ok new.
Proof.
  destruct (entry_opened z) eqn:Hopen.
  { unfold zip_entry_add. rewrite Hopen. intros [= <- <-].
    exists []. rewrite app_nil_r. split; [reflexivity|apply stops_nil]. }
  destruct (accepts_dec (out z) (local_header_record filename dt)) as [Hacc|Hrej].
  - rewrite (zip_entry_add_push z filename dt Hopen Hacc). intros Hrun.
    apply outcome_bind_Done in Hrun as (v' & Hpush & Hrun).
    apply Done_pair_inj in Hrun as (<- & <-). cbn [out].
    exists (accepted (local_header_record filename dt)).
    split; [apply accepts_log; exact Hacc|apply stops_accepted].
  - rewrite (zip_entry_add_rejected z filename dt Hopen Hrej).
    intros Hrun. apply Done_pair_inj in Hrun as (<- & <-). cbn [out set_out].
    destruct (sink_write_all_stops (local_header_record filename dt) (out z))
      as (new & Hl & Hs).
    exists new. split; [exact Hl|]. unfold accepts in Hrej.
    destruct (fst (sink_write_all _ _)); [congruence|exact Hs].
Qed.

Lemma _write_cd_file_header_stops (z : zip_t) (i : Z) (ok : bool) (z' : zip_t) :
  _write_cd_file_header z i = Done (ok, z') ->
  exists new,
    sink_log (out z') = sink_log (out z) ++ new /\
    stops_at_rejection ok new /\
    entries z' = entries z /\ entry_opened z' = entry_opened z /\
    stream z' = stream z.
Proof.
  intros Hrun. assert (exists e, va_get (entries z) i = Done e) as (e & He).
  { unfold _write_cd_file_header in Hrun.
    destruct (va_get (entries z) i) as [e| |]; [eauto|discriminate..]. }
  rewrite (_write_cd_file_header_entry z i e He) in Hrun.
  destruct (sink_write_all_stops (central_dir_record e) (out z)) as (new & Hl & Hs).
  destruct (fst (sink_write_all (out z) _));
    apply Done_pair_inj in Hrun as (<- & <-);
    cbn [out entries entry_opened stream set_out set_bytes_written];
    exists new; auto.
Qed.

Lemma zip_end_loop_stops (n : nat) : forall (i : Z) (z : zip_t) (ok : bool) (z' : zip_t),
  zip_end_loop n i z = Done (ok, z') ->
  exists new,
    sink_log (out z') = sink_log (out z) ++ new /\
    stops_at_rejection ok new /\
    entries z' = entries z /\ entry_opened z' = entry_opened z /\
    stream z' = stream z.
Proof.
  induction n as [|n IH]; intros i z ok z' Hrun.
  - apply Done_pair_inj in Hrun as (<- & <-). exists []. rewrite app_nil_r.
    split; [reflexivity|]. split; [apply stops_nil|auto].
  - cbn [zip_end_loop] in Hrun.
    apply outcome_bind_Done in Hrun as ([ok1 z1] & Hh & Hrun).
    apply _write_cd_file_header_stops in Hh as (new1 & Hl1 & Hs1 & He1 & Ho1 & Hst1).
    destruct ok1; cbn [negb] in Hrun.
    + apply IH in Hrun as (new2 & Hl2 & Hs2 & He2 & Ho2 & Hst2).
      exists (new1 ++ new2). rewrite Hl2, Hl1, app_assoc.
      split; [reflexivity|]. split; [apply stops_app; assumption|].
      repeat split; congruence.
    + apply Done_pair_inj in Hrun as (<- & <-). exists new1. auto.
Qed.

Lemma zip_end_stops (z : zip_t) (ok : bool) (z' : zip_t) :
  zip_end z = Done (ok, z') ->
  exists new,
    sink_log (out z') = sink_log (out z) ++ new /\
    stops_at_rejection ok new /\
    entries z' = entries z /\ entry_opened z' = entry_opened z /\
    stream z' = stream z.
Proof.
  unfold zip_end. destruct (entry_opened z) eqn:Hopen.
  { intros Hrun. apply Done_pair_inj in Hrun as (<- & <-). exists [].
    rewrite app_nil_r. split; [reflexivity|]. split; [apply stops_nil|auto]. }
  intros Hrun. apply outcome_bind_Done in Hrun as ([ok1 z1] & Hloop & Hrun).
  apply zip_end_loop_stops in Hloop as (new1 & Hl1 & Hs1 & He1 & Ho1 & Hst1).
  cbn [out entries entry_opened stream set_central_dir_offset] in *.
  destruct ok1; cbn [negb] in Hrun.
  - injection Hrun as Hrun. unfold _write_eocd in Hrun.
    destruct (write_fields_chunks (eocd_fields z1) 0 (out z1) (eocd_le_sizes z1) eq_refl)
      as (Hf & Hsnd & _).
    destruct (sink_write_all_stops (field_chunks (eocd_fields z1)) (out z1))
      as (new2 & Hl2 & Hs2).
    destruct (write_fields 0 (out z1) (eocd_fields z1)) as [[okw c] s].
    cbn [fst snd] in *. injection Hrun as <- <-.
    cbn [out entries entry_opened stream set_out].
    exists (new1 ++ new2). rewrite Hsnd, Hl2, Hl1, app_assoc, Hf.
    split; [reflexivity|]. split; [apply stops_app; assumption|].
    rewrite Ho1. auto.
  - apply Done_pair_inj in Hrun as (<- & <-). exists new1. rewrite Ho1. auto.
Qed.

(** X12. Every operation stops at the first write the callback rejects
    and reports it: the calls an operation makes are accepted calls
    followed by at most one rejected call, after which the callback is
    not called again, and an operation that returns true has made no
    rejected call. *)
Theorem calls_stop_at_rejection (fuel : nat) (z : zip_t) (ok : bool) (z' : zip_t) :
  (exists filename datetime, zip_entry_add z filename datetime = Done (ok, z')) \/
  (exists data, zip_entry_update fuel z data = Done (ok, z')) \/
  zip_entry_end fuel z = Done (ok, z') \/
  zip_end z = Done (ok, z') ->
  exists new,
    sink_log (out z') = sink_log (out z) ++ new /\ stops_at_rejection ok new.
Proof.
  intros [(filename & dt & Hrun)|[(data & Hrun)|[Hrun|Hrun]]].
  - exact (zip_entry_add_stops _ _ _ _ _ Hrun).
  - destruct (zip_entry_update_stops _ _ _ _ _ Hrun) as (new & Hl & Hs & _). eauto.
  - destruct (zip_entry_end_stops _ _ _ _ Hrun) as (new & Hl & Hs & _). eauto.
  - destruct (zip_end_stops _ _ _ Hrun) as (new & Hl & Hs & _). eauto.
Qed.

(** X13. Only a header that was written adds an entry: [zip_entry_add]
    adds one entry when no entry is open and the callback accepts the
    whole local header, and leaves the entry list as it was otherwise;
    [zip_entry_update] and [zip_entry_end] never change the number of
    entries; [zip_end] changes neither the entry list, nor the open flag,
    nor the compressor, whatever it returns. *)
Theorem entry_count_changes_only_on_add (fuel : nat) (z : zip_t) (ok : bool) (z' : zip_t) :
  (forall filename datetime es,
      represents (entries z) es ->
      zip_entry_add z filename datetime = Done (ok, z') ->
      if entry_opened z then entries z' = entries z
      else (accepts (out z) (local_header_record filename datetime) ->
            zip_get_num_entries z' = zip_get_num_entries z + 1) /\
           (~ accepts (out z) (local_header_record filename datetime) ->
            entries z' = entries z)) /\
  (forall data, zip_entry_update fuel z data = Done (ok, z') ->
                zip_get_num_entries z' = zip_get_num_entries z) /\
  (zip_entry_end fuel z = Done (ok, z') ->
   zip_get_num_entries z' = zip_get_num_entries z) /\
  (zip_end z = Done (ok, z') ->
   entries z' = entries z /\ entry_opened z' = entry_opened z /\ stream z' = stream z).
Proof.
  unfold zip_get_num_entries, varray_len. split; [|split; [|split]].
  - intros filename dt es Hr Hrun. destruct (entry_opened z) eqn:Hopen.
    { unfold zip_entry_add in Hrun. rewrite Hopen in Hrun.
      apply Done_pair_inj in Hrun as (_ & <-). reflexivity. }
    split.
    + intros Hacc. rewrite (zip_entry_add_push z filename dt Hopen Hacc) in Hrun.
      apply outcome_bind_Done in Hrun as (v' & Hpush & Hrun).
      apply Done_pair_inj in Hrun as (_ & <-). cbn [entries].
      destruct (varray_push_represents _ _ _ _ Hr Hpush) as ((Hl' & _) & _).
      destruct Hr as (Hl & _). rewrite length_app in Hl'. cbn [length] in Hl'. lia.
    + intros Hrej. rewrite (zip_entry_add_rejected z filename dt Hopen Hrej) in Hrun.
      apply Done_pair_inj in Hrun as (_ & <-). reflexivity.
  - intros data Hrun.
    destruct (zip_entry_update_stops _ _ _ _ _ Hrun) as (new & _ & _ & Hn). exact Hn.
  - intros Hrun.
    destruct (zip_entry_end_stops _ _ _ _ Hrun) as (new & _ & _ & Hn). exact Hn.
  - intros Hrun.
    destruct (zip_end_stops _ _ _ Hrun) as (new & _ & _ & He & Ho & Hst). auto.
Qed.
End EncoderCalls.

Lemma calls_stop_at_rejection_witness :
  exists new,
    sink_log (out (Demo.opened [true; true; false] (0, 0)))
    = sink_log (out (Demo.idle [true; true; false] (0, 0))) ++ new /\
    stops_at_rejection false new.
Proof.
  apply (@calls_stop_at_rejection Demo.demo 2 (Demo.idle [true; true; false] (0, 0))
           false (Demo.opened [true; true; false] (0, 0))).
  left. exists [97; 46; 116; 120; 116], Demo.dt0. vm_compute. reflexivity.
Defined.

Lemma entry_count_changes_only_on_add_witness :
  zip_get_num_entries (Demo.fed [] (0, 0)) = zip_get_num_entries (Demo.opened [] (0, 0)).
Proof.
  apply (@entry_count_changes_only_on_add Demo.demo 2 (Demo.opened [] (0, 0)) true
           (Demo.fed [] (0, 0))) with (data := [104; 101; 108; 108; 111]).
  vm_compute. reflexivity.
Defined.

(** * Further properties of the encoder: the members of an archive *)

Section StreamFacts.
Lemma stream_bytes_app (l1 l2 : list sink_call) :
  stream_bytes (l1 ++ l2) = stream_bytes l1 ++ stream_bytes l2.
Proof.
  unfold stream_bytes.
  induction l1 as [|[d [|]] l1 IH]; cbn; [reflexivity| |exact IH].
  now rewrite IH, app_assoc.
Qed.

Lemma stream_bytes_accepted (chunks : list (list Z)) :
  stream_bytes (accepted chunks) = concat chunks.
Proof.
  unfold stream_bytes.
  induction chunks as [|d chunks IH]; cbn; [reflexivity|now rewrite <- IH].
Qed.

Lemma stream_bytes_length (log : list sink_call) :
  Z.of_nat (length (stream_bytes log)) = accepted_bytes log.
Proof.
  unfold stream_bytes, accepted_bytes.
  induction log as [|[d [|]] log IH]; cbn [foldr fst snd]; [reflexivity| |exact IH].
  rewrite length_app, Nat2Z.inj_add, IH. reflexivity.
Qed.

Lemma mod64_mod32 (a : Z) : (a mod 2 ^ 64) mod 2 ^ 32 = a mod 2 ^ 32.
Proof.
  rewrite (Z.div_mod a (2 ^ 64)) at 2 by lia.
  replace (2 ^ 64 * (a / 2 ^ 64) + a mod 2 ^ 64)
    with (a mod 2 ^ 64 + (2 ^ 32 * (a / 2 ^ 64)) * 2 ^ 32) by lia.
  now rewrite Z.mod_add by lia.
Qed.

Lemma le_bytes_4_size_t (a : Z) : le_bytes (size_t a) 4 = le_bytes a 4.
Proof.
  rewrite <- (le_bytes_mod (size_t a)), <- (le_bytes_mod a) by lia.
  unfold size_t. change (8 * 4) with 32. now rewrite mod64_mod32.
Qed.

Lemma strlen_nonzero (s : list Z) : forall n : nat,
  Z.of_nat n <= strlen s -> Forall (fun b => b <> 0) (take n s).
Proof.
  induction s as [|c s IH]; intros [|n] Hn; cbn [take]; try constructor.
  - cbn [strlen] in Hn. destruct (Z.eqb_spec c 0); [lia|assumption].
  - apply IH. cbn [strlen] in Hn. destruct (Z.eqb_spec c 0); lia.
Qed.
End StreamFacts.

Section MemberFacts.
Context `{Collaborators}.

Lemma fed_crc_cons (c : Z) (d : list Z) (chunks : list (list Z)) :
  fed_crc c (d :: chunks)
  = fed_crc (if Z.of_nat (length d) =? 0 then c
             else uint32_t (crc32 c (take (Z.to_nat (uint32_t (Z.of_nat (length d)))) d)))
            chunks.
Proof. reflexivity. Qed.

Lemma zip_entry_add_true (z z' : zip_t) (filename : list Z) (dt : zip_datetime)
      (es : list zip_entry_t) :
  idle_with z es ->
  zip_entry_add z filename dt = Done (true, z') ->
  represents (entries z') (es ++ [opened_entry (bytes_written z) filename dt]) /\
  entry_opened z' = true /\
  bytes_written z' = size_t (bytes_written z + (30 + stored_name_len filename)) /\
  sink_log (out z') = sink_log (out z) ++ accepted (local_header_record filename dt).
Proof.
  intros (Hr & Hopen & Hbw) Hrun.
  destruct (accepts_dec (out z) (local_header_record filename dt)) as [Hacc|Hrej].
  2:{ rewrite (zip_entry_add_rejected z filename dt Hopen Hrej) in Hrun.
      apply Done_pair_inj in Hrun as (Hf & _). discriminate. }
  rewrite (zip_entry_add_push z filename dt Hopen Hacc) in Hrun.
  apply outcome_bind_Done in Hrun as (v' & Hpush & Hrun).
  apply Done_pair_inj in Hrun as (_ & <-).
  cbn [entries entry_opened bytes_written out].
  destruct (varray_push_represents _ _ _ _ Hr Hpush) as (Hr' & _).
  split; [exact Hr'|]. split; [reflexivity|]. split; [reflexivity|].
  apply accepts_log. exact Hacc.
Qed.

Lemma feed_result (fuel : nat) (chunks : list (list Z)) :
  forall (z z' : zip_t) (es : list zip_entry_t) (e : zip_entry_t) (S C B : Z),
    represents (entries z) (es ++ [e]) -> entry_opened z = true ->
    size e = uint32_t S -> size_compressed e = uint32_t C ->
    bytes_written z = size_t B ->
    feed fuel z chunks = Done (true, z') ->
    exists e' cs,
      represents (entries z') (es ++ [e']) /\ same_header e e' /\
      entry_opened z' = true /\
      sink_log (out z') = sink_log (out z) ++ accepted cs /\
      crc e' = fed_crc (crc e) chunks /\
      size e' = uint32_t (S + fed_size chunks) /\
      size_compressed e' = uint32_t (C + chunks_size cs) /\
      bytes_written z' = size_t (B + chunks_size cs).
Proof.
  induction chunks as [|d chunks IH]; intros z z' es e S C B Hr Hopen Hsize Hsc Hbw Hfeed.
  - apply Done_pair_inj in Hfeed as (_ & <-). exists e, [].
    change (accepted []) with (@nil sink_call). change (chunks_size []) with 0.
    change (fed_size []) with 0. rewrite app_nil_r, !Z.add_0_r.
    split; [exact Hr|]. split; [apply same_header_refl|]. auto 10.
  - cbn [feed] in Hfeed.
    apply outcome_bind_Done in Hfeed as ([ok1 z1] & Hupd & Hfeed).
    destruct ok1; cbn [negb] in Hfeed;
      [|apply Done_pair_inj in Hfeed as (Hf & _); discriminate].
    rewrite fed_crc_cons. cbn [fed_size foldr].
    destruct d as [|b d'].
    + rewrite (zip_entry_update_empty fuel z Hopen) in Hupd.
      apply Done_pair_inj in Hupd as (_ & <-).
      destruct (IH z z' es e S C B Hr Hopen Hsize Hsc Hbw Hfeed)
        as (e' & cs & H1 & H2 & H3 & H4 & H5 & H6 & H7 & H8).
      exists e', cs. cbn [length Z.of_nat Z.eqb]. rewrite Z.add_0_l.
      split; [exact H1|]. split; [exact H2|]. auto 10.
    + set (d := b :: d') in *.
      assert (Hd : d <> []) by discriminate.
      destruct (zip_entry_update_spec fuel z d true z1 Hopen Hd Hupd)
        as (new & Hl & _ & Hbt & Ho & _ & He).
      destruct (zip_entry_update_stops fuel z d true z1 Hupd) as (new' & Hl' & Hs' & _).
      apply stops_true in Hs' as (cs1 & ->).
      assert (new = accepted cs1) as ->.
      { rewrite Hl in Hl'. now apply app_inv_head in Hl'. }
      destruct (He es e Hr) as (sc & Hr1 & _ & Hsc1).
      specialize (Hbt eq_refl). specialize (Hsc1 eq_refl).
      set (e1 := set_size_compressed _ sc) in *.
      destruct (IH z1 z' es e1 (S + Z.of_nat (length d)) (C + chunks_size cs1)
                   (B + chunks_size cs1))
        as (e' & cs & H1 & H2 & H3 & H4 & H5 & H6 & H7 & H8); auto.
      { subst e1. cbn [size set_size_compressed set_size]. rewrite Hsize.
        apply uint32_t_add_l. }
      { subst e1. cbn [size_compressed set_size_compressed]. rewrite Hsc1, Hsc.
        apply uint32_t_add_l. }
      { rewrite Hbt, Hbw. apply size_t_add_l. }
      exists e', (cs1 ++ cs). rewrite chunks_size_app, accepted_app, !Z.add_assoc.
      assert (Hlen : (Z.of_nat (length d) =? 0) = false).
      { apply Z.eqb_neq. subst d. cbn [length]. lia. }
      rewrite Hlen.
      split; [exact H1|]. split.
      { apply (same_header_trans e e1 e'); [|exact H2].
        subst e1. unfold same_header. cbn. auto. }
      split; [exact H3|]. split; [rewrite H4, Hl; now rewrite app_assoc|].
      split; [exact H5|]. auto.
Qed.

Lemma zip_entry_end_true (fuel : nat) (z z' : zip_t) (es : list zip_entry_t)
      (e : zip_entry_t) (S C B : Z) :
  represents (entries z) (es ++ [e]) -> entry_opened z = true ->
  size e = uint32_t S -> size_compressed e = uint32_t C ->
  bytes_written z = size_t B ->
  zip_entry_end fuel z = Done (true, z') ->
  exists e' cs,
    idle_with z' (es ++ [e']) /\ same_header e e' /\
    crc e' = crc e /\ size e' = uint32_t S /\
    size_compressed e' = uint32_t (C + chunks_size cs) /\
    sink_log (out z') = sink_log (out z) ++ accepted (cs ++ data_descriptor_record e') /\
    bytes_written z' = size_t (B + chunks_size cs + 16).
Proof.
  intros Hr Hopen Hsize Hsc Hbw Hrun.
  destruct (_deflate fuel z Z_FINISH []) as [[ok1 zf]| |] eqn:Hflush.
  2,3: unfold zip_entry_end in Hrun; rewrite Hopen, Hflush in Hrun; discriminate.
  destruct ok1.
  2:{ unfold zip_entry_end in Hrun. rewrite Hopen, Hflush in Hrun.
      cbn [negb mbind outcome_bind] in Hrun.
      apply Done_pair_inj in Hrun as (Hf & _). discriminate. }
  destruct (_deflate_spec fuel z Z_FINISH [] true zf Hflush)
    as (new & Hl & _ & Hbt & Ho & _ & He).
  destruct (_deflate_stops fuel z Z_FINISH [] true zf Hflush) as (new' & Hl' & Hs' & _).
  apply stops_true in Hs' as (cs & ->).
  assert (new = accepted cs) as ->.
  { rewrite Hl in Hl'. now apply app_inv_head in Hl'. }
  destruct (He es e Hr) as (sc & Hrf & _ & Hscf).
  specialize (Hbt eq_refl). specialize (Hscf eq_refl).
  set (ef := set_size_compressed _ sc) in *.
  pose proof (varray_last_represents _ _ _ Hrf) as Hlast.
  rewrite (zip_entry_end_flushed fuel z zf ef Hopen Hflush Hlast) in Hrun.
  destruct (fst (sink_write_all (out zf) (data_descriptor_record ef))) eqn:Hacc;
    apply Done_pair_inj in Hrun as (Hf & <-); [|discriminate].
  exists ef, cs.
  cbn [out entries entry_opened bytes_written
       set_out set_bytes_written set_entry_opened].
  split.
  { unfold idle_with.
    cbn [out entries entry_opened bytes_written
         set_out set_bytes_written set_entry_opened].
    split; [exact Hrf|]. split; [reflexivity|apply size_t_idem]. }
  split; [subst ef; unfold same_header; cbn; auto|].
  split; [subst ef; reflexivity|].
  split.
  { subst ef. cbn [size set_size_compressed set_size length Z.of_nat].
    now rewrite Z.add_0_r, Hsize, uint32_t_idem. }
  split.
  { subst ef. cbn [size_compressed set_size_compressed].
    rewrite Hscf, Hsc. apply uint32_t_add_l. }
  split.
  { rewrite (accepts_log _ _ Hacc), Hl, accepted_app. now rewrite app_assoc. }
  rewrite Hbt, Hbw, size_t_add_l, <- Z.add_assoc, size_t_add_l, Z.add_assoc.
  reflexivity.
Qed.

Lemma run_cycle_result (fuel : nat) (z z' : zip_t) (c : cycle) (es : list zip_entry_t) :
  idle_with z es ->
  run_cycle fuel z c = Done (true, z') ->
  exists e cs,
    idle_with z' (es ++ [e]) /\
    same_header (opened_entry (bytes_written z) (cycle_name c) (cycle_datetime c)) e /\
    crc e = fed_crc (uint32_t (crc32 0 [])) (cycle_chunks c) /\
    size e = uint32_t (fed_size (cycle_chunks c)) /\
    size_compressed e = uint32_t (chunks_size cs) /\
    sink_log (out z')
    = sink_log (out z)
      ++ accepted (local_header_record (cycle_name c) (cycle_datetime c)
                   ++ cs ++ data_descriptor_record e) /\
    bytes_written z'
    = size_t (bytes_written z
              + chunks_size (local_header_record (cycle_name c) (cycle_datetime c)
                             ++ cs ++ data_descriptor_record e)).
Proof.
  intros Hidle Hrun. unfold run_cycle in Hrun.
  apply outcome_bind_Done in Hrun as ([ok1 z1] & Hadd & Hrun).
  destruct ok1; cbn [negb] in Hrun;
    [|apply Done_pair_inj in Hrun as (Hf & _); discriminate].
  apply outcome_bind_Done in Hrun as ([ok2 z2] & Hfeed & Hrun).
  destruct ok2; cbn [negb] in Hrun;
    [|apply Done_pair_inj in Hrun as (Hf & _); discriminate].
  destruct (zip_entry_add_true _ _ _ _ _ Hidle Hadd) as (Hr1 & Ho1 & Hb1 & Hl1).
  set (e0 := opened_entry _ _ _) in *.
  destruct (feed_result fuel (cycle_chunks c) z1 z2 es e0 0 0 _ Hr1 Ho1
              eq_refl eq_refl Hb1 Hfeed)
    as (e2 & cs2 & Hr2 & Hh2 & Ho2 & Hl2 & Hc2 & Hs2 & Hsc2 & Hb2).
  destruct (zip_entry_end_true fuel z2 z' es e2 _ _ _ Hr2 Ho2 Hs2 Hsc2 Hb2 Hrun)
    as (e & cs3 & Hidle' & Hh3 & Hc3 & Hs3 & Hsc3 & Hl3 & Hb3).
  exists e, (cs2 ++ cs3).
  split; [exact Hidle'|].
  split; [apply (same_header_trans e0 e2 e); assumption|].
  split; [rewrite Hc3, Hc2; reflexivity|].
  split; [rewrite Hs3; f_equal; lia|].
  split; [rewrite Hsc3, chunks_size_app; f_equal; lia|].
  split.
  { rewrite Hl3, Hl2, Hl1, !accepted_app, <- !app_assoc. reflexivity. }
  rewrite Hb3, !chunks_size_app, local_header_record_size, data_descriptor_record_size.
  f_equal. lia.
Qed.

Lemma run_cycles_layout (fuel : nat) (cs : list cycle) :
  forall (z zf : zip_t) (starts : list Z) (es : list zip_entry_t),
    idle_with z es -> all_counted z ->
    run_cycles fuel z cs = Done (true, zf, starts) ->
    all_counted zf /\
    (exists more, sink_log (out zf) = sink_log (out z) ++ more) /\
    (accepted_bytes (sink_log (out zf)) < 2 ^ 64 ->
     Forall2 (fun c st =>
                exists rest,
                  drop (Z.to_nat st) (stream_bytes (sink_log (out zf)))
                  = concat (local_header_record (cycle_name c) (cycle_datetime c))
                    ++ rest)
             cs starts).
Proof.
  induction cs as [|c cs IH]; intros z zf starts es Hidle Hcount Hrun.
  - apply Done_pair_inj in Hrun as (Hp & <-). injection Hp as <-.
    split; [exact Hcount|]. split; [exists []; now rewrite app_nil_r|].
    intros _. constructor.
  - cbn [run_cycles] in Hrun.
    apply outcome_bind_Done in Hrun as ([ok1 z1] & Hc & Hrun).
    destruct ok1; cbn [negb] in Hrun;
      [|apply Done_pair_inj in Hrun as (Hf & _); discriminate].
    apply outcome_bind_Done in Hrun as ([[ok2 z2] starts'] & Hrest & Hrun).
    apply Done_pair_inj in Hrun as (Hp & <-). injection Hp as -> ->.
    destruct (run_cycle_result fuel z z1 c es Hidle Hc)
      as (e & dcs & Hidle1 & _ & _ & _ & _ & Hl1 & Hb1).
    set (member := local_header_record _ _ ++ dcs ++ data_descriptor_record e) in *.
    assert (Hcount1 : all_counted z1).
    { unfold all_counted in *. rewrite Hb1, Hl1, Hcount, accepted_bytes_app.
      apply size_t_add_l. }
    destruct (IH z1 zf starts' _ Hidle1 Hcount1 Hrest) as (Hcf & (more & Hmore) & Hall).
    split; [exact Hcf|].
    split; [exists (accepted member ++ more); now rewrite Hmore, Hl1, <- app_assoc|].
    intros Hbound. constructor; [|exact (Hall Hbound)].
    rewrite Hmore, Hl1, <- app_assoc, !stream_bytes_app, stream_bytes_accepted.
    subst member. rewrite concat_app, <- app_assoc.
    eexists. rewrite Hcount.
    pose proof (accepted_bytes_nonneg (sink_log (out z))) as Hnn.
    rewrite Hmore, Hl1, !accepted_bytes_app in Hbound.
    pose proof (accepted_bytes_nonneg (accepted (local_header_record (cycle_name c) (cycle_datetime c) ++ dcs ++ data_descriptor_record e))).
    pose proof (accepted_bytes_nonneg more).
    rewrite size_t_small by lia.
    rewrite <- stream_bytes_length, Nat2Z.id, drop_app_length. reflexivity.
Qed.

Lemma zip_init_counted (strm : z_stream zstate) (ctx : Ctx) (z0 : zip_t) :
  zip_init strm ctx = Done (true, z0) -> all_counted z0.
Proof.
  unfold zip_init. cbn [stream]. destruct (deflateInit2 _) as [r s].
  intros [= _ <-]. reflexivity.
Qed.

(** X14. What a complete entry cycle leaves behind.  After
    [zip_entry_add], the updates and [zip_entry_end] have all returned
    true from an idle encoder, the output has received the local header,
    then compressed chunks, then the data descriptor, and nothing else;
    the entry appended to the list has the offset, name, time and date it
    was opened with, the running CRC of the chunks fed, their total length
    modulo 2^32 as its size and the total length of the compressed chunks
    modulo 2^32 as its compressed size; the counter has advanced by the
    bytes of the three parts, and the encoder is idle again. *)
Theorem run_cycle_writes_member (fuel : nat) (z z' : zip_t) (c : cycle)
        (es : list zip_entry_t) :
  idle_with z es ->
  run_cycle fuel z c = Done (true, z') ->
  exists e compressed,
    idle_with z' (es ++ [e]) /\
    offset e = uint32_t (bytes_written z) /\
    name e = take (Z.to_nat (stored_name_len (cycle_name c))) (cycle_name c) ++ [0] /\
    time e = _get_dos_time (cycle_datetime c) /\
    date e = _get_dos_date (cycle_datetime c) /\
    crc e = fed_crc (uint32_t (crc32 0 [])) (cycle_chunks c) /\
    size e = uint32_t (fed_size (cycle_chunks c)) /\
    size_compressed e = uint32_t (chunks_size compressed) /\
    sink_log (out z')
    = sink_log (out z)
      ++ accepted (local_header_record (cycle_name c) (cycle_datetime c)
                   ++ compressed ++ data_descriptor_record e) /\
    bytes_written z'
    = size_t (bytes_written z + (30 + stored_name_len (cycle_name c))
              + chunks_size compressed + 16).
Proof.
  intros Hidle Hrun.
  destruct (run_cycle_result fuel z z' c es Hidle Hrun)
    as (e & cs & Hidle' & (Ho & Hn & Ht & Hd) & Hc & Hs & Hsc & Hl & Hb).
  exists e, cs. cbn [offset name time date opened_entry] in Ho, Hn, Ht, Hd.
  repeat (split; [assumption|]).
  rewrite Hb, !chunks_size_app, local_header_record_size, data_descriptor_record_size.
  f_equal. lia.
Qed.

(** X15. The recorded offsets point at the local headers.  In an
    archive built from initialisation by complete entry cycles that all
    returned true, with fewer than 2^64 bytes accepted, the counter equals
    the number of bytes the callback has accepted, and at the position
    recorded when a member was opened the accepted bytes continue with the
    whole local header of that member, which begins with the signature
    50 4b 03 04. *)
Theorem offsets_point_at_local_headers
        (fuel : nat) (strm : z_stream zstate) (ctx : Ctx)
        (cycles : list cycle) (z0 z : zip_t) (starts : list Z) :
  zip_init strm ctx = Done (true, z0) ->
  run_cycles fuel z0 cycles = Done (true, z, starts) ->
  accepted_bytes (sink_log (out z)) < 2 ^ 64 ->
  bytes_written z = Z.of_nat (length (stream_bytes (sink_log (out z)))) /\
  Forall2 (fun c st =>
             (exists rest,
                 drop (Z.to_nat st) (stream_bytes (sink_log (out z)))
                 = concat (local_header_record (cycle_name c) (cycle_datetime c))
                   ++ rest) /\
             take 4 (drop (Z.to_nat st) (stream_bytes (sink_log (out z))))
             = [80; 75; 3; 4])
          cycles starts.
Proof.
  intros Hinit Hrun Hbound.
  destruct (zip_init_idle _ _ _ Hinit) as (Hidle & _).
  pose proof (zip_init_counted _ _ _ Hinit) as Hcount.
  destruct (run_cycles_layout fuel cycles z0 z starts [] Hidle Hcount Hrun)
    as (Hcz & _ & Hall).
  split.
  { rewrite stream_bytes_length. unfold all_counted in Hcz. rewrite Hcz.
    apply size_t_small. split; [apply accepted_bytes_nonneg|exact Hbound]. }
  eapply Forall2_impl; [exact (Hall Hbound)|].
  intros c st (rest & Hdrop). split; [eauto|]. rewrite Hdrop. reflexivity.
Qed.
End MemberFacts.

(** * Further properties of the encoder: the directory and the names *)

Section DirectoryFacts.
Context `{Collaborators}.

Lemma chunks_size_concat (chunks : list (list Z)) :
  chunks_size chunks = Z.of_nat (length (concat chunks)).
Proof.
  unfold chunks_size. now rewrite <- stream_bytes_length, stream_bytes_accepted.
Qed.

Lemma central_dir_size_chunks (es : list zip_entry_t) :
  chunks_size (concat (central_dir_record <$> es)) = central_dir_size es.
Proof.
  unfold central_dir_size. induction es as [|e es IH]; [reflexivity|].
  cbn [fmap list_fmap concat foldr].
  rewrite chunks_size_app, central_dir_record_size, IH. lia.
Qed.

Lemma eocd_record_size (n s o : Z) : chunks_size (eocd_record n s o) = 22.
Proof.
  unfold chunks_size, eocd_record, accepted, accepted_bytes.
  cbn [fmap list_fmap foldr fst snd]. rewrite !le_bytes_length by lia. lia.
Qed.

Lemma le_bytes_4_sub (a b : Z) : le_bytes (size_t a - b) 4 = le_bytes (a - b) 4.
Proof.
  rewrite <- (le_bytes_mod (size_t a - b)), <- (le_bytes_mod (a - b)) by lia.
  change (8 * 4) with 32. rewrite (Zminus_mod (size_t a)), (Zminus_mod a).
  unfold size_t. now rewrite mod64_mod32.
Qed.

Lemma opened_entry_name (bw : Z) (filename : list Z) (dt : zip_datetime) :
  strlen (name (opened_entry bw filename dt)) = stored_name_len filename /\
  take (Z.to_nat (stored_name_len filename)) (name (opened_entry bw filename dt))
  = take (Z.to_nat (stored_name_len filename)) filename.
Proof.
  destruct (stored_name_len_range filename) as ((Hn0 & Hn) & Hlen).
  assert (Hs : stored_name_len filename <= strlen filename)
    by (unfold stored_name_len; apply Z.le_min_l).
  cbn [name opened_entry]. split.
  - rewrite strlen_take_nul by lia. lia.
  - rewrite take_app_le by (rewrite length_take; lia).
    rewrite take_take. f_equal. lia.
Qed.

(** X16. The end record locates the directory that was written.  For an
    archive built from initialisation by complete entry cycles that all
    returned true, and a callback that keeps accepting, [zip_end] returns
    true after appending to the archive one directory record per entry
    and then the 22 bytes of the end record; the size field of the end
    record holds the number of bytes the directory records take, which is
    46 plus the name length for each entry, and its offset field holds
    the number of bytes accepted before the directory, both modulo
    2^32. *)
Theorem end_record_locates_directory
        (fuel : nat) (strm : z_stream zstate) (ctx : Ctx)
        (cycles : list cycle) (z0 z : zip_t) (starts : list Z) :
  zip_init strm ctx = Done (true, z0) ->
  run_cycles fuel z0 cycles = Done (true, z, starts) ->
  (forall chunks, accepts (out z) chunks) ->
  exists (es : list zip_entry_t) (z' : zip_t),
    represents (entries z) es /\
    length es = length cycles /\
    zip_end z = Done (true, z') /\
    stream_bytes (sink_log (out z'))
    = stream_bytes (sink_log (out z))
      ++ concat (concat (central_dir_record <$> es))
      ++ concat (eocd_record
                   (Z.of_nat (length cycles))
                   (Z.of_nat (length (concat (concat (central_dir_record <$> es)))))
                   (Z.of_nat (length (stream_bytes (sink_log (out z)))))) /\
    Z.of_nat (length (concat (concat (central_dir_record <$> es)))) = central_dir_size es /\
    forall n s o, Z.of_nat (length (concat (eocd_record n s o))) = 22.
Proof.
  intros Hinit Hrun Hall.
  destruct (zip_init_idle _ _ _ Hinit) as (Hidle0 & _).
  pose proof (zip_init_counted _ _ _ Hinit) as Hcount0.
  destruct (run_cycles_idle _ _ _ _ _ _ Hidle0 Hrun) as (es & Hidle & Hlen & _).
  destruct (run_cycles_layout fuel cycles z0 z starts [] Hidle0 Hcount0 Hrun)
    as (Hcount & _ & _).
  rewrite app_nil_l in Hidle.
  destruct (zip_end_accepted z es Hidle Hall) as (z' & Hend & Hlog & _ & Hbw).
  exists es, z'. split; [apply Hidle|]. split; [exact Hlen|]. split; [exact Hend|].
  split; [|split].
  - rewrite Hlog, stream_bytes_app, stream_bytes_accepted, concat_app.
    f_equal. f_equal. f_equal. unfold eocd_record. rewrite Hlen.
    assert (HS : le_bytes (size_t (bytes_written z' - bytes_written z)) 4
                 = le_bytes (Z.of_nat (length (concat (concat (central_dir_record <$> es))))) 4).
    { rewrite le_bytes_4_size_t, Hbw, le_bytes_4_sub, <- chunks_size_concat.
      f_equal. lia. }
    assert (HO : le_bytes (bytes_written z) 4
                 = le_bytes (Z.of_nat (length (stream_bytes (sink_log (out z))))) 4).
    { unfold all_counted in Hcount.
      now rewrite Hcount, le_bytes_4_size_t, stream_bytes_length. }
    now rewrite HS, HO.
  - rewrite <- chunks_size_concat. apply central_dir_size_chunks.
  - intros n s o. rewrite <- chunks_size_concat. apply eocd_record_size.
Qed.

(** X17. Names are stored consistently.  A successful [zip_entry_add]
    passes to the callback the eleven fields of the local header and then
    the name bytes [nm]: the first min(strlen(filename), 127) bytes of
    [filename], none of them null, their number being the tenth field.
    The entry it appends stores exactly these bytes followed by the null
    terminator, in at most 128 bytes.  And whenever an entry with this
    stored name is written to the central directory and the callback
    accepts it, [_write_cd_file_header] passes seventeen fields and then
    the same name bytes, the eleventh field being the same length. *)
Theorem stored_name_consistent (z z' : zip_t) (filename : list Z) (dt : zip_datetime)
        (es : list zip_entry_t) :
  idle_with z es ->
  zip_entry_add z filename dt = Done (true, z') ->
  exists (e : zip_entry_t) (nm : list Z) (hdr : list (list Z)),
    varray_last (entries z') = Done e /\
    Z.of_nat (length nm) = Z.min (strlen filename) ZIP_ENTRY_MAX_NAME_LEN /\
    nm = take (length nm) filename /\
    Forall (fun b => b <> 0) nm /\
    name e = nm ++ [0] /\
    (length (name e) <= 128)%nat /\
    strlen (name e) = Z.of_nat (length nm) /\
    sink_log (out z') = sink_log (out z) ++ accepted (hdr ++ [nm]) /\
    length hdr = 11%nat /\
    hdr !! 9%nat = Some (le_bytes (Z.of_nat (length nm)) 2) /\
    (forall (zz : zip_t) (i : Z) (e' : zip_entry_t),
        va_get (entries zz) i = Done e' ->
        name e' = name e ->
        accepts (out zz) (central_dir_record e') ->
        exists zz' cd,
          _write_cd_file_header zz i = Done (true, zz') /\
          sink_log (out zz') = sink_log (out zz) ++ accepted (cd ++ [nm]) /\
          length cd = 17%nat /\
          cd !! 10%nat = Some (le_bytes (Z.of_nat (length nm)) 2)).
Proof.
  intros Hidle Hadd.
  destruct (zip_entry_add_true _ _ _ _ _ Hidle Hadd) as (Hr & _ & _ & Hlog).
  set (e := opened_entry (bytes_written z) filename dt) in *.
  destruct (stored_name_len_range filename) as ((Hn0 & Hn) & Hlen).
  destruct (opened_entry_name (bytes_written z) filename dt) as (Hs & Ht).
  fold e in Hs, Ht.
  assert (Hle : stored_name_len filename <= strlen filename)
    by (unfold stored_name_len; apply Z.le_min_l).
  set (n := Z.to_nat (stored_name_len filename)) in *.
  assert (Hnm : length (take n filename) = n) by (rewrite length_take; lia).
  exists e, (take n filename), (take 11 (local_header_record filename dt)).
  rewrite Hnm.
  split; [apply (varray_last_represents _ _ _ Hr)|].
  split; [fold (stored_name_len filename); lia|].
  split; [reflexivity|].
  split; [apply strlen_nonzero; lia|].
  split; [reflexivity|].
  split.
  { unfold e. cbn [name opened_entry]. fold n. rewrite length_app, Hnm.
    cbn [length]. lia. }
  split; [rewrite Hs; lia|].
  split; [exact Hlog|]. split; [reflexivity|].
  split; [cbn; f_equal; f_equal; lia|].
  intros zz i e' Hget Hname Hacc.
  rewrite (_write_cd_file_header_entry _ _ _ Hget). rewrite Hacc.
  eexists. exists (take 17 (central_dir_record e')).
  split; [reflexivity|]. cbn [out set_out set_bytes_written].
  rewrite (accepts_log _ _ Hacc).
  assert (Hs' : strlen (name e') = Z.of_nat n) by (rewrite Hname, Hs; lia).
  split.
  { f_equal. f_equal. unfold central_dir_record. cbn [take app].
    do 17 f_equal. rewrite Hs', Nat2Z.id, Hname. now rewrite Ht. }
  split; [reflexivity|]. cbn. now rewrite Hs'.
Qed.
End DirectoryFacts.

Lemma run_cycle_writes_member_witness :
  exists e compressed,
    @idle_with Demo.demo (Demo.closed [] (0, 0)) ([] ++ [e]) /\
    offset e = uint32_t (bytes_written (Demo.idle [] (0, 0))) /\
    size e = uint32_t (fed_size [[104; 101; 108; 108; 111]]) /\
    size_compressed e = uint32_t (chunks_size compressed).
Proof.
  destruct (@run_cycle_writes_member Demo.demo 2 (Demo.idle [] (0, 0))
              (Demo.closed [] (0, 0))
              (Build_cycle [97; 46; 116; 120; 116] Demo.dt0 [[104; 101; 108; 108; 111]]) [])
    as (e & cs & H1 & H2 & _ & _ & _ & _ & H7 & H8 & _).
  - apply (@zip_init_idle Demo.demo (Build_z_stream 0 [] (0, 0)) []).
    vm_compute. reflexivity.
  - vm_compute. reflexivity.
  - exists e, cs. auto.
Defined.

Lemma offsets_point_at_local_headers_witness :
  bytes_written (Demo.archive [] (0, 0))
  = Z.of_nat (length (stream_bytes (sink_log (out (Demo.archive [] (0, 0)))))) /\
  Forall2 (fun c st =>
             (exists rest,
                 drop (Z.to_nat st) (stream_bytes (sink_log (out (Demo.archive [] (0, 0)))))
                 = concat (local_header_record (cycle_name c) (cycle_datetime c))
                   ++ rest) /\
             take 4 (drop (Z.to_nat st)
                          (stream_bytes (sink_log (out (Demo.archive [] (0, 0))))))
             = [80; 75; 3; 4])
          Demo.two_files [0; 56].
Proof.
  apply (@offsets_point_at_local_headers Demo.demo 2 (Build_z_stream 0 [] (0, 0)) []
           Demo.two_files (Demo.idle [] (0, 0)) (Demo.archive [] (0, 0)) [0; 56]).
  - vm_compute. reflexivity.
  - vm_compute. reflexivity.
  - vm_compute. reflexivity.
Defined.

Lemma end_record_locates_directory_witness :
  exists (es : list zip_entry_t) (z' : @zip_t Demo.demo),
    length es = 2%nat /\
    @zip_end Demo.demo (Demo.archive [] (0, 0)) = Done (true, z') /\
    Z.of_nat (length (concat (concat (central_dir_record <$> es))))
    = central_dir_size es.
Proof.
  destruct (@end_record_locates_directory Demo.demo 2 (Build_z_stream 0 [] (0, 0)) []
              Demo.two_files (Demo.idle [] (0, 0)) (Demo.archive [] (0, 0)) [0; 56])
    as (es & z' & _ & Hlen & Hend & _ & Hsize & _).
  - vm_compute. reflexivity.
  - vm_compute. reflexivity.
  - intros chunks. apply demo_accepts_everything. vm_compute. reflexivity.
  - exists es, z'. auto.
Defined.

Lemma stored_name_consistent_witness :
  exists e zz' cd,
    varray_last (entries (Demo.opened [] (0, 0))) = Done e /\
    name e = [97; 46; 116; 120; 116; 0] /\
    @_write_cd_file_header Demo.demo (Demo.closed [] (0, 0)) 0 = Done (true, zz') /\
    sink_log (out zz')
    = sink_log (out (Demo.closed [] (0, 0))) ++ accepted (cd ++ [[97; 46; 116; 120; 116]]) /\
    cd !! 10%nat = Some [5; 0].
Proof.
  destruct (@stored_name_consistent Demo.demo (Demo.idle [] (0, 0)) (Demo.opened [] (0, 0))
              [97; 46; 116; 120; 116] Demo.dt0 [])
    as (e & nm & hdr & H1 & H2 & H3 & _ & H5 & _ & _ & _ & _ & _ & Hcd).
  - apply (@zip_init_idle Demo.demo (Build_z_stream 0 [] (0, 0)) []).
    vm_compute. reflexivity.
  - vm_compute. reflexivity.
  - assert (Hn : length nm = 5%nat) by (apply Nat2Z.inj; rewrite H2; vm_compute; reflexivity).
    rewrite Hn in H3. cbn in H3. subst nm.
    let r := eval vm_compute in (va_get (entries (Demo.closed [] (0, 0))) 0) in
    match r with
    | Done ?e' =>
      destruct (Hcd (Demo.closed [] (0, 0)) 0 e') as (zz' & cd & Hw & Hl & _ & H10)
    end.
    + vm_compute. reflexivity.
    + rewrite H5. vm_compute. reflexivity.
    + vm_compute. reflexivity.
    + exists e, zz', cd. auto.
Defined.

(** * Further properties of the encoder: array bounds and the empty
      archive *)

Section BoundsFacts.
Context `{Collaborators}.

Lemma _deflate_loop_defined (fuel : nat) :
  forall (z : zip_t) (flush : Z) (es : list zip_entry_t) (e : zip_entry_t),
    represents (entries z) (es ++ [e]) -> _deflate_loop fuel z flush <> Undefined.
Proof.
  induction fuel as [|fuel IH]; intros z flush es e Hr; [discriminate|].
  cbn [_deflate_loop].
  destruct (deflate (stream z) flush) as [[ret produced] strm].
  destruct (ret <? 0); [discriminate|].
  cbn [out set_stream].
  destruct (call_out_cb (out z) produced) as [[|] s]; cbn [negb]; [|discriminate].
  cbn [entries set_out set_stream].
  rewrite (varray_last_represents _ _ _ Hr). cbn [mbind outcome_bind].
  destruct (varray_set_last_represents _ _ _
              (set_size_compressed e
                 (uint32_t (size_compressed e
                            + (ZIP_INTERNAL_BUFFER_SIZE
                               - (ZIP_INTERNAL_BUFFER_SIZE - Z.of_nat (length produced))))))
              Hr) as (v' & Hv' & Hr' & _).
  rewrite Hv'. cbn [mbind outcome_bind].
  destruct (_ =? 0); [|discriminate].
  eapply IH. cbn [entries set_bytes_written set_entries]. exact Hr'.
Qed.

Lemma _deflate_defined (fuel : nat) (z : zip_t) (flush : Z) (data : list Z)
      (es : list zip_entry_t) (e : zip_entry_t) :
  represents (entries z) (es ++ [e]) -> _deflate fuel z flush data <> Undefined.
Proof.
  intros Hr. unfold _deflate.
  rewrite (varray_last_represents _ _ _ Hr). cbn [mbind outcome_bind].
  destruct (varray_set_last_represents _ _ _
              (set_size e (uint32_t (size e + Z.of_nat (length data)))) Hr)
    as (v' & Hv' & Hr' & _).
  rewrite Hv'. cbn [mbind outcome_bind].
  eapply _deflate_loop_defined. cbn [entries set_stream set_entries]. exact Hr'.
Qed.

Lemma zip_end_loop_Done (n : nat) : forall (i : nat) (z : zip_t) (es : list zip_entry_t),
  represents (entries z) es -> (i + n)%nat = length es ->
  exists r, zip_end_loop n (Z.of_nat i) z = Done r.
Proof.
  induction n as [|n IH]; intros i z es Hr Hlen; [cbn; eauto|].
  assert (Hi : (i < length es)%nat) by lia.
  destruct (lookup_lt_is_Some_2 es i Hi) as (e & He).
  cbn [zip_end_loop].
  rewrite (_write_cd_file_header_entry z _ e (va_get_represents _ _ _ _ Hr He)).
  destruct (fst (sink_write_all (out z) (central_dir_record e)));
    cbn [mbind outcome_bind negb]; [|eauto].
  replace (size_t (Z.of_nat i + 1)) with (Z.of_nat (S i)).
  2:{ destruct Hr as (Hl & Hc & Hle & _). rewrite size_t_small; lia. }
  apply (IH (S i) _ es); [exact Hr|lia].
Qed.

Lemma zip_end_Done (z : zip_t) (es : list zip_entry_t) :
  represents (entries z) es -> exists r, zip_end z = Done r.
Proof.
  intros Hr. unfold zip_end. destruct (entry_opened z); [eauto|].
  destruct (zip_end_loop_Done (length es) 0
              (set_central_dir_offset z (bytes_written z)) es) as ([ok1 z1] & Hloop);
    [exact Hr|reflexivity|].
  replace (Z.to_nat (varray_len (entries (set_central_dir_offset z (bytes_written z)))))
    with (length es)
    by (destruct Hr as (Hl & _); unfold varray_len; cbn; lia).
  change (Z.of_nat 0) with 0 in Hloop. rewrite Hloop. cbn [mbind outcome_bind].
  destruct ok1; cbn [negb]; eauto.
Qed.

(** X18. The operations stay inside the entry array.  On an encoder
    whose entry list is in a proper state, holds the open entry when one
    is open, and is short enough for the byte count of a buffer of twice
    its entries, [sizeof(varray_t) + 2 * len * sizeof(zip_entry_t)], to
    fit a [size_t], no operation reads or writes outside the array:
    [zip_entry_add] and [zip_end] return, whatever the callback and the
    compressor answer, and [zip_entry_update] and [zip_entry_end] have no
    undefined behaviour however long the compression loop runs. *)
Theorem operations_stay_in_bounds (fuel : nat) (z : zip_t) (es : list zip_entry_t) :
  represents (entries z) es ->
  (entry_opened z = true -> es <> []) ->
  sizeof_varray_t + 2 * varray_len (entries z) * sizeof zip_entry_t < 2 ^ 64 ->
  (forall filename datetime, exists r, zip_entry_add z filename datetime = Done r) /\
  (forall data, zip_entry_update fuel z data <> Undefined) /\
  zip_entry_end fuel z <> Undefined /\
  (exists r, zip_end z = Done r).
Proof.
  intros Hr Hopen Hlen. unfold varray_len in Hlen.
  split; [|split; [|split]].
  - intros filename dt. destruct (entry_opened z) eqn:Ho.
    { unfold zip_entry_add. rewrite Ho. eauto. }
    destruct (accepts_dec (out z) (local_header_record filename dt)) as [Hacc|Hrej].
    + destruct (zip_entry_add_accepted z filename dt es Ho Hr Hlen Hacc) as (z' & Hadd & _).
      eauto.
    + rewrite (zip_entry_add_rejected z filename dt Ho Hrej). eauto.
  - intros data. unfold zip_entry_update. destruct (entry_opened z) eqn:Ho;
      cbn [negb]; [|discriminate].
    destruct (_ =? 0); [discriminate|].
    destruct (exists_last (Hopen eq_refl)) as (es' & e & ->).
    rewrite (varray_last_represents _ _ _ Hr). cbn [mbind outcome_bind].
    destruct (varray_set_last_represents _ _ _
                (set_crc e (uint32_t (crc32 (crc e)
                   (take (Z.to_nat (uint32_t (Z.of_nat (length data)))) data)))) Hr)
      as (v' & Hv' & Hr' & _).
    rewrite Hv'. cbn [mbind outcome_bind].
    eapply _deflate_defined. cbn [entries set_entries]. exact Hr'.
  - destruct (entry_opened z) eqn:Ho.
    2:{ unfold zip_entry_end. rewrite Ho. discriminate. }
    destruct (exists_last (Hopen eq_refl)) as (es' & e & ->).
    pose proof (_deflate_defined fuel z Z_FINISH [] es' e Hr) as Hdef.
    destruct (_deflate fuel z Z_FINISH []) as [[ok1 zf]| |] eqn:Hflush.
    + destruct ok1.
      * destruct (_deflate_last _ _ _ _ _ _ Hflush) as (ef & Hef).
        rewrite (zip_entry_end_flushed fuel z zf ef Ho Hflush Hef).
        destruct (fst (sink_write_all _ _)); discriminate.
      * unfold zip_entry_end. rewrite Ho, Hflush. discriminate.
    + congruence.
    + unfold zip_entry_end. rewrite Ho, Hflush. discriminate.
  - exact (zip_end_Done z es Hr).
Qed.

(** X19. The empty archive.  [zip_end] right after a successful
    [zip_init], with a callback that accepts the eight fields of the end
    record, returns true, and the archive is the end record of an archive
    with no entry: the signature 50 4b 05 06 followed by eighteen zero
    bytes. *)
Theorem empty_archive (strm : z_stream zstate) (ctx : Ctx) (z0 : zip_t) :
  zip_init strm ctx = Done (true, z0) ->
  accepts (out z0) (eocd_record 0 0 0) ->
  exists z',
    zip_end z0 = Done (true, z') /\
    stream_bytes (sink_log (out z')) = [80; 75; 5; 6] ++ replicate 18 0 /\
    zip_get_num_entries z' = 0.
Proof.
  intros Hinit Hacc.
  assert (Hv : @varray_init zip_entry_t _ 1 = Done (Build_varray 1 0 [None]))
    by (vm_compute; reflexivity).
  assert (Hz0 : exists s,
             z0 = Build_zip s (Build_sink ctx []) (Build_varray 1 0 [None]) 0 0 false).
  { unfold zip_init in Hinit. rewrite Hv in Hinit.
    cbn [mbind outcome_bind stream] in Hinit.
    destruct (deflateInit2 _) as [r s]. injection Hinit as _ <-. eexists. reflexivity. }
  destruct Hz0 as (s & ->).
  set (zi := Build_zip s (Build_sink ctx []) (Build_varray 1 0 [None]) 0 0 false) in *.
  set (zc := set_central_dir_offset zi (bytes_written zi)).
  assert (Hfields : field_chunks (eocd_fields zc) = eocd_record 0 0 0).
  { rewrite eocd_fields_chunks. reflexivity. }
  assert (Hacc' : accepts (out zc) (field_chunks (eocd_fields zc))).
  { rewrite Hfields. exact Hacc. }
  assert (Hend : zip_end zi = Done (_write_eocd zc)) by reflexivity.
  rewrite Hend, (_write_eocd_accepted zc Hacc'). eexists. split; [reflexivity|].
  cbn [out entries set_out]. rewrite (accepts_log _ _ Hacc'), Hfields.
  split; reflexivity.
Qed.
End BoundsFacts.

Lemma operations_stay_in_bounds_witness :
  (forall filename datetime,
      exists r, @zip_entry_add Demo.demo (Demo.opened [] (0, 0)) filename datetime = Done r) /\
  (forall data, @zip_entry_update Demo.demo 2 (Demo.opened [] (0, 0)) data <> Undefined) /\
  @zip_entry_end Demo.demo 2 (Demo.opened [] (0, 0)) <> Undefined /\
  (exists r, @zip_end Demo.demo (Demo.opened [] (0, 0)) = Done r).
Proof.
  apply (@operations_stay_in_bounds Demo.demo 2 (Demo.opened [] (0, 0))
           [@opened_entry Demo.demo 0 [97; 46; 116; 120; 116] Demo.dt0]).
  - unfold represents. vm_compute. repeat split; discriminate.
  - discriminate.
  - vm_compute. reflexivity.
Defined.

Lemma empty_archive_witness :
  exists z',
    @zip_end Demo.demo (Demo.idle [] (0, 0)) = Done (true, z') /\
    stream_bytes (sink_log (out z')) = [80; 75; 5; 6] ++ replicate 18 0 /\
    zip_get_num_entries z' = 0.
Proof.
  apply (@empty_archive Demo.demo (Build_z_stream 0 [] (0, 0)) [] (Demo.idle [] (0, 0))).
  - vm_compute. reflexivity.
  - apply demo_accepts_everything. vm_compute. reflexivity.
Defined.

(** * Further properties of the encoder: the order of the members *)

Section OrderFacts.
Context `{Collaborators}.

Lemma run_cycles_starts (fuel : nat) (cs : list cycle) :
  forall (z zf : zip_t) (starts : list Z) (es : list zip_entry_t),
    idle_with z es -> all_counted z ->
    run_cycles fuel z cs = Done (true, zf, starts) ->
    accepted_bytes (sink_log (out zf)) < 2 ^ 64 ->
    accepted_bytes (sink_log (out z)) <= accepted_bytes (sink_log (out zf)) /\
    Forall (fun st => accepted_bytes (sink_log (out z)) <= st /\
                      st + 46 <= accepted_bytes (sink_log (out zf))) starts /\
    (cs <> [] -> starts !! 0%nat = Some (accepted_bytes (sink_log (out z)))) /\
    (forall (i j : nat) (si sj : Z),
        (i < j)%nat -> starts !! i = Some si -> starts !! j = Some sj -> si + 46 <= sj).
Proof.
  induction cs as [|c cs IH]; intros z zf starts es Hidle Hcount Hrun Hbound.
  - apply Done_pair_inj in Hrun as (Hp & <-). injection Hp as <-.
    split; [lia|]. split; [constructor|]. split; [congruence|].
    intros i j si sj _ Hi. discriminate.
  - cbn [run_cycles] in Hrun.
    apply outcome_bind_Done in Hrun as ([ok1 z1] & Hc & Hrun).
    destruct ok1; cbn [negb] in Hrun;
      [|apply Done_pair_inj in Hrun as (Hf & _); discriminate].
    apply outcome_bind_Done in Hrun as ([[ok2 z2] starts'] & Hrest & Hrun).
    apply Done_pair_inj in Hrun as (Hp & <-). injection Hp as -> ->.
    destruct (run_cycle_result fuel z z1 c es Hidle Hc)
      as (e & dcs & Hidle1 & _ & _ & _ & _ & Hl1 & Hb1).
    assert (Hsize : 46 <= chunks_size
                      (local_header_record (cycle_name c) (cycle_datetime c)
                       ++ dcs ++ data_descriptor_record e)).
    { rewrite !chunks_size_app, local_header_record_size, data_descriptor_record_size.
      pose proof (stored_name_len_range (cycle_name c)) as ((Hn & _) & _).
      pose proof (accepted_bytes_nonneg (accepted dcs)) as Hd.
      unfold chunks_size at 1. lia. }
    set (member := local_header_record _ _ ++ dcs ++ data_descriptor_record e) in *.
    assert (Hcount1 : all_counted z1).
    { unfold all_counted in *. rewrite Hb1, Hl1, Hcount, accepted_bytes_app.
      apply size_t_add_l. }
    destruct (IH z1 zf starts' _ Hidle1 Hcount1 Hrest Hbound)
      as (Hle & Hall & _ & Hsorted).
    rewrite Hl1, accepted_bytes_app in Hle, Hall. unfold chunks_size in Hsize.
    pose proof (accepted_bytes_nonneg (sink_log (out z))) as Hnn.
    assert (Hstart : bytes_written z = accepted_bytes (sink_log (out z))).
    { rewrite Hcount. apply size_t_small. lia. }
    rewrite Hstart.
    split; [lia|]. split; [|split].
    + constructor; [lia|]. eapply Forall_impl; [exact Hall|].
      cbv beta. intros st Hst. lia.
    + intros _. reflexivity.
    + intros [|i] [|j] si sj Hij Hi Hj; try lia; cbn in Hi, Hj.
      * injection Hi as <-.
        destruct (proj1 (Forall_lookup _ _) Hall j sj Hj) as (Hlo & _). lia.
      * apply (Hsorted i j si sj); [lia|assumption..].
Qed.

(** X20. The members of an archive do not overlap.  In an archive built
    from initialisation by complete entry cycles that all returned true,
    with fewer than 2^64 bytes accepted, one position is recorded for
    each member, the first member starts at position 0, every member
    starts at least 46 bytes (a local header and a data descriptor) after
    the one before it, and the last one ends within the bytes counted. *)
Theorem members_do_not_overlap
        (fuel : nat) (strm : z_stream zstate) (ctx : Ctx)
        (cycles : list cycle) (z0 z : zip_t) (starts : list Z) :
  zip_init strm ctx = Done (true, z0) ->
  run_cycles fuel z0 cycles = Done (true, z, starts) ->
  accepted_bytes (sink_log (out z)) < 2 ^ 64 ->
  length starts = length cycles /\
  (cycles <> [] -> starts !! 0%nat = Some 0) /\
  (forall (i : nat) (si : Z),
      starts !! i = Some si -> 0 <= si /\ si + 46 <= bytes_written z) /\
  (forall (i j : nat) (si sj : Z),
      (i < j)%nat -> starts !! i = Some si -> starts !! j = Some sj -> si + 46 <= sj).
Proof.
  intros Hinit Hrun Hbound.
  destruct (zip_init_idle _ _ _ Hinit) as (Hidle & Hlog0).
  pose proof (zip_init_counted _ _ _ Hinit) as Hcount.
  destruct (run_cycles_layout fuel cycles z0 z starts [] Hidle Hcount Hrun)
    as (Hcz & _ & Hall).
  destruct (run_cycles_starts fuel cycles z0 z starts [] Hidle Hcount Hrun Hbound)
    as (_ & Hst & Hfirst & Hsorted).
  rewrite Hlog0 in Hst, Hfirst. change (accepted_bytes []) with 0 in Hst, Hfirst.
  assert (Hbw : bytes_written z = accepted_bytes (sink_log (out z))).
  { unfold all_counted in Hcz. rewrite Hcz. apply size_t_small.
    split; [apply accepted_bytes_nonneg|exact Hbound]. }
  split; [symmetry; exact (Forall2_length _ _ _ (Hall Hbound))|].
  split; [exact Hfirst|]. split; [|exact Hsorted].
  intros i si Hi. rewrite Hbw. exact (proj1 (Forall_lookup _ _) Hst i si Hi).
Qed.
End OrderFacts.

Lemma members_do_not_overlap_witness :
  length [0; 56] = length Demo.two_files /\
  (Demo.two_files <> [] -> [0; 56] !! 0%nat = Some 0) /\
  (forall (i : nat) (si : Z),
      [0; 56] !! i = Some si ->
      0 <= si /\ si + 46 <= bytes_written (Demo.archive [] (0, 0))) /\
  (forall (i j : nat) (si sj : Z),
      (i < j)%nat -> [0; 56] !! i = Some si -> [0; 56] !! j = Some sj -> si + 46 <= sj).
Proof.
  apply (@members_do_not_overlap Demo.demo 2 (Build_z_stream 0 [] (0, 0)) []
           Demo.two_files (Demo.idle [] (0, 0)) (Demo.archive [] (0, 0)) [0; 56]).
  - vm_compute. reflexivity.
  - vm_compute. reflexivity.
  - vm_compute. reflexivity.
Defined.
